(** * Spanning-tree sampler of models.py: a shallow embedding

    The development follows models.py: the networkx graph operations the
    module calls ([has_edge], [add_edge], [remove_edge], [edges],
    [degree], [shortest_path], [shortest_path_length],
    [minimum_spanning_tree]), the two stochastics [BDST] and [LDST] with
    their log-probability functions [bdst] and [ldst], and the step
    method [STMetropolis] with [propose] and [reject].

    Python objects live in a heap and are named by references, because
    the sampler mutates the tree object in place and [ldst] reads the
    tree through a captured variable.  Exceptions are results
    [Raise name]; a run that does not end within the draws it is given
    is the result [Diverge]. *)

From Stdlib Require Import QArith Qround Qreals Reals Lra.
From stdpp Require Import base option list gmap fin_maps strings relations.

(* stdpp's solvers clear hypotheses by name and warn when one is gone. *)
Set Warnings "-clear-no-such-hyp".

(** ** Results of Python computations *)

Inductive outcome (A : Type) : Type :=
  | Ok (a : A)
  | Raise (e : string)
  | Diverge.
Arguments Ok {A} a.
Arguments Raise {A} e.
Arguments Diverge {A}.

Global Instance outcome_bind : MBind outcome := λ A B f m,
  match m with
  | Ok a => f a
  | Raise e => Raise e
  | Diverge => Diverge
  end.

Global Instance outcome_ret : MRet outcome := λ A a, Ok a.

(** [seq[i]] on a Python list. *)
Definition getitem {A} (l : list A) (i : nat) : outcome A :=
  match l !! i with
  | Some x => Ok x
  | None => Raise "IndexError"
  end.

(** ** The random module

    [random.random()] returns [m / 2^53] for a 53-bit integer [m]; the
    generator is the list of the integers it will produce.  An exhausted
    list stands for a run that needs more draws than were supplied. *)

Definition rng := list Z.

Definition two53 : Z := 2 ^ 53.

Definition unit_float (m : Z) : Q := Qmake (m `mod` two53) (Z.to_pos two53).

Definition random (r : rng) : outcome (Q * rng) :=
  match r with
  | [] => Diverge
  | m :: r' => Ok (unit_float m, r')
  end.

(** [int(random() * n)] *)
Definition scaled_index (u : Q) (n : nat) : nat :=
  Z.to_nat (Qfloor (u * inject_Z (Z.of_nat n))).

(** [random.choice(seq)]: [seq[int(random() * len(seq))]] *)
Definition choice {A} (l : list A) (r : rng) : outcome (A * rng) :=
  '(u, r') ← random r;
  x ← getitem l (scaled_index u (length l));
  Ok (x, r').

(** [random.randrange(n)] *)
Definition randrange (n : Z) (r : rng) : outcome (nat * rng) :=
  if decide (0 < n)%Z then
    '(u, r') ← random r;
    Ok (scaled_index u (Z.to_nat n), r')
  else Raise "ValueError".

(** ** networkx graphs *)

(** The data dictionary of an edge holds at most a weight. *)
Definition attr : Type := option Q.

Section models.
Context `{Countable node}.

(** [G.adj]: a dictionary of dictionaries. *)
Local Abbreviation Adj := (gmap node (gmap node attr)).

Definition keys {V} (m : gmap node V) : list node := (map_to_list m).*1.

Definition has_edge (g : Adj) (u v : node) : bool :=
  match g !! u with
  | Some nbrs => bool_decide (is_Some (nbrs !! v))
  | None => false
  end.

Definition add_node (g : Adj) (n : node) : Adj :=
  match g !! n with
  | Some _ => g
  | None => <[n := ∅]> g
  end.

(** [G.add_edge(u, v, attr_dict)]: the data dictionary of an edge already
    there is kept and updated, a new edge starts from an empty one. *)
Definition add_edge_attr (g : Adj) (u v : node) (a : attr) : Adj :=
  let g1 := add_node (add_node g u) v in
  let old : attr := default None ((g1 !! u) ≫= (.!! v)) in
  let datadict : attr := match a with Some w => Some w | None => old end in
  let g2 := <[u := <[v := datadict]> (default ∅ (g1 !! u))]> g1 in
  <[v := <[u := datadict]> (default ∅ (g2 !! v))]> g2.

(** [G.add_edge(u, v)] *)
Definition add_edge (g : Adj) (u v : node) : Adj := add_edge_attr g u v None.

(** [del d[k]] *)
Definition delitem {V} (m : gmap node V) (k : node) : outcome (gmap node V) :=
  match m !! k with
  | Some _ => Ok (delete k m)
  | None => Raise "KeyError"
  end.

(** [G.remove_edge(u, v)]: a KeyError of either deletion is turned into
    a NetworkXError. *)
Definition remove_edge (g : Adj) (u v : node) : outcome Adj :=
  let body :=
    nu ← match g !! u with Some nu => Ok nu | None => Raise "KeyError" end;
    nu' ← delitem nu v;
    let g1 := <[u := nu']> g in
    if decide (u = v) then Ok g1
    else
      nv ← match g1 !! v with Some nv => Ok nv | None => Raise "KeyError" end;
      nv' ← delitem nv u;
      Ok (<[v := nv']> g1) in
  match body with
  | Raise _ => Raise "NetworkXError"
  | r => r
  end.

(** [G.edges()]: every edge once, from the endpoint met first. *)
Fixpoint edges_iter (items : list (node * gmap node attr)) (seen : gset node)
  : list (node * node) :=
  match items with
  | [] => []
  | (n, nbrs) :: rest =>
      ((λ nbr, (n, nbr)) <$> filter (λ nbr, nbr ∉ seen) (keys nbrs))
        ++ edges_iter rest ({[n]} ∪ seen)
  end.

Definition edges (g : Adj) : list (node * node) :=
  edges_iter (map_to_list g) ∅.

(** [G.degree()]: a self-loop counts twice. *)
Definition degree (g : Adj) : gmap node nat :=
  map_imap (λ n nbrs,
    Some (size nbrs + (if decide (is_Some (nbrs !! n)) then 1 else 0))) g.

Definition values {V} (m : gmap node V) : list V := (map_to_list m).*2.

(** [G.number_of_edges()] is [G.size()]: half the sum of the degrees. *)
Definition number_of_edges (g : Adj) : nat :=
  sum_list (values (degree g)) `div` 2.

(** [G[v]] *)
Definition nbrs_of (g : Adj) (v : node) : outcome (gmap node attr) :=
  match g !! v with
  | Some nbrs => Ok nbrs
  | None => Raise "KeyError"
  end.

(** *** single_source_shortest_path_length *)

(** The body of [for v in thislevel]. *)
Fixpoint length_level (g : Adj) (thislevel : list node) (level : nat)
    (seen : gmap node nat) (nextlevel : gset node)
  : outcome (gmap node nat * gset node) :=
  match thislevel with
  | [] => Ok (seen, nextlevel)
  | v :: rest =>
      if decide (is_Some (seen !! v)) then
        length_level g rest level seen nextlevel
      else
        nbrs ← nbrs_of g v;
        length_level g rest level (<[v := level]> seen) (nextlevel ∪ dom nbrs)
  end.

(** [while nextlevel: ...] *)
Fixpoint length_loop (fuel : nat) (g : Adj) (level : nat)
    (seen : gmap node nat) (nextlevel : gset node)
  : outcome (gmap node nat) :=
  if decide (elements nextlevel = []) then Ok seen
  else
    match fuel with
    | 0 => Diverge
    | S fuel' =>
        '(seen', next') ← length_level g (elements nextlevel) level seen ∅;
        length_loop fuel' g (S level) seen' next'
    end.

(** [nx.shortest_path_length(G, source)] *)
Definition shortest_path_length (g : Adj) (source : node)
  : outcome (gmap node nat) :=
  length_loop (S (size g)) g 0 ∅ {[source]}.

(** *** single_source_shortest_path and shortest_path *)

(** The body of [for w in G[v]]. *)
Definition visit (pv : list node)
    (st : gmap node (list node) * gset node) (w : node)
  : gmap node (list node) * gset node :=
  if decide (is_Some (st.1 !! w)) then st
  else (<[w := pv ++ [w]]> st.1, {[w]} ∪ st.2).

Fixpoint path_level (g : Adj) (thislevel : list node)
    (paths : gmap node (list node)) (nextlevel : gset node)
  : outcome (gmap node (list node) * gset node) :=
  match thislevel with
  | [] => Ok (paths, nextlevel)
  | v :: rest =>
      nbrs ← nbrs_of g v;
      pv ← match paths !! v with Some p => Ok p | None => Raise "KeyError" end;
      let st := foldl (visit pv) (paths, nextlevel) (keys nbrs) in
      path_level g rest st.1 st.2
  end.

Fixpoint path_loop (fuel : nat) (g : Adj)
    (paths : gmap node (list node)) (nextlevel : gset node)
  : outcome (gmap node (list node)) :=
  if decide (elements nextlevel = []) then Ok paths
  else
    match fuel with
    | 0 => Diverge
    | S fuel' =>
        '(paths', next') ← path_level g (elements nextlevel) paths ∅;
        path_loop fuel' g paths' next'
    end.

Definition single_source_shortest_path (g : Adj) (source : node)
  : outcome (gmap node (list node)) :=
  path_loop (S (size g)) g {[source := [source]]} {[source]}.

(** [nx.shortest_path(G, source, target)]: a shortest path as a list of
    nodes, [source] alone when the two nodes are the same,
    NetworkXNoPath when [target] is not reached.  The breadth-first
    search is the one of [single_source_shortest_path]. *)
Definition shortest_path (g : Adj) (source target : node)
  : outcome (list node) :=
  if decide (source = target) then Ok [source]
  else
    paths ← single_source_shortest_path g source;
    match paths !! target with
    | Some p => Ok p
    | None => Raise "NetworkXNoPath"
    end.

(** *** minimum_spanning_tree (Kruskal) *)

(** [G.edges(data=True)] *)
Definition edges_data (g : Adj) : list (node * node * attr) :=
  (λ e, (e.1, e.2, default None ((g !! e.1) ≫= (.!! e.2)))) <$> edges g.

(** [d.get('weight', 1)] *)
Definition weight_of (a : attr) : Q := default 1%Q a.

(** [sorted(..., key=weight)]: stable. *)
Fixpoint insert_by_weight (e : node * node * attr)
    (l : list (node * node * attr)) : list (node * node * attr) :=
  match l with
  | [] => [e]
  | e' :: l' =>
      if Qle_bool (weight_of e.2) (weight_of e'.2) then e :: l
      else e' :: insert_by_weight e l'
  end.

Definition sorted_by_weight (l : list (node * node * attr))
  : list (node * node * attr) :=
  foldr insert_by_weight [] l.

(** The UnionFind structure, seen through what Kruskal's loop observes
    of it: [subtrees[x]] is the representative of the set of [x]. *)
Definition uf_find (uf : gmap node node) (x : node) : node :=
  default x (uf !! x).

Definition uf_union (universe : list node) (uf : gmap node node) (u v : node)
  : gmap node node :=
  let ru := uf_find uf u in
  let rv := uf_find uf v in
  foldr (λ x acc, if decide (uf_find uf x = ru) then <[x := rv]> acc else acc)
        uf universe.

Fixpoint kruskal_mst (universe : list node) (es : list (node * node * attr))
    (subtrees : gmap node node) : list (node * node * attr) :=
  match es with
  | [] => []
  | (u, v, d) :: rest =>
      if decide (uf_find subtrees u ≠ uf_find subtrees v) then
        (u, v, d) :: kruskal_mst universe rest (uf_union universe subtrees u v)
      else kruskal_mst universe rest subtrees
  end.

(** [nx.minimum_spanning_tree(G)]: the graph of Kruskal's edges, and the
    isolated nodes of [G] when nodes are missing. *)
Definition minimum_spanning_tree (g : Adj) : Adj :=
  let es := kruskal_mst (keys g) (sorted_by_weight (edges_data g)) ∅ in
  let T := foldl (λ t e, add_edge_attr t e.1.1 e.1.2 e.2) ∅ es in
  if decide (size T ≠ size g) then
    foldl add_node T (filter (λ n, degree g !! n = Some 0) (keys g))
  else T.

(** ** Python objects *)

Definition ref := nat.

(** An [nx.Graph] object with the attributes that models.py attaches. *)
Record Graph := mkGraph {
  adj : Adj;
  base_graph : option ref;
  root : option node;
  k : option Z;
  d : option Z;
  u_new : option node;
  v_new : option node;
  u_old : option node;
  v_old : option node;
  path : option (list node)
}.

Definition new_graph (a : Adj) : Graph :=
  mkGraph a None None None None None None None None None.

Definition set_adj (a : Adj) (t : Graph) : Graph :=
  mkGraph a (base_graph t) (root t) (k t) (d t)
          (u_new t) (v_new t) (u_old t) (v_old t) (path t).
Definition set_base_graph (b : ref) (t : Graph) : Graph :=
  mkGraph (adj t) (Some b) (root t) (k t) (d t)
          (u_new t) (v_new t) (u_old t) (v_old t) (path t).
Definition set_root (r : node) (t : Graph) : Graph :=
  mkGraph (adj t) (base_graph t) (Some r) (k t) (d t)
          (u_new t) (v_new t) (u_old t) (v_old t) (path t).
Definition set_k (x : Z) (t : Graph) : Graph :=
  mkGraph (adj t) (base_graph t) (root t) (Some x) (d t)
          (u_new t) (v_new t) (u_old t) (v_old t) (path t).
Definition set_d (x : Z) (t : Graph) : Graph :=
  mkGraph (adj t) (base_graph t) (root t) (k t) (Some x)
          (u_new t) (v_new t) (u_old t) (v_old t) (path t).
Definition set_new (e : node * node) (t : Graph) : Graph :=
  mkGraph (adj t) (base_graph t) (root t) (k t) (d t)
          (Some e.1) (Some e.2) (u_old t) (v_old t) (path t).
Definition set_old (e : node * node) (t : Graph) : Graph :=
  mkGraph (adj t) (base_graph t) (root t) (k t) (d t)
          (u_new t) (v_new t) (Some e.1) (Some e.2) (path t).
Definition set_path (p : list node) (t : Graph) : Graph :=
  mkGraph (adj t) (base_graph t) (root t) (k t) (d t)
          (u_new t) (v_new t) (u_old t) (v_old t) (Some p).

(** Reading an attribute that was never set. *)
Definition getattr {A} (o : option A) : outcome A :=
  match o with
  | Some x => Ok x
  | None => Raise "AttributeError"
  end.

Local Abbreviation Heap := (gmap ref Graph).

(** Following a reference; a Python reference always has a target. *)
Definition deref (h : Heap) (r : ref) : outcome Graph :=
  match h !! r with
  | Some t => Ok t
  | None => Raise "SystemError"
  end.

(** ** The log-probability functions *)

(** [np.sum(array > k)] and [np.sum(array >= d)] *)
Definition count_gt (x : Z) (l : list nat) : nat :=
  length (filter (λ n, (x < Z.of_nat n)%Z) l).
Definition count_ge (x : Z) (l : list nat) : nat :=
  length (filter (λ n, (x ≤ Z.of_nat n)%Z) l).

Definition neg_beta_times (beta : Q) (n : nat) : Q :=
  (- beta * inject_Z (Z.of_nat n))%Q.

(** The function [bdst] of [BDST]: all it reads comes through its
    arguments. *)
Definition bdst (h : Heap) (value : ref) (root : node) (k : Z) (beta : Q)
  : outcome Q :=
  V ← deref h value;
  lengths ← shortest_path_length (adj V) root;
  Ok (neg_beta_times beta (count_gt k (values lengths))).

(** The function [ldst] of [LDST]: [T] and [d] are the variables of the
    enclosing call; the body reads the degrees of [T]. *)
Definition ldst (T : ref) (d : Z) (h : Heap) (value : ref) (beta : Q)
  : outcome Q :=
  t ← deref h T;
  Ok (neg_beta_times beta (count_ge d (values (degree (adj t))))).

(** A PyMC stochastic: its current value and its log-probability as a
    function of the heap and of the value. *)
Record Stochastic := mkStochastic {
  value : ref;
  logp_fun : Heap → ref → outcome Q
}.

Definition logp (h : Heap) (s : Stochastic) : outcome Q :=
  logp_fun s h (value s).

(** ** The state of a run: the heap and the two generators, the one of
    the random module and the one of numpy.random. *)
Record world := mkWorld {
  heap : Heap;
  gen : rng;
  np_gen : rng
}.

Definition alloc (t : Graph) (w : world) : ref * world :=
  let r := fresh (dom (heap w)) in
  (r, mkWorld (<[r := t]> (heap w)) (gen w) (np_gen w)).

Definition store (r : ref) (t : Graph) (w : world) : world :=
  mkWorld (<[r := t]> (heap w)) (gen w) (np_gen w).

(** [BDST(G, root, k, beta)] *)
Definition BDST (G : ref) (root : node) (k : Z) (beta : Q) (w : world)
  : outcome (Stochastic * world) :=
  g ← deref (heap w) G;
  let T := new_graph (minimum_spanning_tree (adj g)) in
  let T := set_k k (set_root root (set_base_graph G T)) in
  let '(r, w') := alloc T w in
  Ok (mkStochastic r (λ h value, bdst h value root k beta), w').

(** [LDST(G, d, beta)] *)
Definition LDST (G : ref) (d : Z) (beta : Q) (w : world)
  : outcome (Stochastic * world) :=
  g ← deref (heap w) G;
  let T := new_graph (minimum_spanning_tree (adj g)) in
  let T := set_d d (set_base_graph G T) in
  let '(r, w') := alloc T w in
  Ok (mkStochastic r (λ h value, ldst r d h value beta), w').

(** ** The step method STMetropolis *)

Record STMetropolis := mkSTMetropolis {
  stochastic : Stochastic
}.

Definition set_value (self : STMetropolis) (T : ref) : STMetropolis :=
  mkSTMetropolis (mkStochastic T (logp_fun (stochastic self))).

(** [while T.has_edge(T.u_new, T.v_new):
       T.u_new, T.v_new = random.choice(T.base_graph.edges())]
    Every turn of the loop takes one draw, so [fuel] above the number of
    draws left is never used up before the draws are. *)
Fixpoint resample (fuel : nat) (T : ref) (w : world) : outcome world :=
  t ← deref (heap w) T;
  u ← getattr (u_new t);
  v ← getattr (v_new t);
  if has_edge (adj t) u v then
    match fuel with
    | 0 => Diverge
    | S fuel' =>
        G ← getattr (base_graph t);
        g ← deref (heap w) G;
        '(e, r) ← choice (edges (adj g)) (gen w);
        resample fuel' T
          (mkWorld (<[T := set_new e t]> (heap w)) r (np_gen w))
    end
  else Ok w.

(** [STMetropolis.propose] *)
Definition propose (self : STMetropolis) (w : world)
  : outcome (STMetropolis * world) :=
  let T := value (stochastic self) in
  t ← deref (heap w) T;
  e0 ← getitem (edges (adj t)) 0;
  w ← resample (S (length (gen w))) T (store T (set_new e0 t) w);
  t ← deref (heap w) T;
  u ← getattr (u_new t);
  v ← getattr (v_new t);
  p ← shortest_path (adj t) u v;
  let t := set_path p t in
  '(i, r) ← randrange (Z.of_nat (length p) - 1) (gen w);
  a ← getitem p i;
  b ← getitem p (i + 1);
  let t := set_old (a, b) t in
  g ← remove_edge (adj t) a b;
  let t := set_adj (add_edge g u v) t in
  Ok (set_value self T, mkWorld (<[T := t]> (heap w)) r (np_gen w)).

(** [STMetropolis.reject] *)
Definition reject (self : STMetropolis) (w : world)
  : outcome (STMetropolis * world) :=
  let T := value (stochastic self) in
  t ← deref (heap w) T;
  a ← getattr (u_old t);
  b ← getattr (v_old t);
  let g := add_edge (adj t) a b in
  u ← getattr (u_new t);
  v ← getattr (v_new t);
  g ← remove_edge g u v;
  Ok (set_value self T, store T (set_adj g t) w).

(** Modelled from the spec: the acceptance test of a sampler iteration,
    which STMetropolis inherits from [pm.Metropolis] and models.py does
    not contain.  A proposal is accepted with probability
    min(1, exp(delta)) on one uniform draw [u] in [0, 1); as in PyMC the
    draw is compared through its logarithm, [log(u) > delta] rejects,
    and the logarithm of 0 is minus infinity. *)
Definition log_gt (u delta : Q) : bool :=
  if Qle_bool u 0 then false
  else if Rlt_dec (Q2R delta) (ln (Q2R u)) then true else false.

(** Modelled from the spec: one sampler iteration, the inherited
    [Metropolis.step] that models.py does not contain: the energy of the
    current tree, [propose], the energy of the candidate, one draw of
    numpy's generator, and the reversal [reject] when the proposal is
    not accepted. *)
Definition step (self : STMetropolis) (w : world)
  : outcome (STMetropolis * world) :=
  lp ← logp (heap w) (stochastic self);
  '(self, w) ← propose self w;
  lp_p ← logp (heap w) (stochastic self);
  '(u, r) ← random (np_gen w);
  let w := mkWorld (heap w) (gen w) r in
  if log_gt u (lp_p - lp) then reject self w
  else Ok (self, w).

(** Modelled from the spec: the sampler runs [iter] iterations in a row
    ([MCMC.sample], not in models.py). *)
Fixpoint sample (iter : nat) (self : STMetropolis) (w : world)
  : outcome (STMetropolis * world) :=
  match iter with
  | 0 => Ok (self, w)
  | S n => '(self, w) ← step self w; sample n self w
  end.

(** ** What the claims speak of: undirected graphs, trees, distances *)

Definition adjacent (g : Adj) (x y : node) : Prop := has_edge g x y = true.

(** The adjacency of an [nx.Graph] is kept symmetric by its methods. *)
Definition undirected (g : Adj) : Prop :=
  ∀ x y, adjacent g x y → adjacent g y x.

Definition connected (g : Adj) : Prop :=
  ∀ x y, x ∈ dom g → y ∈ dom g → rtc (adjacent g) x y.

Inductive walk (R : relation node) : list node → Prop :=
  | walk_one x : walk R [x]
  | walk_cons x y l : R x y → walk R (y :: l) → walk R (x :: y :: l).

(** A cycle: distinct nodes [c], each adjacent to the next and the last
    to the first; one node with a self-loop, or at least three nodes. *)
Definition simple_cycle (g : Adj) (c : list node) : Prop :=
  NoDup c ∧ length c ≠ 2 ∧
  ∃ x, head c = Some x ∧ walk (adjacent g) (c ++ [x]).

Definition acyclic (g : Adj) : Prop := ∀ c, ¬ simple_cycle g c.

(** Exactly |nodes| - 1 edges, connected, acyclic. *)
Definition is_tree (g : Adj) : Prop :=
  Z.of_nat (number_of_edges g) = (Z.of_nat (size g) - 1)%Z ∧
  connected g ∧ acyclic g.

(** The value of the stochastic is a well-formed graph and a tree. *)
Definition tree_state (self : STMetropolis) (w : world) : Prop :=
  ∃ t, heap w !! value (stochastic self) = Some t ∧
       undirected (adj t) ∧ is_tree (adj t).

(** [walk_len g s x n]: a walk of [n] edges leads from [s] to [x]. *)
Inductive walk_len (g : Adj) (s : node) : node → nat → Prop :=
  | walk_len_O : walk_len g s s 0
  | walk_len_S y x n :
      walk_len g s y n → adjacent g y x → walk_len g s x (S n).

(** [n] is the shortest-path length from [s] to [x]. *)
Definition is_dist (g : Adj) (s x : node) (n : nat) : Prop :=
  walk_len g s x n ∧ ∀ m, m < n → ¬ walk_len g s x m.

(** The same edge, as an unordered pair. *)
Definition same_edge (e e' : node * node) : Prop :=
  e = e' ∨ e = (e'.2, e'.1).

(** ** Notions used in the proofs *)

(** A relation without, and with, the edge between [a] and [b]. *)
Definition minus (R : relation node) (a b : node) : relation node :=
  λ x y, R x y ∧ ¬ ((x = a ∧ y = b) ∨ (x = b ∧ y = a)).
Definition plus (R : relation node) (a b : node) : relation node :=
  λ x y, R x y ∨ (x = a ∧ y = b) ∨ (x = b ∧ y = a).

(** Every edge is a bridge: without it, its ends are not connected. *)
Definition forest (R : relation node) : Prop :=
  ∀ x y, R x y → ¬ rtc (minus R x y) x y.

(** The degree of [n] with neighbours [nb], as [degree] counts it. *)
Definition deg1 (n : node) (nb : gmap node attr) : nat :=
  size nb + (if decide (is_Some (nb !! n)) then 1 else 0).

Definition degsum (g : Adj) : nat := sum_list (values (degree g)).

(** In the search from [s]: [p] is a walk without repeated nodes from
    [s] to [x], over nodes that have an entry in [paths]. *)
Definition good (g : Adj) (s : node) (paths : gmap node (list node))
    (p : list node) (x : node) : Prop :=
  head p = Some s ∧ last p = Some x ∧ walk (adjacent g) p ∧ NoDup p ∧
  ∀ y, y ∈ p → is_Some (paths !! y).

Definition path_inv (g : Adj) (s : node) (paths : gmap node (list node))
  : Prop :=
  ∀ w p, paths !! w = Some p → good g s paths p w.

(** The state of [length_loop] at the head of the loop. *)
Definition length_inv (g : Adj) (s : node) (level : nat)
    (seen : gmap node nat) (nxt : gset node) : Prop :=
  (∀ x m, seen !! x = Some m → m < level ∧ is_dist g s x m) ∧
  (∀ x, x ∈ nxt → walk_len g s x level) ∧
  (∀ x m, m < level → walk_len g s x m → is_Some (seen !! x)) ∧
  (∀ x, walk_len g s x level → is_Some (seen !! x) ∨ x ∈ nxt).

(** The draw [m] picks the edge [e] in the list [es]. *)
Definition selects (es : list (node * node)) (m : Z) (e : node * node) : Prop :=
  es !! scaled_index (unit_float m) (length es) = Some e.

(** The object that [propose] leaves behind. *)
Definition swapped (t : Graph) (u v : node) (p : list node)
    (a b : node) (g1 : Adj) : Graph :=
  set_adj (add_edge g1 u v) (set_old (a, b) (set_path p (set_new (u, v) t))).

End models.

(** ** Small inputs, with natural numbers as nodes *)

(** The cycle on three nodes, a tree with an edge too many. *)
Definition triangle : gmap nat (gmap nat attr) :=
  add_edge (add_edge (add_edge ∅ 0 1) 1 2) 2 0.

(** The tree that [minimum_spanning_tree] finds in [triangle]. *)
Definition star2 : gmap nat (gmap nat attr) :=
  add_edge (add_edge {[2 := ∅]} 2 1) 2 0.

(** A tree with a node of degree 3. *)
Definition star3 : gmap nat (gmap nat attr) :=
  add_edge (add_edge (add_edge {[0 := ∅]} 0 1) 0 2) 0 3.


(** The heap after [LDST(G, d)] on the triangle, and the step method on
    the stochastic that it returns. *)
Definition ldst_heap (d : Z) : gmap ref (Graph (node:=nat)) :=
  {[ 0 := new_graph triangle;
     1 := set_d d (set_base_graph 0
            (new_graph (minimum_spanning_tree triangle))) ]}.

Definition ldst_sampler (d : Z) : STMetropolis (node:=nat) :=
  mkSTMetropolis (mkStochastic 1 (λ h value, ldst 1 d h value 1)).

(** The same for [BDST(G, root, k)]. *)
Definition bdst_heap (root : nat) (k : Z) : gmap ref (Graph (node:=nat)) :=
  {[ 0 := new_graph triangle;
     1 := set_k k (set_root root (set_base_graph 0
            (new_graph (minimum_spanning_tree triangle)))) ]}.

Definition bdst_sampler (root : nat) (k : Z) : STMetropolis (node:=nat) :=
  mkSTMetropolis (mkStochastic 1 (λ h value, bdst h value root k 1)).

(** Draws of the random module for two calls of [propose]: an edge of
    the tree, the edge of the triangle that the tree leaves out, the
    second edge of the path; then two edges of the new tree, the edge it
    leaves out, the first edge of the path. *)
Definition draws : rng :=
  [0; two53 - 1; two53 - 1; two53 - 1; 0; two53 / 2; 0]%Z.

(** The heap of [LDST(G, 3)] with one more tree in it. *)
Definition two_trees : gmap ref (Graph (node:=nat)) :=
  <[2 := new_graph star3]> (ldst_heap 3).

(** * Further parts of the code *)

From Stdlib Require Import Qcanon Qpower.
Close Scope Qc_scope.

(** ** Notions for what the constructors and [propose] keep *)

Section spanning.
Context `{Countable node}.
Local Abbreviation Adj := (gmap node (gmap node attr)).

(** [T] has the nodes of [G] and only edges of [G]. *)
Definition spans (T G : Adj) : Prop :=
  dom T = dom G ∧ ∀ x y, adjacent T x y → adjacent G x y.

(** Two nodes joined by one of the edges of a list. *)
Definition linked (A : list (node * node * attr)) : relation node :=
  λ x y, ∃ d, (x, y, d) ∈ A ∨ (y, x, d) ∈ A.

(** Every edge of [K], in turn, joins two different nodes that the edges
    before it, those of [P] included, do not connect. *)
Fixpoint joins (P K : list (node * node * attr)) : Prop :=
  match K with
  | [] => True
  | e :: K' =>
      e.1.1 ≠ e.1.2 ∧ ¬ rtc (linked P) e.1.1 e.1.2 ∧ joins (P ++ [e]) K'
  end.

(** The representatives that the union-find structure gives the nodes. *)
Definition classes (U : list node) (uf : gmap node node) : gset node :=
  list_to_set (uf_find uf <$> U).

(** In Kruskal's loop two nodes have the same representative exactly
    when the edges taken so far connect them. *)
Definition uf_inv (U : list node) (uf : gmap node node)
    (P : list (node * node * attr)) : Prop :=
  (∀ x, x ∈ U → uf_find uf x ∈ U) ∧
  (∀ x y, x ∈ U → y ∈ U →
          uf_find uf x = uf_find uf y ↔ rtc (linked P) x y).

End spanning.

(** ** The depth of a tree *)

Section depth.
Context `{Countable node}.

(** [max(seq)] on a Python list of numbers. *)
Definition py_max (l : list nat) : outcome nat :=
  match l with
  | [] => Raise "ValueError"
  | n :: l' => Ok (foldl Nat.max n l')
  end.

(** The deterministic [max_depth] of [anneal_bdst], as a function of the
    heap, of the tree [T] and of the root.  The attribute [T.max_depth]
    that it also sets is read nowhere else and is left out. *)
Definition max_depth (h : gmap ref (Graph (node:=node))) (T : ref)
    (root : node) : outcome nat :=
  V ← deref h T;
  lengths ← shortest_path_length (adj V) root;
  py_max (values lengths).

End depth.

(** ** my_path_graph *)

Section path_graph.
Context `{Countable node}.
Local Abbreviation Adj := (gmap node (gmap node attr)).

(** [zip(nlist[:-1], nlist[1:])] *)
Definition pairs (nlist : list node) : list (node * node) :=
  zip (take (length nlist - 1) nlist) (drop 1 nlist).

(** [G.add_path(nodes)]: [add_edges_from] on the pairs of neighbours in
    the list; without attributes, each pair goes through the steps of
    [add_edge]. *)
Definition add_path (g : Adj) (nodes : list node) : Adj :=
  foldl (λ g e, add_edge g e.1 e.2) g (pairs nodes).

(** [my_path_graph(path)] *)
Definition my_path_graph (path : list node) : Adj := add_path ∅ path.

(** [x] and [y] are next to each other in the list [l], in this order. *)
Definition next_in (l : list node) (x y : node) : Prop :=
  ∃ i, l !! i = Some x ∧ l !! S i = Some y.

End path_graph.

(** ** The weights of my_grid_graph *)

Section weights.
Context `{Countable node}.
Local Abbreviation Adj := (gmap node (gmap node attr)).

(** [G[u][v]['weight'] = x].  The data dictionary of an edge is one
    object that is reached from both of its ends: the weight is seen
    from [v] as well, when [v] has the edge. *)
Definition set_weight (g : Adj) (u v : node) (x : Q) : outcome Adj :=
  nu ← nbrs_of g u;
  _ ← match nu !! v with Some dd => Ok dd | None => Raise "KeyError" end;
  let g1 := <[u := <[v := Some x]> nu]> g in
  match g1 !! v with
  | Some nv =>
      if decide (is_Some (nv !! u)) then Ok (<[v := <[u := Some x]> nv]> g1)
      else Ok g1
  | None => Ok g1
  end.

(** [for u,v in G.edges(): G[u][v]['weight'] = random.random()], the
    loop of [my_grid_graph], over the list of edges taken before it. *)
Fixpoint weight_loop (es : list (node * node)) (g : Adj) (r : rng)
  : outcome (Adj * rng) :=
  match es with
  | [] => Ok (g, r)
  | (u, v) :: rest =>
      '(x, r') ← random r;
      g' ← set_weight g u v x;
      weight_loop rest g' r'
  end.

Definition random_weights (g : Adj) (r : rng) : outcome (Adj * rng) :=
  weight_loop (edges g) g r.

(** The weight of the edge from [x] to [y], as [x] sees it. *)
Definition weight_at (g : Adj) (x y : node) : option attr :=
  (g !! x) ≫= (.!! y).

(** A weight that a draw of [random.random()] has set. *)
Definition unit_weight (a : option attr) : Prop :=
  ∃ q, a = Some (Some q) ∧ (0 <= q)%Q ∧ (q < 1)%Q.

End weights.

(** ** The dual lattice *)

(** A point of the dual lattice.  Its coordinates are Python floats,
    modelled as rationals: the rationals are the floats of the code
    where every operation is exact ([exact_dual] below), as it is on
    the integer labels of a grid ([lattice]); elsewhere the code rounds
    and the model does not follow it. *)
Definition point : Type := (Qc * Qc)%type.

Definition half : Qc := Q2Qc (1 # 2).

(** [dual_grid_edge(u, v)] *)
Definition dual_grid_edge (u v : point) : point * point :=
  let mx := (half * (u.1 + v.1))%Qc in
  let my := (half * (u.2 + v.2))%Qc in
  let dx := (half * (u.1 - v.1))%Qc in
  let dy := (half * (u.2 - v.2))%Qc in
  ((mx + dy, my + dx), (mx - dy, my - dx))%Qc.

(** A node of the grid, a pair of integers, as a point. *)
Definition coords (v : Z * Z) : point :=
  (Q2Qc (inject_Z v.1), Q2Qc (inject_Z v.2)).

(** The body of [for u in G[v]] in [dual_grid]. *)
Definition dual_visit (T : gmap (Z * Z) (gmap (Z * Z) attr)) (v : Z * Z)
    (D : gmap point (gmap point attr)) (u : Z * Z)
  : gmap point (gmap point attr) :=
  if has_edge T u v then D
  else
    let e := dual_grid_edge (coords u) (coords v) in
    add_edge D e.1 e.2.

(** The loop [for v in T.nodes()]. *)
Fixpoint dual_grid_loop (G T : gmap (Z * Z) (gmap (Z * Z) attr))
    (vs : list (Z * Z)) (D : gmap point (gmap point attr))
  : outcome (gmap point (gmap point attr)) :=
  match vs with
  | [] => Ok D
  | v :: rest =>
      nbrs ← nbrs_of G v;
      dual_grid_loop G T rest (foldl (dual_visit T v) D (keys nbrs))
  end.

(** [dual_grid(G, T)] *)
Definition dual_grid (G T : gmap (Z * Z) (gmap (Z * Z) attr))
  : outcome (gmap point (gmap point attr)) :=
  dual_grid_loop G T (keys T) ∅.

(** The dual edge of [u] and [v] joins [p] and [q]. *)
Definition dual_of (u v : Z * Z) (p q : point) : Prop :=
  dual_grid_edge (coords u) (coords v) = (p, q) ∨
  dual_grid_edge (coords u) (coords v) = (q, p).

(** *** Where the floats are exact *)

(** A rational that a Python float holds exactly: [m * 2^e] with a
    significand of 53 bits and an exponent in the range of binary64. *)
Definition double (q : Qc) : Prop :=
  ∃ m e : Z, (Z.abs m < 2 ^ 53)%Z ∧ (-1074 ≤ e ≤ 971)%Z ∧
             q = Q2Qc (inject_Z m * 2 ^ e).

(** Every sum, difference and product that [dual_grid_edge(u, v)] takes
    is a float: no operation rounds, and the rationals of
    [dual_grid_edge] are the numbers that the code computes. *)
Definition exact_dual (u v : point) : Prop :=
  let sx := (u.1 + v.1)%Qc in
  let sy := (u.2 + v.2)%Qc in
  let ex := (u.1 - v.1)%Qc in
  let ey := (u.2 - v.2)%Qc in
  let mx := (half * sx)%Qc in
  let my := (half * sy)%Qc in
  let dx := (half * ex)%Qc in
  let dy := (half * ey)%Qc in
  Forall double
    [sx; sy; ex; ey; mx; my; dx; dy;
     (mx + dy)%Qc; (my + dx)%Qc; (mx - dy)%Qc; (my - dx)%Qc].

(** A label of a grid, far inside the range of the floats. *)
Definition lattice (v : Z * Z) : Prop :=
  (Z.abs v.1 ≤ 2 ^ 48)%Z ∧ (Z.abs v.2 ≤ 2 ^ 48)%Z.

(** [z / 2^k] with [z] up to [B]. *)
Definition dyadic (k : nat) (B : Z) (q : Qc) : Prop :=
  ∃ z : Z, (Z.abs z ≤ B)%Z ∧ q = Q2Qc (inject_Z z * 2 ^ (- Z.of_nat k)).

(** ** maze.py *)

(** The three graphs that [random_maze(n)] hands to the drawing code:
    the spanning tree, the graph of the solution between two corners
    and the walls.  [G] is the grid that [my_grid_graph([n, n])]
    returned. *)
Definition random_maze (G : gmap (Z * Z) (gmap (Z * Z) attr)) (n : Z)
  : outcome (gmap (Z * Z) (gmap (Z * Z) attr) *
             gmap (Z * Z) (gmap (Z * Z) attr) *
             gmap point (gmap point attr)) :=
  let T := minimum_spanning_tree G in
  path ← shortest_path T (0, 0)%Z (n - 1, n - 1)%Z;
  let P := my_path_graph path in
  D ← dual_grid G T;
  Ok (T, P, D).

(** ** More small inputs *)

(** A grid of two by two nodes. *)
Definition grid2 : gmap (Z * Z) (gmap (Z * Z) attr) :=
  add_edge (add_edge (add_edge (add_edge ∅ (0, 0)%Z (1, 0)%Z)
                        (1, 0)%Z (1, 1)%Z) (1, 1)%Z (0, 1)%Z)
           (0, 1)%Z (0, 0)%Z.

(** An edge, and the same with a self-loop at one end. *)
Definition one_edge : gmap nat (gmap nat attr) := add_edge ∅ 0 1.

Definition looped : gmap nat (gmap nat attr) := add_edge one_edge 1 1.

(** A single node. *)
Definition one_node : gmap nat (gmap nat attr) := {[0 := ∅]}.

(** A heap with a base graph and a tree over it, as [LDST] leaves
    them. *)
Definition heap_of (base tree : gmap nat (gmap nat attr))
  : gmap ref (Graph (node:=nat)) :=
  {[ 0 := new_graph base; 1 := set_d 2 (set_base_graph 0 (new_graph tree)) ]}.

(** * Proofs *)

Section proofs.
Context `{Countable node}.
Local Abbreviation Adj := (gmap node (gmap node attr)).
Implicit Types g : Adj.
Implicit Types R : relation node.

(** ** Results *)

Lemma bind_Ok {A B} (m : outcome A) (f : A → outcome B) b :
  m ≫= f = Ok b → ∃ a, m = Ok a ∧ f a = Ok b.
Proof. destruct m; [eauto|done..]. Qed.

Lemma bind_ret {A B} (a : A) (f : A → outcome B) : Ok a ≫= f = f a.
Proof. done. Qed.

(** ** Removing and adding an edge of a relation *)

Lemma rtc_sym R x y : (∀ a b, R a b → R b a) → rtc R x y → rtc R y x.
Proof.
  intros HR. induction 1 as [|x z y Hxz _ IH]; [done|].
  eapply rtc_r; [exact IH|]. by apply HR.
Qed.

Lemma minus_sym R a b x y :
  (∀ a b, R a b → R b a) → minus R a b x y → minus R a b y x.
Proof. intros HR [H1 H2]. split; [by apply HR|]. naive_solver. Qed.

Lemma minus_sub R a b x y : minus R a b x y → R x y.
Proof. by intros [? _]. Qed.

Lemma rtc_plus_split R u v x y :
  rtc (plus R u v) x y →
  rtc R x y ∨ (rtc R x u ∧ rtc R v y) ∨ (rtc R x v ∧ rtc R u y).
Proof.
  induction 1 as [x|x z y Hxz _ IH]; [by left|].
  destruct Hxz as [Hxz|[[-> ->]|[-> ->]]].
  - destruct IH as [IH|[[IH1 IH2]|[IH1 IH2]]].
    + left. by eapply rtc_l.
    + right; left. split; [by eapply rtc_l|done].
    + right; right. split; [by eapply rtc_l|done].
  - destruct IH as [IH|[[IH1 IH2]|[IH1 IH2]]].
    + right; left. done.
    + right; left. done.
    + by left.
  - destruct IH as [IH|[[IH1 IH2]|[IH1 IH2]]].
    + right; right. done.
    + by left.
    + right; right. done.
Qed.

(** Swapping a tree edge [a b] that separates [u] from [v] for the edge
    [u v] keeps every edge a bridge. *)
Lemma swap_forest R a b u v :
  (∀ x y, R x y → R y x) →
  forest R → R a b → ¬ R u v →
  rtc (minus R a b) u a → rtc (minus R a b) b v →
  forest (plus (minus R a b) u v).
Proof.
  intros HR HF Hab Huv Hua Hbv.
  set (M := minus R a b).
  assert (HM : ∀ x y, M x y → M y x) by (intros ??; by apply minus_sym).
  assert (Hnuv : ¬ rtc M u v).
  { intros Huv'. apply (HF a b Hab).
    eapply rtc_trans; [by apply (rtc_sym M)|].
    eapply rtc_trans; [exact Huv'|]. by apply (rtc_sym M). }
  intros x y Hxy Hconn.
  assert (Hcases : ((x = u ∧ y = v) ∨ (x = v ∧ y = u)) ∨
                   (M x y ∧ ¬ ((x = u ∧ y = v) ∨ (x = v ∧ y = u)))).
  { destruct Hxy as [Hxy|Hxy]; [|by left].
    right. split; [done|].
    intros [[-> ->]|[-> ->]]; apply Huv.
    - by eapply minus_sub.
    - apply HR. by eapply minus_sub. }
  destruct Hcases as [Hnew|[HMxy Hne]].
  - (* the new edge: what is left is the tree without [a b] *)
    assert (Hsub : ∀ p q, minus (plus M u v) x y p q → M p q).
    { intros p q [[?|Hpq] Hn]; [done|]. exfalso. apply Hn.
      destruct Hnew as [[-> ->]|[-> ->]]; naive_solver. }
    assert (rtc M x y) by (eapply rtc_subrel; [exact Hsub|done]).
    destruct Hnew as [[-> ->]|[-> ->]]; [done|].
    apply Hnuv. by apply (rtc_sym M).
  - (* an old edge [x y] *)
    set (N := minus M x y).
    assert (Hsub : ∀ p q, minus (plus M u v) x y p q → plus N u v p q).
    { intros p q [[Hpq|Hpq] Hn]; [left; by split|by right]. }
    assert (HNM : ∀ p q, N p q → M p q) by (intros ??; apply minus_sub).
    assert (HNR : ∀ p q, N p q → minus R x y p q).
    { intros p q [[? _] ?]. by split. }
    apply (rtc_subrel _ _ _ _ Hsub) in Hconn.
    apply rtc_plus_split in Hconn as [Hc|[[Hc1 Hc2]|[Hc1 Hc2]]].
    + apply (HF x y); [by eapply minus_sub|].
      eapply rtc_subrel; [exact HNR|done].
    + apply Hnuv.
      eapply rtc_trans;
        [apply (rtc_sym M); [done|]; eapply rtc_subrel; [exact HNM|exact Hc1]|].
      eapply rtc_l; [exact HMxy|].
      apply (rtc_sym M); [done|]. eapply rtc_subrel; [exact HNM|exact Hc2].
    + apply Hnuv. apply (rtc_sym M); [done|].
      eapply rtc_trans;
        [apply (rtc_sym M); [done|]; eapply rtc_subrel; [exact HNM|exact Hc1]|].
      eapply rtc_l; [exact HMxy|].
      apply (rtc_sym M); [done|]. eapply rtc_subrel; [exact HNM|exact Hc2].
Qed.

(** ... and keeps connected what was connected. *)
Lemma swap_connected R a b u v x y :
  (∀ x y, R x y → R y x) →
    rtc (minus R a b) u a → rtc (minus R a b) b v →
  rtc R x y → rtc (plus (minus R a b) u v) x y.
Proof.
  intros HR Hua Hbv.
  set (M := minus R a b). set (P := plus M u v).
  assert (HMP : ∀ p q, M p q → P p q) by (intros ???; by left).
  assert (HP : ∀ p q, P p q → P q p).
  { intros p q [Hpq|Hpq]; [left; by apply minus_sym|right; naive_solver]. }
  assert (Hab : rtc P a b).
  { eapply rtc_trans;
      [apply (rtc_sym P); [done|]; eapply rtc_subrel; [exact HMP|exact Hua]|].
    eapply rtc_l; [right; left; done|].
    apply (rtc_sym P); [done|]. eapply rtc_subrel; [exact HMP|exact Hbv]. }
  induction 1 as [|x z y Hxz _ IH]; [done|].
  eapply rtc_trans; [|exact IH].
  destruct (decide (x = a)) as [->|Hxa].
  - destruct (decide (z = b)) as [->|Hzb]; [done|].
    apply rtc_once. left. split; [done|]. naive_solver.
  - destruct (decide (x = b)) as [->|Hxb].
    + destruct (decide (z = a)) as [->|Hza]; [by apply (rtc_sym P)|].
      apply rtc_once. left. split; [done|]. naive_solver.
    + apply rtc_once. left. split; [done|]. naive_solver.
Qed.

(** ** Walks *)

Lemma walk_nonempty R p : walk R p → p ≠ [].
Proof. by destruct 1. Qed.

Lemma walk_tail R x p : walk R (x :: p) → p ≠ [] → walk R p.
Proof. inversion 1; simplify_eq; done. Qed.

Lemma walk_subrel R R' p :
  (∀ x y, x ∈ p → y ∈ p → R x y → R' x y) → walk R p → walk R' p.
Proof.
  intros Hsub Hw. induction Hw as [x|x y l Hxy Hw IH]; [constructor|].
  constructor.
  - apply Hsub; [set_solver..|done].
  - apply IH. intros ?????. apply Hsub; [set_solver..|done].
Qed.

Lemma walk_app_l R l1 x l2 : walk R (l1 ++ x :: l2) → walk R (l1 ++ [x]).
Proof.
  revert x l2. induction l1 as [|y l1 IH]; intros x l2 Hw; [constructor|].
  simpl in *. destruct l1 as [|z l1]; simpl in *.
  - inversion Hw; simplify_eq. constructor; [done|constructor].
  - inversion Hw; simplify_eq. constructor; [done|]. by eapply (IH x l2).
Qed.

Lemma walk_app_r R l1 x l2 : walk R (l1 ++ x :: l2) → walk R (x :: l2).
Proof.
  induction l1 as [|y l1 IH]; [done|]. simpl. intros Hw. apply IH.
  apply (walk_tail _ _ _ Hw). by destruct l1.
Qed.

Lemma walk_rtc R x p y : walk R (x :: p) → last (x :: p) = Some y → rtc R x y.
Proof.
  revert x. induction p as [|z p IH]; intros x Hw Hl.
  - simpl in Hl. by simplify_eq.
  - inversion Hw; simplify_eq. eapply rtc_l; [done|]. apply IH; [done|].
    by rewrite last_cons_cons in Hl.
Qed.

Lemma walk_snoc R p x y :
  walk R p → last p = Some x → R x y → walk R (p ++ [y]).
Proof.
  induction 1 as [z|z z' l Hzz' Hw IH]; intros Hl Hxy.
  - simpl in Hl. simplify_eq. simpl. constructor; [done|constructor].
  - rewrite last_cons_cons in Hl. simpl. constructor; [done|]. by apply IH.
Qed.

(** On a walk without repeated nodes, the edge between positions [i] and
    [i + 1] separates what comes before from what comes after. *)
Lemma walk_edge_split R p i a b u v :
  walk R p → NoDup p →
  p !! i = Some a → p !! S i = Some b →
  head p = Some u → last p = Some v →
  R a b ∧ a ≠ b ∧ rtc (minus R a b) u a ∧ rtc (minus R a b) b v.
Proof.
  intros Hw Hnd Ha Hb Hu Hv.
  assert (Hp : p = take i p ++ a :: b :: drop (S (S i)) p).
  { rewrite <-(take_drop i p) at 1. f_equal.
    rewrite (drop_S _ a) by done. f_equal. by rewrite (drop_S _ b). }
  set (l1 := take i p) in *. set (l2 := drop (S (S i)) p) in *.
  clearbody l1 l2. subst p. clear Ha Hb.
  apply NoDup_app in Hnd as (Hnd1 & Hnd12 & Hnd2).
  apply NoDup_cons in Hnd2 as [Hab Hnd2].
  apply NoDup_cons in Hnd2 as [Hb2 Hnd2].
  assert (Hedge : R a b).
  { apply walk_app_r in Hw. by inversion Hw. }
  split; [done|]. split; [set_solver|]. split.
  - assert (Hw1 : walk (minus R a b) (l1 ++ [a])).
    { eapply walk_subrel; [|by eapply walk_app_l].
      intros x y Hx Hy Hxy. split; [done|].
      intros [[-> ->]|[-> ->]].
      - apply elem_of_app in Hy as [Hy|Hy]; [|set_solver].
        apply (Hnd12 _ Hy). set_solver.
      - apply elem_of_app in Hx as [Hx|Hx]; [|set_solver].
        apply (Hnd12 _ Hx). set_solver. }
    destruct l1 as [|z l1]; simpl in *; simplify_eq; [done|].
    eapply walk_rtc; [exact Hw1|].
    rewrite app_comm_cons. by rewrite last_snoc.
  - assert (Hw2 : walk (minus R a b) (b :: l2)).
    { eapply walk_subrel; [|apply (walk_app_r _ (l1 ++ [a]));
                              by rewrite <-app_assoc].
      intros x y Hx Hy Hxy. split; [done|].
      intros [[-> ->]|[-> ->]].
      - done.
      - done. }
    eapply walk_rtc; [exact Hw2|].
    rewrite <-Hv. by rewrite (last_app_cons l1), last_cons_cons.
Qed.

(** Reachability gives a walk without repeated nodes. *)
Lemma rtc_simple_walk R x y :
  rtc R x y →
  ∃ p, head p = Some x ∧ last p = Some y ∧ walk R p ∧ NoDup p.
Proof.
  induction 1 as [x|x z y Hxz _ (p & Hh & Hl & Hw & Hnd)].
  - exists [x]. repeat split; [constructor|]. apply NoDup_singleton.
  - destruct (decide (x ∈ p)) as [Hin|Hnin].
    + apply list_elem_of_split in Hin as (l1 & l2 & ->).
      exists (x :: l2). repeat split.
      * by rewrite last_app_cons in Hl.
      * by eapply walk_app_r.
      * by apply NoDup_app in Hnd as (_ & _ & ?).
    + destruct p as [|z' p]; [done|]. simpl in Hh. simplify_eq.
      exists (x :: z :: p). repeat split.
      * by rewrite last_cons_cons.
      * by constructor.
      * by apply NoDup_cons.
Qed.

(** ** Cycles and bridges *)

Lemma walk_snoc_inv (R : relation node) l x :
  walk R (l ++ [x]) → l ≠ [] → walk R l ∧ ∃ p, last l = Some p ∧ R p x.
Proof.
  induction l as [|y l IH]; [done|]. intros Hw _.
  destruct l as [|z l]; cbn [app] in *.
  - inversion Hw; simplify_eq. split; [constructor|]. eauto.
  - inversion Hw; simplify_eq. destruct IH as (Hw' & p & Hp & Hpx); [done..|].
    split; [by constructor|]. exists p. by rewrite last_cons_cons.
Qed.

(** A graph whose every edge is a bridge has no cycle ... *)
Lemma forest_acyclic g : undirected g → forest (adjacent g) → acyclic g.
Proof.
  intros Hsym HF c (Hnd & Hlen & x & Hh & Hw).
  destruct c as [|x' c]; [done|]. simpl in Hh. simplify_eq.
  destruct c as [|y c].
  { simpl in Hw. inversion Hw; simplify_eq. by apply (HF x x). }
  destruct c as [|z c]; [done|].
  simpl in Hw. inversion Hw as [|? ? ? Hxy Hw1]; simplify_eq.
  inversion Hw1 as [|? ? ? Hyz Hw2]; simplify_eq.
  apply NoDup_cons in Hnd as [Hx Hnd]. apply NoDup_cons in Hnd as [Hy Hnd].
  change (z :: c ++ [x]) with ((z :: c) ++ [x]) in Hw2.
  apply walk_snoc_inv in Hw2 as (Hw2 & p & Hp & Hpx); [|done].
  apply (HF x y Hxy).
  apply rtc_sym; [intros ??; by apply minus_sym|].
  eapply rtc_l with z.
  { split; [done|]. intros [[-> ->]|[_ ->]]; set_solver. }
  eapply rtc_r with p.
  - eapply walk_rtc; [|exact Hp].
    eapply walk_subrel; [|exact Hw2].
    intros a b Ha Hb Hab. split; [done|].
    intros [[-> ->]|[-> ->]]; set_solver.
  - assert (p ∈ z :: c) by (by eapply last_Some_elem_of).
    split; [done|]. intros [[-> ->]|[-> _]]; set_solver.
Qed.

(** ... and conversely. *)
Lemma acyclic_forest g : undirected g → acyclic g → forest (adjacent g).
Proof.
  intros Hsym Hac x y Hxy Hconn.
  apply rtc_simple_walk in Hconn as (p & Hh & Hl & Hw & Hnd).
  destruct p as [|x' p]; [done|]. simpl in Hh. simplify_eq.
  assert (Hw' : walk (adjacent g) (x :: p)).
  { eapply walk_subrel; [|exact Hw]. intros ?? _ _. apply minus_sub. }
  destruct p as [|z p].
  { simpl in Hl. simplify_eq. apply (Hac [y]). split; [apply NoDup_singleton|].
    split; [done|]. exists y. split; [done|]. simpl.
    constructor; [done|constructor]. }
  destruct p as [|z' p].
  { simpl in Hl. simplify_eq. inversion Hw as [|? ? ? [_ Hn] _]; simplify_eq.
    apply Hn. by left. }
  apply (Hac (x :: z :: z' :: p)). split; [done|]. split; [done|].
  exists x. split; [done|].
  eapply walk_snoc; [done|exact Hl|]. by apply Hsym.
Qed.

(** ** The graph methods *)

Lemma adjacent_lookup g x y :
  adjacent g x y ↔ ∃ nb, g !! x = Some nb ∧ is_Some (nb !! y).
Proof.
  unfold adjacent, has_edge. destruct (g !! x) as [nb|]; [|naive_solver].
  rewrite bool_decide_eq_true. naive_solver.
Qed.

Lemma adjacent_dom g x y : adjacent g x y → x ∈ dom g.
Proof.
  rewrite adjacent_lookup. intros (nb & Hx & _). apply elem_of_dom. eauto.
Qed.

Lemma add_node_lookup g n x :
  add_node g n !! x =
    if decide (x = n) then Some (default ∅ (g !! n)) else g !! x.
Proof.
  unfold add_node. destruct (g !! n) eqn:Hn; case_decide; simplify_map_eq; done.
Qed.

Lemma add_edge_attr_lookup g u v a x :
  add_edge_attr g u v a !! x =
    let dd := match a with
              | Some w => Some w
              | None => default None ((g !! u) ≫= (.!! v))
              end in
    if decide (x = v) then
      Some (<[u := dd]> (if decide (u = v) then <[v := dd]> (default ∅ (g !! v))
                         else default ∅ (g !! v)))
    else if decide (x = u) then Some (<[v := dd]> (default ∅ (g !! u)))
    else g !! x.
Proof.
  unfold add_edge_attr. cbn zeta.
  assert (Hu : add_node (add_node g u) v !! u = Some (default ∅ (g !! u))).
  { rewrite !add_node_lookup. repeat case_decide; simplify_eq; done. }
  rewrite Hu. cbn [default].
  assert (Hdd : default None ((Some (default ∅ (g !! u)) : option (gmap node attr)) ≫= (.!! v))
               = default None ((g !! u) ≫= (.!! v))).
  { destruct (g !! u); simpl; [done|]. by rewrite lookup_empty. }
  cbn [mbind option_bind] in Hdd |- *. rewrite Hdd.
  destruct (decide (x = v)) as [->|Hxv].
  - rewrite lookup_insert_eq. f_equal. f_equal.
    destruct (decide (u = v)) as [->|Huv].
    + by rewrite lookup_insert_eq.
    + rewrite lookup_insert_ne by done. rewrite !add_node_lookup.
      rewrite decide_True by done. cbn [default].
      rewrite decide_False by done. done.
  - rewrite lookup_insert_ne by done.
    destruct (decide (x = u)) as [->|Hxu].
    + by rewrite lookup_insert_eq.
    + rewrite lookup_insert_ne by done. rewrite !add_node_lookup.
      by rewrite !decide_False by done.
Qed.

Lemma adjacent_add_edge g u v a x y :
  adjacent (add_edge_attr g u v a) x y ↔
  adjacent g x y ∨ (x = u ∧ y = v) ∨ (x = v ∧ y = u).
Proof.
  rewrite !adjacent_lookup, add_edge_attr_lookup. cbn zeta.
  set (dd := match a with Some w => Some w | None => _ end). clearbody dd.
  repeat case_decide; simplify_eq.
  - split.
    + intros (nb & ? & Hy); simplify_eq.
      destruct (decide (y = v)) as [->|]; [naive_solver|].
      rewrite !lookup_insert_ne in Hy by done.
      left. destruct (g !! v); [eauto|]. simpl in Hy.
      rewrite lookup_empty in Hy. by destruct Hy.
    + intros [(nb & Hv & Hy)|[[_ ->]|[_ ->]]].
      * eexists; split; [done|]. rewrite Hv. simpl.
        destruct (decide (y = v)) as [->|]; [by rewrite lookup_insert_eq|].
        by rewrite !lookup_insert_ne.
      * eexists; split; [done|]. by rewrite lookup_insert_eq.
      * eexists; split; [done|]. by rewrite lookup_insert_eq.
  - split.
    + intros (nb & ? & Hy); simplify_eq.
      destruct (decide (y = u)) as [->|]; [naive_solver|].
      rewrite !lookup_insert_ne in Hy by done.
      left. destruct (g !! v); [eauto|]. simpl in Hy.
      rewrite lookup_empty in Hy. by destruct Hy.
    + intros [(nb & Hv & Hy)|[[? ->]|[_ ->]]]; [|done|].
      * eexists; split; [done|]. rewrite Hv. simpl.
        destruct (decide (y = u)) as [->|]; [by rewrite lookup_insert_eq|].
        by rewrite !lookup_insert_ne.
      * eexists; split; [done|]. by rewrite lookup_insert_eq.
  - split.
    + intros (nb & ? & Hy); simplify_eq.
      destruct (decide (y = v)) as [->|]; [naive_solver|].
      rewrite !lookup_insert_ne in Hy by done.
      left. destruct (g !! u); [eauto|]. simpl in Hy.
      rewrite lookup_empty in Hy. by destruct Hy.
    + intros [(nb & Hv & Hy)|[[_ ->]|[? ->]]]; [| |done].
      * eexists; split; [done|]. rewrite Hv. simpl.
        destruct (decide (y = v)) as [->|]; [by rewrite lookup_insert_eq|].
        by rewrite !lookup_insert_ne.
      * eexists; split; [done|]. by rewrite lookup_insert_eq.
  - naive_solver.
Qed.

Lemma dom_add_edge g u v a :
  dom (add_edge_attr g u v a) = {[u; v]} ∪ dom g.
Proof.
  apply set_eq. intros x. rewrite elem_of_dom, add_edge_attr_lookup. cbn zeta.
  rewrite elem_of_union, elem_of_dom.
  repeat case_decide; simplify_eq; set_solver.
Qed.

Lemma undirected_add_edge g u v a :
  undirected g → undirected (add_edge_attr g u v a).
Proof.
  intros Hg x y. rewrite !adjacent_add_edge.
  intros [?|?]; [left; by apply Hg|naive_solver].
Qed.

Lemma remove_edge_inv g u v g' :
  remove_edge g u v = Ok g' →
  ∃ nu, g !! u = Some nu ∧ is_Some (nu !! v) ∧
    if decide (u = v) then g' = <[u := delete v nu]> g
    else ∃ nv, g !! v = Some nv ∧ is_Some (nv !! u) ∧
               g' = <[v := delete u nv]> (<[u := delete v nu]> g).
Proof.
  unfold remove_edge, delitem. cbn zeta.
  destruct (g !! u) as [nu|] eqn:Hu; [|done]. cbn.
  destruct (nu !! v) as [x|] eqn:Hv; [|done]. cbn.
  intros Hr. exists nu. split; [done|]. split; [eauto|].
  destruct (decide (u = v)) as [->|Huv]; [by simplify_eq|].
  rewrite lookup_insert_ne in Hr by done.
  destruct (g !! v) as [nv|] eqn:Hgv; [|done]. cbn in Hr.
  destruct (nv !! u) as [y|] eqn:Hvu; [|done]. cbn in Hr.
  exists nv. simplify_eq. eauto.
Qed.

Lemma remove_edge_total g u v :
  undirected g → adjacent g u v → ∃ g', remove_edge g u v = Ok g'.
Proof.
  intros Hg Huv. pose proof (Hg _ _ Huv) as Hvu.
  apply adjacent_lookup in Huv as (nu & Hu & [x Hx]).
  apply adjacent_lookup in Hvu as (nv & Hv & [y Hy]).
  unfold remove_edge, delitem. cbn zeta. rewrite Hu. cbn. rewrite Hx. cbn.
  destruct (decide (u = v)) as [->|Hne]; [eauto|].
  rewrite lookup_insert_ne by done. rewrite Hv. cbn. rewrite Hy. cbn. eauto.
Qed.

Lemma adjacent_remove_edge g u v g' x y :
  remove_edge g u v = Ok g' →
  adjacent g' x y ↔
  adjacent g x y ∧ ¬ ((x = u ∧ y = v) ∨ (x = v ∧ y = u)).
Proof.
  intros (nu & Hu & Hnu & Hg')%remove_edge_inv. rewrite !adjacent_lookup.
  destruct (decide (u = v)) as [->|Huv].
  - subst g'. destruct (decide (x = v)) as [->|Hxv].
    + rewrite lookup_insert_eq, Hu. split.
      * intros (nb & ? & Hy); simplify_eq.
        destruct (decide (y = v)) as [->|Hyv].
        { rewrite lookup_delete_eq in Hy. by destruct Hy. }
        rewrite lookup_delete_ne in Hy by done. split; [eauto|naive_solver].
      * intros [(nb & ? & Hy) Hn]; simplify_eq. eexists; split; [done|].
        rewrite lookup_delete_ne; [done|]. naive_solver.
    + rewrite lookup_insert_ne by done. naive_solver.
  - destruct Hg' as (nv & Hv & Hnv & ->).
    destruct (decide (x = v)) as [->|Hxv].
    + rewrite lookup_insert_eq, Hv. split.
      * intros (nb & ? & Hy); simplify_eq.
        destruct (decide (y = u)) as [->|Hyu].
        { rewrite lookup_delete_eq in Hy. by destruct Hy. }
        rewrite lookup_delete_ne in Hy by done. split; [eauto|naive_solver].
      * intros [(nb & ? & Hy) Hn]; simplify_eq. eexists; split; [done|].
        rewrite lookup_delete_ne; [done|]. naive_solver.
    + rewrite lookup_insert_ne by done.
      destruct (decide (x = u)) as [->|Hxu].
      * rewrite lookup_insert_eq, Hu. split.
        -- intros (nb & ? & Hy); simplify_eq.
           destruct (decide (y = v)) as [->|Hyv].
           { rewrite lookup_delete_eq in Hy. by destruct Hy. }
           rewrite lookup_delete_ne in Hy by done. split; [eauto|naive_solver].
        -- intros [(nb & ? & Hy) Hn]; simplify_eq. eexists; split; [done|].
           rewrite lookup_delete_ne; [done|]. naive_solver.
      * rewrite lookup_insert_ne by done. naive_solver.
Qed.

Lemma remove_edge_adjacent g u v g' :
  remove_edge g u v = Ok g' → adjacent g u v.
Proof.
  intros (nu & Hu & Hnu & _)%remove_edge_inv. apply adjacent_lookup. eauto.
Qed.

Lemma dom_remove_edge g u v g' : remove_edge g u v = Ok g' → dom g' = dom g.
Proof.
  intros (nu & Hu & Hnu & Hg')%remove_edge_inv.
  assert (u ∈ dom g) by (apply elem_of_dom; eauto).
  destruct (decide (u = v)) as [->|Huv].
  - subst g'. rewrite dom_insert_L. set_solver.
  - destruct Hg' as (nv & Hv & Hnv & ->).
    assert (v ∈ dom g) by (apply elem_of_dom; eauto).
    rewrite !dom_insert_L. set_solver.
Qed.

Lemma undirected_remove_edge g u v g' :
  remove_edge g u v = Ok g' → undirected g → undirected g'.
Proof.
  intros Hr Hg x y. rewrite !(adjacent_remove_edge _ _ _ _ _ _ Hr).
  intros [Hxy Hn]. split; [by apply Hg|]. naive_solver.
Qed.

(** *** Degrees and the number of edges *)

Lemma sum_values_insert (m : gmap node nat) k a b :
  m !! k = Some a →
  sum_list (values (<[k := b]> m)) + a = sum_list (values m) + b.
Proof.
  intros Hk. unfold values.
  rewrite <-(insert_delete_eq m k b).
  rewrite (map_to_list_insert (delete k m) k b) by apply lookup_delete_eq.
  rewrite <-(map_to_list_delete m k a Hk). simpl. lia.
Qed.

Lemma degsum_insert g k nb nb' :
  g !! k = Some nb →
  degsum (<[k := nb']> g) + deg1 k nb = degsum g + deg1 k nb'.
Proof.
  intros Hk. unfold degsum, degree.
  rewrite (map_imap_insert_Some _ _ _ _ (deg1 k nb')) by done.
  apply sum_values_insert. rewrite map_lookup_imap, Hk. done.
Qed.

Lemma deg1_delete (k v : node) nb :
  k ≠ v → is_Some (nb !! v) → deg1 k (delete v nb) + 1 = deg1 k nb.
Proof.
  intros Hkv [x Hx]. unfold deg1. rewrite lookup_delete_ne by done.
  rewrite map_size_delete_Some by eauto.
  assert (size nb ≠ 0).
  { intros Hz%map_size_empty_inv. subst. by rewrite lookup_empty in Hx. }
  case_decide; lia.
Qed.

Lemma deg1_insert (k v : node) (a : attr) nb :
  k ≠ v → nb !! v = None → deg1 k (<[v := a]> nb) = deg1 k nb + 1.
Proof.
  intros Hkv Hv. unfold deg1. rewrite lookup_insert_ne by done.
  rewrite map_size_insert_None by done. case_decide; lia.
Qed.

Lemma degsum_remove_edge g u v g' :
  u ≠ v → remove_edge g u v = Ok g' → degsum g' + 2 = degsum g.
Proof.
  intros Huv (nu & Hu & Hnu & Hg')%remove_edge_inv.
  rewrite decide_False in Hg' by done. destruct Hg' as (nv & Hv & Hnv & ->).
  pose proof (degsum_insert g u nu (delete v nu) Hu) as H1.
  pose proof (degsum_insert (<[u := delete v nu]> g) v nv (delete u nv)) as H2.
  rewrite lookup_insert_ne in H2 by done. specialize (H2 Hv).
  pose proof (deg1_delete u v nu Huv Hnu).
  pose proof (deg1_delete v u nv (not_eq_sym Huv) Hnv). lia.
Qed.

Lemma add_edge_insert g u v nu nv :
  u ≠ v → g !! u = Some nu → g !! v = Some nv →
  add_edge g u v =
    <[v := <[u := default None (nu !! v)]> nv]>
      (<[u := <[v := default None (nu !! v)]> nu]> g).
Proof.
  intros Huv Hu Hv. apply map_eq. intros x. unfold add_edge.
  rewrite add_edge_attr_lookup. cbn zeta. rewrite Hu, Hv. cbn.
  rewrite (decide_False (P := u = v)) by done.
  destruct (decide (x = v)) as [->|Hxv]; [by rewrite lookup_insert_eq|].
  rewrite lookup_insert_ne by done.
  destruct (decide (x = u)) as [->|Hxu]; [by rewrite lookup_insert_eq|].
  by rewrite lookup_insert_ne.
Qed.

Lemma degsum_add_edge g u v :
  undirected g → u ≠ v → u ∈ dom g → v ∈ dom g → ¬ adjacent g u v →
  degsum (add_edge g u v) = degsum g + 2.
Proof.
  intros Hg Huv [nu Hu]%elem_of_dom [nv Hv]%elem_of_dom Hn.
  assert (Hnuv : nu !! v = None).
  { destruct (nu !! v) eqn:E; [|done]. exfalso. apply Hn.
    apply adjacent_lookup. eauto. }
  assert (Hnvu : nv !! u = None).
  { destruct (nv !! u) eqn:E; [|done]. exfalso. apply Hn, Hg.
    apply adjacent_lookup. eauto. }
  rewrite (add_edge_insert g u v nu nv) by done.
  pose proof (degsum_insert g u nu (<[v := default None (nu !! v)]> nu) Hu) as H1.
  pose proof (degsum_insert (<[u := <[v := default None (nu !! v)]> nu]> g)
                v nv (<[u := default None (nu !! v)]> nv)) as H2.
  rewrite lookup_insert_ne in H2 by done. specialize (H2 Hv).
  match type of H1 with _ = _ + ?t =>
    assert (t = deg1 u nu + 1) as E1 by (by apply deg1_insert) end.
  match type of H2 with _ = _ + ?t =>
    assert (t = deg1 v nv + 1) as E2 by (by apply deg1_insert) end.
  lia.
Qed.

Lemma number_of_edges_swap g a b g' u v :
  undirected g → a ≠ b → u ≠ v →
  remove_edge g a b = Ok g' →
  u ∈ dom g → v ∈ dom g → ¬ adjacent g u v →
  number_of_edges (add_edge g' u v) = number_of_edges g.
Proof.
  intros Hg Hab Huv Hr Hu Hv Hn.
  pose proof (degsum_remove_edge _ _ _ _ Hab Hr) as H1.
  pose proof (dom_remove_edge _ _ _ _ Hr) as Hd.
  pose proof (degsum_add_edge g' u v) as H2.
  rewrite Hd in H2. specialize (H2 (undirected_remove_edge _ _ _ _ Hr Hg) Huv Hu Hv).
  rewrite (adjacent_remove_edge _ _ _ _ _ _ Hr) in H2.
  unfold number_of_edges. fold (degsum (add_edge g' u v)). fold (degsum g).
  rewrite H2 by tauto. f_equal. lia.
Qed.

(** ** The breadth-first searches *)

Section bfs_paths.

Lemma elem_of_keys {V} (m : gmap node V) x : x ∈ keys m ↔ is_Some (m !! x).
Proof.
  unfold keys. rewrite list_elem_of_fmap. split.
  - intros ([k v] & -> & Hkv%elem_of_map_to_list). eauto.
  - intros [v Hv]. exists (x, v). split; [done|]. by apply elem_of_map_to_list.
Qed.

Lemma nbrs_of_adjacent g v nbrs w :
  nbrs_of g v = Ok nbrs → w ∈ keys nbrs → adjacent g v w.
Proof.
  unfold nbrs_of. destruct (g !! v) eqn:E; [|done]. intros ? Hw; simplify_eq.
  apply adjacent_lookup. exists nbrs. split; [done|]. by apply elem_of_keys.
Qed.

Variable g : Adj.
Variable s : node.

Lemma good_mono paths paths' p x :
  (∀ y, is_Some (paths !! y) → is_Some (paths' !! y)) →
  good g s paths p x → good g s paths' p x.
Proof. intros Hsub (?&?&?&?&?). repeat split; auto. Qed.

Lemma visit_inv pv v st w :
  path_inv g s st.1 → good g s st.1 pv v → adjacent g v w →
  path_inv g s (visit pv st w).1 ∧ good g s (visit pv st w).1 pv v.
Proof.
  intros Hinv Hpv Hvw. unfold visit. case_decide as Hw; [done|]. cbn [fst].
  assert (Hsub : ∀ y, is_Some (st.1 !! y) →
                      is_Some (<[w := pv ++ [w]]> st.1 !! y)).
  { intros y Hy. destruct (decide (y = w)) as [->|]; [done|].
    by rewrite lookup_insert_ne. }
  split; [|by eapply good_mono].
  intros x p Hx. destruct (decide (x = w)) as [->|Hxw].
  - rewrite lookup_insert_eq in Hx. simplify_eq.
    destruct Hpv as (Hh & Hl & Hwalk & Hnd & Hin). repeat split.
    + destruct pv; [done|]. done.
    + by rewrite last_snoc.
    + by eapply walk_snoc.
    + apply NoDup_app. split; [done|]. split; [|apply NoDup_singleton].
      intros y Hy ->%list_elem_of_singleton. apply Hw. by apply Hin.
    + intros y [Hy| ->%list_elem_of_singleton]%elem_of_app.
      * apply Hsub. by apply Hin.
      * by rewrite lookup_insert_eq.
  - rewrite lookup_insert_ne in Hx by done.
    eapply good_mono; [exact Hsub|]. by apply Hinv.
Qed.

Lemma foldl_visit_inv pv v ws st :
  path_inv g s st.1 → good g s st.1 pv v → (∀ w, w ∈ ws → adjacent g v w) →
  path_inv g s (foldl (visit pv) st ws).1.
Proof.
  revert st. induction ws as [|w ws IH]; intros st Hinv Hpv Hws; [done|].
  simpl. destruct (visit_inv pv v st w) as [Hinv' Hpv']; [done|done|set_solver|].
  apply IH; [done|done|set_solver].
Qed.

Lemma path_level_inv lvl paths next paths' next' :
  path_level g lvl paths next = Ok (paths', next') →
  path_inv g s paths → path_inv g s paths'.
Proof.
  revert paths next. induction lvl as [|v lvl IH]; intros paths next.
  - simpl. by intros [= -> ->].
  - simpl. destruct (nbrs_of g v) as [nbrs| |] eqn:Hn; [|done..]. cbn.
    destruct (paths !! v) as [pv|] eqn:Hpv; [|done]. cbn.
    intros Hr Hinv. apply IH in Hr; [done|].
    eapply foldl_visit_inv; [done|by apply Hinv|].
    intros w Hw. by eapply nbrs_of_adjacent.
Qed.

Lemma path_loop_inv fuel paths next paths' :
  path_loop fuel g paths next = Ok paths' →
  path_inv g s paths → path_inv g s paths'.
Proof.
  revert paths next. induction fuel as [|fuel IH]; intros paths next; simpl.
  - case_decide; [|done]. by intros [= ->].
  - case_decide; [by intros [= ->]|].
    destruct (path_level g (elements next) paths ∅) as [[p1 n1]| |] eqn:Hl;
      [|done..].
    cbn. intros Hr Hinv. eapply IH; [exact Hr|]. by eapply path_level_inv.
Qed.

End bfs_paths.


(** What [shortest_path] returns is a walk of the graph from the source
    to the target on which no node comes twice. *)
Lemma shortest_path_walk (g : Adj) s t p :
  shortest_path g s t = Ok p →
  head p = Some s ∧ last p = Some t ∧ walk (adjacent g) p ∧ NoDup p.
Proof.
  unfold shortest_path. case_decide as Hst.
  - intros [= <-]. subst. repeat split; [constructor|apply NoDup_singleton].
  - unfold single_source_shortest_path.
    destruct (path_loop _ _ _ _) as [paths| |] eqn:Hl; [|done..]. cbn.
    destruct (paths !! t) as [p'|] eqn:Ht; [|done]. intros [= ->].
    apply path_loop_inv with (s := s) in Hl.
    + destruct (Hl t p Ht) as (?&?&?&?&?). done.
    + intros w q Hw. apply lookup_singleton_Some in Hw as [<- <-].
      repeat split; [constructor|apply NoDup_singleton|].
      intros y ->%list_elem_of_singleton. by rewrite lookup_singleton_eq.
Qed.


Section bfs_lengths.

Variable g : Adj.
Variable s : node.
Hypothesis g_undirected : undirected g.
Hypothesis s_in_g : s ∈ dom g.

Lemma walk_len_dom x n : walk_len g s x n → x ∈ dom g.
Proof.
  destruct 1 as [|y x n _ Hyx]; [done|].
  eapply adjacent_dom. by apply g_undirected.
Qed.

Lemma is_dist_unique x m n : is_dist g s x m → is_dist g s x n → m = n.
Proof.
  intros [Hm Hm'] [Hn Hn'].
  destruct (decide (m < n)) as [Hlt|]; [by destruct (Hn' m)|].
  destruct (decide (n < m)) as [Hlt|]; [by destruct (Hm' n)|]. lia.
Qed.

Lemma length_level_spec level lvl seen nxt :
  (∀ v, v ∈ lvl → v ∈ dom g) →
  ∃ seen' nxt',
    length_level g lvl level seen nxt = Ok (seen', nxt') ∧
    (∀ x, seen' !! x =
          if decide (is_Some (seen !! x)) then seen !! x
          else if decide (x ∈ lvl) then Some level else None) ∧
    (∀ y, y ∈ nxt' ↔
          y ∈ nxt ∨ ∃ v, v ∈ lvl ∧ seen !! v = None ∧ adjacent g v y).
Proof.
  revert seen nxt. induction lvl as [|v lvl IH]; intros seen nxt Hdom.
  - exists seen, nxt. split; [done|]. split.
    + intros x. case_decide as Hx; [done|].
      rewrite decide_False by set_solver.
      destruct (seen !! x) eqn:E; [|done]. destruct Hx; eauto.
    + set_solver.
  - simpl. destruct (decide (is_Some (seen !! v))) as [Hv|Hv].
    + destruct (IH seen nxt) as (seen' & nxt' & Hr & Hs & Hn); [set_solver|].
      exists seen', nxt'. split; [done|]. split.
      * intros x. rewrite Hs. case_decide; [done|].
        destruct (decide (x = v)) as [->|]; [done|].
        repeat case_decide; set_solver.
      * intros y. rewrite Hn. split; [set_solver|].
        intros [?|(v' & Hv' & Hs' & ?)]; [by left|]. right. exists v'.
        split; [|done]. apply elem_of_cons in Hv' as [->|]; [|done].
        rewrite Hs' in Hv. by destruct Hv.
    + assert (Hvd : v ∈ dom g) by set_solver.
      apply elem_of_dom in Hvd as [nbrs Hnb]. unfold nbrs_of. rewrite Hnb. cbn.
      destruct (IH (<[v := level]> seen) (nxt ∪ dom nbrs))
        as (seen' & nxt' & Hr & Hs & Hn); [set_solver|].
      exists seen', nxt'. split; [done|].
      assert (Hsv : seen !! v = None).
      { destruct (seen !! v) eqn:E; [|done]. destruct Hv; eauto. }
      assert (Hadj : ∀ y, y ∈ dom nbrs ↔ adjacent g v y).
      { intros y. rewrite adjacent_lookup, elem_of_dom. naive_solver. }
      split.
      * intros x. rewrite Hs. destruct (decide (x = v)) as [->|Hxv].
        -- rewrite lookup_insert_eq. rewrite decide_True by eauto.
           rewrite decide_False by done. rewrite decide_True by set_solver. done.
        -- rewrite lookup_insert_ne by done. case_decide; [done|].
           repeat case_decide; set_solver.
      * intros y. rewrite Hn, elem_of_union, Hadj. split.
        -- intros [[?|?]|(v' & Hv' & Hs' & ?)]; [by left| |].
           ++ right. exists v. set_solver.
           ++ right. exists v'. split; [set_solver|].
              destruct (decide (v' = v)) as [->|]; [done|].
              by rewrite lookup_insert_ne in Hs'.
        -- intros [?|(v' & Hv' & Hs' & ?)]; [by left; left|].
           destruct (decide (v' = v)) as [->|Hne]; [by left; right|].
           right. exists v'. rewrite lookup_insert_ne by done. set_solver.
Qed.

Lemma length_inv_closed level seen x m :
  length_inv g s level seen ∅ → walk_len g s x m → is_Some (seen !! x).
Proof.
  intros (HA & HB & HC1 & HC2).
  assert (Hstep : ∀ x m, m ≤ level → walk_len g s x m → is_Some (seen !! x)).
  { intros y n Hn Hw. destruct (decide (n < level)); [by eapply HC1|].
    assert (n = level) as -> by lia. destruct (HC2 y Hw); set_solver. }
  induction 1 as [|y x n Hy IH Hyx]; [apply (Hstep s 0); [lia|constructor]|].
  destruct IH as [m' Hm']. destruct (HA _ _ Hm') as [Hlt [Hwm' _]].
  apply (Hstep x (S m')); [lia|]. by econstructor.
Qed.

Lemma seen_size_le level seen nxt :
  length_inv g s level seen nxt → size seen ≤ size g.
Proof.
  intros (HA & _). rewrite <-!size_dom. apply subseteq_size.
  intros x [m Hm]%elem_of_dom. destruct (HA _ _ Hm) as [_ [Hw _]].
  by eapply walk_len_dom.
Qed.

Lemma length_loop_spec fuel level seen nxt :
  length_inv g s level seen nxt →
  nxt = ∅ ∨ size g < fuel + size seen →
  ∃ final, length_loop fuel g level seen nxt = Ok final ∧
           ∀ x m, final !! x = Some m ↔ is_dist g s x m.
Proof.
  revert level seen nxt.
  assert (Hdone : ∀ level seen, length_inv g s level seen ∅ →
            ∀ x m, seen !! x = Some m ↔ is_dist g s x m).
  { intros level seen Hinv x m. split; [intros Hx; by apply Hinv in Hx as [_ ?]|].
    intros Hd. destruct (length_inv_closed level seen x m Hinv) as [m' Hm'];
      [apply Hd|].
    rewrite Hm'. f_equal. eapply is_dist_unique; [|done].
    by apply Hinv in Hm' as [_ ?]. }
  induction fuel as [|fuel IH]; intros level seen nxt Hinv Hfuel.
  - pose proof (seen_size_le _ _ _ Hinv).
    destruct Hfuel as [->|?]; [|lia]. simpl. rewrite elements_empty.
    rewrite decide_True by done. eauto.
  - simpl. case_decide as Hnil.
    { apply elements_empty_inv in Hnil. apply leibniz_equiv in Hnil. subst.
      eauto. }
    destruct (length_level_spec level (elements nxt) seen ∅)
      as (seen' & nxt' & Hr & Hs & Hn).
    { intros v Hv%elem_of_elements. eapply walk_len_dom. by apply Hinv. }
    rewrite Hr. cbn.
    destruct Hinv as (HA & HB & HC1 & HC2).
    assert (Hkeep : ∀ x, is_Some (seen !! x) → seen' !! x = seen !! x).
    { intros x Hx. rewrite Hs. by rewrite decide_True. }
    assert (Hnew : ∀ x, seen !! x = None → x ∈ nxt → seen' !! x = Some level).
    { intros x Hx Hin. rewrite Hs, Hx. rewrite decide_False by (by intros [??]).
      rewrite decide_True; [done|]. by apply elem_of_elements. }
    assert (Hinv' : length_inv g s (S level) seen' nxt').
    { split; [|split; [|split]].
      - intros x m. rewrite Hs. case_decide as Hx.
        + intros Hm. destruct (HA _ _ Hm). split; [lia|done].
        + case_decide as Hl; [|done]. intros [= <-]. split; [lia|].
          apply elem_of_elements in Hl. split; [by apply HB|].
          intros m Hm Hw. apply Hx. by eapply HC1.
      - intros y. rewrite Hn. intros [?|(v & Hv%elem_of_elements & _ & Hvy)];
          [set_solver|].
        econstructor; [by apply HB|done].
      - intros x m Hm Hw. destruct (decide (m < level)).
        + rewrite Hkeep; by eapply HC1.
        + assert (m = level) as -> by lia.
          destruct (HC2 _ Hw) as [Hx|Hx]; [by rewrite Hkeep|].
          destruct (seen !! x) eqn:E; [rewrite Hkeep; rewrite E; eauto|].
          rewrite Hnew; eauto.
      - intros x Hw. inversion Hw as [|y ? ? Hy Hyx]; simplify_eq.
        assert (Hcase : is_Some (seen !! y) ∨ (seen !! y = None ∧ y ∈ nxt)).
        { destruct (seen !! y) eqn:E; [by left; eauto|].
          destruct (HC2 _ Hy) as [[? E']|?]; [by rewrite E in E'|by right]. }
        destruct Hcase as [[m' Hm']|[Hnone Hin]].
        + destruct (HA _ _ Hm') as [Hlt [Hwm' _]].
          assert (Hwx : walk_len g s x (S m')) by (by econstructor).
          left. destruct (decide (S m' < level)).
          * rewrite Hkeep; by eapply HC1.
          * assert (S m' = level) as <- by lia.
            destruct (HC2 _ Hwx) as [Hx|Hx]; [by rewrite Hkeep|].
            destruct (seen !! x) eqn:E; [rewrite Hkeep; rewrite E; eauto|].
            rewrite Hnew; eauto.
        + right. apply Hn. right. exists y. by rewrite elem_of_elements. }
    apply IH; [done|].
    destruct (decide (nxt' = ∅)) as [|Hne]; [by left|]. right.
    apply set_choose_L in Hne as [y Hy].
    apply Hn in Hy as [?|(v & Hv%elem_of_elements & Hsv & _)]; [set_solver|].
    assert (Hlt : size seen < size seen').
    { rewrite <-!size_dom. apply subset_size. split.
      - intros x Hx%elem_of_dom. apply elem_of_dom. by rewrite Hkeep.
      - intros Hsub. assert (v ∈ dom seen) as [? Hv']%elem_of_dom.
        { apply Hsub, elem_of_dom. rewrite Hnew; eauto. }
        by rewrite Hsv in Hv'. }
    pose proof (seen_size_le _ _ _ Hinv').
    destruct Hfuel as [->|?]; [set_solver|]. lia.
Qed.

(** [shortest_path_length] returns, for exactly the nodes that can be
    reached from the source, their shortest-path length. *)
Lemma shortest_path_length_spec :
  ∃ lengths, shortest_path_length g s = Ok lengths ∧
             ∀ x m, lengths !! x = Some m ↔ is_dist g s x m.
Proof.
  apply length_loop_spec; [|right; rewrite map_size_empty; lia].
  split; [|split; [|split]].
  - intros x m. by rewrite lookup_empty.
  - intros x ->%elem_of_singleton. constructor.
  - intros x m Hm. lia.
  - intros x Hw. inversion Hw; simplify_eq. right. set_solver.
Qed.

End bfs_lengths.

Section bfs_paths_total.

Variable g : Adj.
Hypothesis g_undirected : undirected g.

Lemma foldl_visit_spec pv ws (st : gmap node (list node) * gset node) :
  let st' := foldl (visit pv) st ws in
  (∀ y, y ∈ dom st'.1 ↔ y ∈ dom st.1 ∨ y ∈ ws) ∧
  (∀ y, y ∈ st'.2 ↔ y ∈ st.2 ∨ ((y ∉ dom st.1) ∧ y ∈ ws)) ∧
  (∀ y, y ∈ dom st.1 → st'.1 !! y = st.1 !! y).
Proof.
  revert st. induction ws as [|w ws IH]; intros st; cbn zeta; simpl.
  - set_solver.
  - destruct (IH (visit pv st w)) as (Hd & Hn & Hk). cbn zeta in *.
    assert (Hv1 : ∀ y, y ∈ dom (visit pv st w).1 ↔ y ∈ dom st.1 ∨ y = w).
    { intros y. unfold visit. case_decide as Hw; cbn [fst].
      - apply elem_of_dom in Hw. set_solver.
      - rewrite dom_insert_L. set_solver. }
    assert (Hv2 : ∀ y, y ∈ (visit pv st w).2 ↔
                       y ∈ st.2 ∨ ((y ∉ dom st.1) ∧ y = w)).
    { intros y. unfold visit. case_decide as Hw; cbn [snd].
      - apply elem_of_dom in Hw. set_solver.
      - rewrite <-elem_of_dom in Hw. set_solver. }
    assert (Hv3 : ∀ y, y ∈ dom st.1 → (visit pv st w).1 !! y = st.1 !! y).
    { intros y Hy. unfold visit. case_decide as Hw; cbn [fst]; [done|].
      rewrite lookup_insert_ne; [done|]. intros ->. apply Hw.
      by apply elem_of_dom. }
    split; [|split].
    + intros y. rewrite Hd, Hv1. set_solver.
    + intros y. rewrite Hn, Hv2, Hv1. split; [set_solver|].
      intros [?|[Hy [->|Hin]%elem_of_cons]]; [by left; left|by left; right|].
      destruct (decide (y = w)) as [->|]; [by left; right|].
      right. set_solver.
    + intros y Hy. rewrite Hk; [by apply Hv3|]. apply Hv1. by left.
Qed.

Lemma path_level_spec lvl (paths : gmap node (list node)) nxt :
  (∀ v, v ∈ lvl → v ∈ dom g ∧ v ∈ dom paths) →
  ∃ paths' nxt',
    path_level g lvl paths nxt = Ok (paths', nxt') ∧
    (∀ y, y ∈ dom paths' ↔ y ∈ dom paths ∨ ∃ v, v ∈ lvl ∧ adjacent g v y) ∧
    (∀ y, y ∈ nxt' ↔
          y ∈ nxt ∨ ((y ∉ dom paths) ∧ ∃ v, v ∈ lvl ∧ adjacent g v y)).
Proof.
  revert paths nxt. induction lvl as [|v lvl IH]; intros paths nxt Hlvl.
  - exists paths, nxt. split; [done|]. set_solver.
  - destruct (Hlvl v) as [[nbrs Hnb]%elem_of_dom [pv Hpv]%elem_of_dom];
      [set_solver|].
    simpl. unfold nbrs_of. rewrite Hnb, bind_ret, Hpv, bind_ret.
    destruct (foldl_visit_spec pv (keys nbrs) (paths, nxt)) as (Hd & Hn & Hk).
    cbn zeta in *. cbn [fst snd] in *.
    set (st := foldl (visit pv) (paths, nxt) (keys nbrs)) in *.
    assert (Hadj : ∀ y, y ∈ keys nbrs ↔ adjacent g v y).
    { intros y. rewrite elem_of_keys, adjacent_lookup. naive_solver. }
    destruct (IH st.1 st.2) as (paths' & nxt' & Hr & Hd' & Hn').
    { intros v' Hv'. destruct (Hlvl v') as [? ?]; [set_solver|].
      split; [done|]. apply Hd. by left. }
    exists paths', nxt'. split; [done|]. split.
    + intros y. rewrite Hd', Hd, Hadj. split.
      * intros [[?|?]|(v' & ? & ?)]; [by left|right; exists v; set_solver|].
        right. exists v'. set_solver.
      * intros [?|(v' & [->|?]%elem_of_cons & ?)]; [by left; left|by left; right|].
        right. by exists v'.
    + intros y. rewrite Hn', Hn, Hd, Hadj. split.
      * intros [[?|[? ?]]|[Hy (v' & ? & ?)]]; [by left| |].
        -- right. split; [done|]. exists v. set_solver.
        -- right. split; [set_solver|]. exists v'. set_solver.
      * intros [?|[Hy (v' & [->|?]%elem_of_cons & ?)]]; [by left; left|by left; right|].
        destruct (has_edge g v y) eqn:E; [by left; right|].
        right. split; [|by exists v']. intros [?|Habs]; [done|].
        unfold adjacent in Habs. congruence.
Qed.

Lemma path_loop_total (s : node) fuel (paths : gmap node (list node)) nxt :
  s ∈ dom paths → nxt ⊆ dom paths → dom paths ⊆ dom g →
  (∀ x, x ∈ dom paths → x ∈ nxt ∨ ∀ y, adjacent g x y → y ∈ dom paths) →
  nxt = ∅ ∨ size g < fuel + size paths →
  ∃ final, path_loop fuel g paths nxt = Ok final ∧
           ∀ x, rtc (adjacent g) s x → x ∈ dom final.
Proof.
  revert paths nxt.
  assert (Hdone : ∀ paths : gmap node (list node), s ∈ dom paths →
            (∀ x, x ∈ dom paths → ∀ y, adjacent g x y → y ∈ dom paths) →
            ∀ x, rtc (adjacent g) s x → x ∈ dom paths).
  { intros paths Hs Hcl. apply (rtc_ind_r (λ x, x ∈ dom paths)); [done|].
    intros y z _ Hyz Hy. by eapply Hcl. }
  induction fuel as [|fuel IH]; intros paths nxt Hs Hsub Hdom Hcl Hfuel.
  - assert (size paths ≤ size g).
    { rewrite <-!(size_dom (D := gset node)). by apply subseteq_size. }
    destruct Hfuel as [->|?]; [|lia]. simpl. rewrite elements_empty.
    rewrite decide_True by done. eexists. split; [done|].
    apply Hdone; [done|]. intros x Hx. destruct (Hcl x Hx); [set_solver|done].
  - simpl. case_decide as Hnil.
    { apply elements_empty_inv in Hnil. apply leibniz_equiv in Hnil. subst.
      eexists. split; [done|]. apply Hdone; [done|].
      intros x Hx. destruct (Hcl x Hx); [set_solver|done]. }
    destruct (path_level_spec (elements nxt) paths ∅)
      as (paths' & nxt' & Hr & Hd & Hn).
    { intros v Hv%elem_of_elements. split; [apply Hdom|]; by apply Hsub. }
    rewrite Hr, bind_ret.
    assert (Hmono : dom paths ⊆ dom paths') by (intros y ?; apply Hd; by left).
    apply IH.
    + by apply Hmono.
    + intros y [?|[_ ?]]%Hn; [set_solver|]. apply Hd. by right.
    + intros y [?|(v & _ & Hvy)]%Hd; [by apply Hdom|].
      eapply adjacent_dom. by apply g_undirected.
    + intros x Hx. destruct (decide (x ∈ dom paths)) as [Hold|Hnew].
      * right. intros y Hxy. destruct (Hcl x Hold) as [Hin|Hall].
        -- apply Hd. right. exists x. by rewrite elem_of_elements.
        -- by apply Hmono, Hall.
      * left. apply Hn. right. split; [done|].
        apply Hd in Hx as [?|?]; done.
    + destruct (decide (nxt' = ∅)) as [|Hne]; [by left|]. right.
      apply set_choose_L in Hne as [y Hy].
      apply Hn in Hy as [?|[Hy Hv]]; [set_solver|].
      assert (size paths < size paths').
      { rewrite <-!(size_dom (D := gset node)). apply subset_size.
        split; [done|]. intros Hsub'. apply Hy, Hsub', Hd. by right. }
      assert (size paths ≤ size g).
      { rewrite <-!(size_dom (D := gset node)). by apply subseteq_size. }
      destruct Hfuel as [->|?]; [|lia].
      by rewrite elements_empty in Hnil.
Qed.

(** [shortest_path] finds a path to every node that can be reached. *)
Lemma shortest_path_total (s t : node) :
  s ∈ dom g → rtc (adjacent g) s t → ∃ p, shortest_path g s t = Ok p.
Proof.
  intros Hs Hst. unfold shortest_path. case_decide; [eauto|].
  unfold single_source_shortest_path.
  destruct (path_loop_total s (S (size g)) {[s := [s]]} {[s]})
    as (final & Hr & Hall).
  - rewrite dom_singleton_L. set_solver.
  - rewrite dom_singleton_L. set_solver.
  - rewrite dom_singleton_L. set_solver.
  - intros x. rewrite dom_singleton_L. set_solver.
  - right. rewrite map_size_singleton. lia.
  - rewrite Hr, bind_ret. apply Hall, elem_of_dom in Hst as [p Hp].
    rewrite Hp. eauto.
Qed.

End bfs_paths_total.

(** ** The generator and the edge list *)

Lemma log_gt_accepts u delta :
  (0 <= u)%Q → (u < 1)%Q →
  log_gt u delta = false ↔ (Q2R u <= Rmin 1 (exp (Q2R delta)))%R.
Proof.
  intros H0 H1. unfold log_gt.
  pose proof (exp_pos (Q2R delta)) as Hexp.
  apply Qlt_Rlt in H1. rewrite RMicromega.Q2R_1 in H1.
  destruct (Qle_bool u 0) eqn:Hu.
  - apply Qle_bool_iff, Qle_Rle in Hu. rewrite RMicromega.Q2R_0 in Hu.
    split; [|done]. intros _. apply Rmin_glb; lra.
  - assert (Hpos : (0 < Q2R u)%R).
    { rewrite <-RMicromega.Q2R_0. apply Qlt_Rlt. apply Qnot_le_lt.
      intros Hle%Qle_bool_iff. congruence. }
    destruct (Rlt_dec (Q2R delta) (ln (Q2R u))) as [Hlt|Hge].
    + split; [done|]. intros Hle. exfalso.
      apply exp_increasing in Hlt. rewrite exp_ln in Hlt by done.
      pose proof (Rmin_r 1 (exp (Q2R delta))). lra.
    + split; [|done]. intros _. apply Rmin_glb; [lra|].
      rewrite <-(exp_ln (Q2R u)) by done.
      destruct (Rle_lt_or_eq_dec (ln (Q2R u)) (Q2R delta)) as [Hlt| ->]; [lra| |lra].
      left. by apply exp_increasing.
Qed.

Lemma log_gt_uphill u delta :
  (0 <= u)%Q → (u < 1)%Q → (0 <= delta)%Q → log_gt u delta = false.
Proof.
  intros H0 H1 Hd. apply log_gt_accepts; [done..|].
  apply Qlt_Rlt in H1. rewrite RMicromega.Q2R_1 in H1.
  apply Qle_Rle in Hd. rewrite RMicromega.Q2R_0 in Hd.
  apply Rmin_glb; [lra|].
  destruct Hd as [Hd| <-]; [|rewrite exp_0; lra].
  apply exp_increasing in Hd. rewrite exp_0 in Hd. lra.
Qed.

Lemma unit_float_range m : (0 <= unit_float m)%Q ∧ (unit_float m < 1)%Q.
Proof.
  unfold unit_float, Qle, Qlt. simpl.
  pose proof (Z.mod_pos_bound m two53 eq_refl). unfold two53 in *. simpl in *.
  lia.
Qed.

Lemma scaled_index_lt u n :
  (0 <= u)%Q → (u < 1)%Q → 0 < n → scaled_index u n < n.
Proof.
  intros H0 H1 Hn. unfold scaled_index.
  set (x := (u * inject_Z (Z.of_nat n))%Q).
  assert (Hn' : (0 < inject_Z (Z.of_nat n))%Q).
  { unfold Qlt. simpl. lia. }
  assert (Hx0 : (0 <= x)%Q).
  { unfold x. apply Qmult_le_0_compat; [done|]. by apply Qlt_le_weak. }
  assert (Hx1 : (x < inject_Z (Z.of_nat n))%Q).
  { unfold x. rewrite <-(Qmult_1_l (inject_Z (Z.of_nat n))) at 2.
    by apply Qmult_lt_compat_r. }
  assert (Hf0 : (0 <= Qfloor x)%Z).
  { change 0%Z with (Qfloor 0). by apply Qfloor_resp_le. }
  assert (Hf1 : (Qfloor x < Z.of_nat n)%Z).
  { rewrite Zlt_Qlt. eapply Qle_lt_trans; [apply Qfloor_le|done]. }
  lia.
Qed.

Lemma edges_iter_adjacent (items : list (node * gmap node attr)) seen x y :
  (x, y) ∈ edges_iter items seen →
  ∃ nbrs, (x, nbrs) ∈ items ∧ is_Some (nbrs !! y).
Proof.
  revert seen. induction items as [|[n nbrs] items IH]; intros seen; simpl.
  - by intros ?%elem_of_nil.
  - rewrite elem_of_app. intros [Hin|Hin].
    + apply list_elem_of_fmap in Hin as (z & [= -> ->] & Hz).
      apply list_elem_of_filter in Hz as [_ Hz]. apply elem_of_keys in Hz.
      exists nbrs. split; [left|done].
    + apply IH in Hin as (nb & ? & ?). exists nb. split; [by right|done].
Qed.

(** Every pair that [edges] lists is an edge. *)
Lemma edges_adjacent (g : Adj) x y : (x, y) ∈ edges g → adjacent g x y.
Proof.
  intros (nbrs & Hin & Hy)%edges_iter_adjacent.
  apply elem_of_map_to_list in Hin. apply adjacent_lookup. eauto.
Qed.

(** ** propose, reject and step *)

Implicit Types w : world (node:=node).
Implicit Types t : Graph (node:=node).
Implicit Types self : STMetropolis (node:=node).

Lemma deref_Ok (h : gmap ref (Graph (node:=node))) r t : deref h r = Ok t → h !! r = Some t.
Proof. unfold deref. by destruct (h !! r); intros [= ->]. Qed.

Lemma getattr_Ok {A} (o : option A) x : getattr o = Ok x → o = Some x.
Proof. by destruct o; intros [= ->]. Qed.

Lemma getitem_Ok {A} (l : list A) i x : getitem l i = Ok x → l !! i = Some x.
Proof. unfold getitem. by destruct (l !! i); intros [= ->]. Qed.

Lemma choice_Ok {A} (l : list A) r x r' :
  choice l r = Ok (x, r') →
  ∃ m, r = m :: r' ∧ l !! scaled_index (unit_float m) (length l) = Some x.
Proof.
  unfold choice, random. destruct r as [|m r]; [done|]. cbn.
  intros (y & Hy%getitem_Ok & [= -> ->])%bind_Ok. eauto.
Qed.

Lemma randrange_Ok n r i r' :
  randrange n r = Ok (i, r') →
  (0 < n)%Z ∧ ∃ m, r = m :: r' ∧ i = scaled_index (unit_float m) (Z.to_nat n).
Proof.
  unfold randrange, random. case_decide; [|done]. destruct r as [|m r]; [done|].
  cbn. intros [= <- <-]. eauto.
Qed.

Lemma set_new_id (t : Graph (node:=node)) u0 v0 :
  u_new t = Some u0 → v_new t = Some v0 → set_new (u0, v0) t = t.
Proof. destruct t; simpl. intros -> ->. done. Qed.

Lemma resample_unfold fuel T (w : world (node:=node)) :
  resample fuel T w =
    t ← deref (heap w) T;
    u ← getattr (u_new t);
    v ← getattr (v_new t);
    if has_edge (adj t) u v then
      match fuel with
      | 0 => Diverge
      | S fuel' =>
          G ← getattr (base_graph t);
          g ← deref (heap w) G;
          '(e, r) ← choice (edges (adj g)) (gen w);
          resample fuel' T
            (mkWorld (<[T := set_new e t]> (heap w)) r (np_gen w))
      end
    else Ok w.
Proof. by destruct fuel. Qed.

Lemma resample_inv fuel T w w' t u0 v0 :
  resample fuel T w = Ok w' →
  heap w !! T = Some t → u_new t = Some u0 → v_new t = Some v0 →
  ∃ ds es e,
    gen w = ds ++ gen w' ∧ np_gen w' = np_gen w ∧
    heap w' = <[T := set_new e t]> (heap w) ∧
    has_edge (adj t) e.1 e.2 = false ∧
    Forall (λ e, has_edge (adj t) e.1 e.2 = true) es ∧
    ((es = [] ∧ ds = [] ∧ e = (u0, v0)) ∨
     (∃ es' G ga, es = (u0, v0) :: es' ∧ base_graph t = Some G ∧
        adj <$> (heap w !! G) = Some ga ∧
        Forall2 (selects (edges ga)) ds (es' ++ [e]))).
Proof.
  revert w t u0 v0.
  assert (Hstop : ∀ w t u0 v0, heap w !! T = Some t →
            u_new t = Some u0 → v_new t = Some v0 →
            has_edge (adj t) u0 v0 = false →
            ∃ ds es e,
              gen w = ds ++ gen w ∧ np_gen w = np_gen w ∧
              heap w = <[T := set_new e t]> (heap w) ∧
              has_edge (adj t) e.1 e.2 = false ∧
              Forall (λ e, has_edge (adj t) e.1 e.2 = true) es ∧
              ((es = [] ∧ ds = [] ∧ e = (u0, v0)) ∨
               (∃ es' G ga, es = (u0, v0) :: es' ∧ base_graph t = Some G ∧
                  adj <$> (heap w !! G) = Some ga ∧
                  Forall2 (selects (edges ga)) ds (es' ++ [e])))).
  { intros w t u0 v0 Ht Hu Hv He. exists [], [], (u0, v0).
    split; [done|]. split; [done|]. split.
    - rewrite set_new_id by done. by rewrite insert_id.
    - split; [done|]. split; [constructor|]. by left. }
  induction fuel as [|fuel IH]; intros w t u0 v0 Hr Ht Hu Hv;
    rewrite resample_unfold in Hr;
    apply bind_Ok in Hr as (t' & Ht'%deref_Ok & Hr);
    apply bind_Ok in Hr as (u' & Hu'%getattr_Ok & Hr);
    apply bind_Ok in Hr as (v' & Hv'%getattr_Ok & Hr);
    rewrite Ht in Ht'; injection Ht' as <-;
    rewrite Hu in Hu'; injection Hu' as <-;
    rewrite Hv in Hv'; injection Hv' as <-.
  - destruct (has_edge (adj t) u0 v0) eqn:He; [done|].
    simplify_eq. by eapply Hstop.
  - destruct (has_edge (adj t) u0 v0) eqn:He;
      [|simplify_eq; by eapply Hstop].
    apply bind_Ok in Hr as (G & HG%getattr_Ok & Hr).
    apply bind_Ok in Hr as (gobj & Hg%deref_Ok & Hr).
    apply bind_Ok in Hr as ([e1 r] & (m & Hm & Hsel)%choice_Ok & Hr).
    eapply (IH _ (set_new e1 t) e1.1 e1.2) in Hr; [|cbn; by rewrite lookup_insert_eq|done..].
    cbn [heap gen np_gen] in Hr.
    destruct Hr as (ds & es & e & Hds & Hnp & Hheap & He' & Hes & Hcase).
    exists (m :: ds), ((u0, v0) :: es), e.
    split; [by rewrite Hm, Hds|]. split; [done|]. split.
    { rewrite Hheap, insert_insert_eq. by destruct t. }
    split; [by destruct t|]. split.
    { constructor; [done|]. by destruct t. }
    right. exists es, G, (adj gobj). split; [done|]. split; [done|].
    split; [by rewrite Hg|].
    destruct Hcase as [(-> & -> & ->)|(es' & G' & ga & -> & HG' & Hga & Hsels)].
    + simpl. constructor; [|constructor]. destruct e1; done.
    + assert (G' = G) as -> by (destruct t; simpl in *; congruence).
      assert (ga = adj gobj) as ->.
      { destruct (decide (G = T)) as [->|Hne].
        - rewrite lookup_insert_eq in Hga. rewrite Ht in Hg.
          injection Hg as <-. cbn in Hga. injection Hga as <-. by destruct t.
        - rewrite lookup_insert_ne in Hga by done. rewrite Hg in Hga.
          cbn in Hga. by injection Hga as <-. }
      constructor; [|done]. destruct e1; done.
Qed.

(** Reading a successful run of [propose] backwards. *)
Lemma propose_inv self w self' w' :
  propose self w = Ok (self', w') →
  ∃ t e0 es ds G ga u v p m a b g1,
    heap w !! value (stochastic self) = Some t ∧
    edges (adj t) !! 0 = Some e0 ∧
    base_graph t = Some G ∧ adj <$> (heap w !! G) = Some ga ∧
    gen w = ds ++ m :: gen w' ∧ np_gen w' = np_gen w ∧
    Forall2 (selects (edges ga)) ds (es ++ [(u, v)]) ∧
    Forall (λ e, has_edge (adj t) e.1 e.2 = true) (e0 :: es) ∧
    has_edge (adj t) u v = false ∧
    shortest_path (adj t) u v = Ok p ∧
    1 < length p ∧
    p !! scaled_index (unit_float m) (length p - 1) = Some a ∧
    p !! S (scaled_index (unit_float m) (length p - 1)) = Some b ∧
    remove_edge (adj t) a b = Ok g1 ∧
    self' = set_value self (value (stochastic self)) ∧
    heap w' = <[value (stochastic self) := swapped t u v p a b g1]> (heap w).
Proof.
  unfold propose. set (T := value (stochastic self)). intros Hr.
  apply bind_Ok in Hr as (t & Ht%deref_Ok & Hr).
  apply bind_Ok in Hr as (e0 & He0%getitem_Ok & Hr).
  apply bind_Ok in Hr as (w1 & Hw1 & Hr).
  assert (He0t : has_edge (adj t) e0.1 e0.2 = true).
  { apply edges_adjacent. destruct e0. eapply list_elem_of_lookup_2, He0. }
  eapply (resample_inv _ _ _ _ (set_new e0 t) e0.1 e0.2) in Hw1;
    [|cbn; by rewrite lookup_insert_eq|done..].
  destruct Hw1 as (ds & es & e & Hds & Hnp & Hheap & He & Hes & Hcase).
  cbn [store heap gen np_gen] in *.
  rewrite insert_insert_eq in Hheap.
  assert (Hadj0 : adj (set_new e0 t) = adj t) by (by destruct t).
  rewrite Hadj0 in *.
  destruct Hcase as [(-> & -> & ->)|(es' & G & ga & -> & HG & Hga & Hsel)];
    [cbn in He; congruence|].
  assert (Hsn : set_new e (set_new e0 t) = set_new e t) by (by destruct t).
  rewrite Hsn in Hheap.
  apply bind_Ok in Hr as (t1 & Ht1%deref_Ok & Hr).
  rewrite Hheap, lookup_insert_eq in Ht1. injection Ht1 as <-.
  apply bind_Ok in Hr as (u & Hu%getattr_Ok & Hr).
  apply bind_Ok in Hr as (v & Hv%getattr_Ok & Hr).
  assert (e = (u, v)) as -> by (destruct e, t; simpl in *; congruence).
  apply bind_Ok in Hr as (p & Hp & Hr).
  apply bind_Ok in Hr as ([i r] & (Hlen & m & Hm & Hi)%randrange_Ok & Hr).
  apply bind_Ok in Hr as (a & Ha%getitem_Ok & Hr).
  apply bind_Ok in Hr as (b & Hb%getitem_Ok & Hr).
  apply bind_Ok in Hr as (g1 & Hg1 & Hr).
  injection Hr as <- <-. cbn [heap gen np_gen].
  assert (Hadj1 : ∀ x, adj (set_old (a, b) (set_path p (set_new (u, v) x))) = adj x)
    by (by intros []).
  assert (Hadj2 : adj (set_path p (set_new (u, v) t)) = adj t) by (by destruct t).
  assert (Hadj3 : adj (set_new (u, v) t) = adj t) by (by destruct t).
  rewrite Hadj1 in Hg1. rewrite Hadj3 in Hp.
  replace (Z.to_nat (Z.of_nat (length p) - 1)) with (length p - 1) in Hi by lia.
  subst i. rewrite Nat.add_1_r in Hb.
  exists t, e0, es', ds, G, ga, u, v, p, m, a, b, g1.
  split; [done|]. split; [done|]. split; [by destruct t|]. split.
  { destruct (decide (G = T)) as [->|Hne].
    - rewrite lookup_insert_eq in Hga. rewrite Ht. simpl in Hga.
      by injection Hga as <-.
    - by rewrite lookup_insert_ne in Hga. }
  split; [by rewrite Hds, Hm|]. split; [done|]. split; [done|].
  split; [by destruct e0|]. split; [done|]. split; [done|]. split; [lia|].
  split; [done|]. split; [done|]. split; [done|]. split; [done|].
  by rewrite Hheap, insert_insert_eq.
Qed.

Lemma propose_value self w self' w' :
  propose self w = Ok (self', w') →
  self' = set_value self (value (stochastic self)).
Proof.
  intros (t & e0 & es & ds & G & ga & u & v & p & m & a & b & g1 & Hrest)
    %propose_inv.
  decompose [and] Hrest. assumption.
Qed.

Lemma forest_equiv (R R' : relation node) :
  (∀ x y, R x y ↔ R' x y) → forest R → forest R'.
Proof.
  intros Heq HF x y Hxy Hc. apply (HF x y); [by apply Heq|].
  eapply rtc_subrel; [|exact Hc]. intros p q [? ?]. split; [by apply Heq|done].
Qed.

Lemma walk_equiv (R R' : relation node) p :
  (∀ x y, R x y ↔ R' x y) → walk R p → walk R' p.
Proof. intros Heq. apply walk_subrel. intros ?? _ _. apply Heq. Qed.

Lemma is_tree_equiv g g' :
  (∀ x y, adjacent g x y ↔ adjacent g' x y) → dom g = dom g' →
  number_of_edges g = number_of_edges g' →
  is_tree g → is_tree g'.
Proof.
  intros Heq Hdom Hne (Hn & Hc & Ha). split; [|split].
  - rewrite <-Hne, <-(size_dom (D := gset node) g'), <-Hdom, size_dom. done.
  - intros x y Hx Hy. rewrite <-Hdom in Hx, Hy.
    eapply rtc_subrel; [|by apply Hc]. intros ??. apply Heq.
  - intros c (Hnd & Hlen & x & Hh & Hw). apply (Ha c).
    split; [done|]. split; [done|]. exists x. split; [done|].
    eapply walk_equiv; [|exact Hw]. intros ??. symmetry. apply Heq.
Qed.

Lemma undirected_equiv g g' :
  (∀ x y, adjacent g x y ↔ adjacent g' x y) → undirected g → undirected g'.
Proof. intros Heq Hg x y ?%Heq. by apply Heq, Hg. Qed.

Lemma walk_dom g p x :
  undirected g → walk (adjacent g) p → 1 < length p → x ∈ p → x ∈ dom g.
Proof.
  intros Hg Hw. revert x. induction Hw as [z|z y l Hzy Hw IH]; intros x Hlen Hx.
  - simpl in Hlen. lia.
  - apply elem_of_cons in Hx as [->|Hx]; [by eapply adjacent_dom|].
    destruct l as [|y' l].
    + apply list_elem_of_singleton in Hx as ->. eapply adjacent_dom. by apply Hg.
    + apply IH; [simpl; lia|done].
Qed.

Lemma degsum_swap g a b g1 u v :
  undirected g → a ≠ b → u ≠ v →
  remove_edge g a b = Ok g1 →
  u ∈ dom g → v ∈ dom g → ¬ adjacent g u v →
  degsum (add_edge g1 u v) = degsum g.
Proof.
  intros Hg Hab Huv Hr Hu Hv Hn.
  pose proof (degsum_remove_edge _ _ _ _ Hab Hr) as H1.
  pose proof (dom_remove_edge _ _ _ _ Hr) as Hd.
  pose proof (degsum_add_edge g1 u v) as H2.
  rewrite Hd in H2.
  specialize (H2 (undirected_remove_edge _ _ _ _ Hr Hg) Huv Hu Hv).
  rewrite (adjacent_remove_edge _ _ _ _ _ _ Hr) in H2.
  rewrite H2 by tauto. lia.
Qed.

(** The facts about the path and the two edges on which the swap rests. *)
Lemma swap_facts g u v p i a b :
  undirected g → has_edge g u v = false →
  shortest_path g u v = Ok p → 1 < length p →
  p !! i = Some a → p !! S i = Some b →
  adjacent g a b ∧ a ≠ b ∧ u ≠ v ∧ u ∈ dom g ∧ v ∈ dom g ∧
  ¬ adjacent g u v ∧ ¬ adjacent g v u ∧
  rtc (minus (adjacent g) a b) u a ∧ rtc (minus (adjacent g) a b) b v.
Proof.
  intros Hg Huv Hp Hlen Ha Hb.
  apply shortest_path_walk in Hp as (Hh & Hl & Hw & Hnd).
  destruct (walk_edge_split _ _ _ _ _ _ _ Hw Hnd Ha Hb Hh Hl)
    as (Hab & Hne & Hua & Hbv).
  assert (Hnuv : ¬ adjacent g u v) by (unfold adjacent; congruence).
  assert (u ∈ p) by (destruct p; simplify_eq/=; left).
  assert (v ∈ p) by (by eapply last_Some_elem_of).
  repeat split; try done; try by eapply walk_dom.
  - intros ->. destruct p as [|x p]; simplify_eq/=.
    destruct p as [|y p]; [simpl in Hlen; lia|].
    rewrite last_cons_cons in Hl. apply NoDup_cons in Hnd as [Hx _].
    apply Hx. by eapply last_Some_elem_of.
  - intros ?. by apply Hnuv, Hg.
Qed.

(** One edge swap on a tree gives a tree on the same nodes. *)
Lemma swap_tree g u v p i a b g1 :
  undirected g → is_tree g → has_edge g u v = false →
  shortest_path g u v = Ok p → 1 < length p →
  p !! i = Some a → p !! S i = Some b →
  remove_edge g a b = Ok g1 →
  undirected (add_edge g1 u v) ∧ is_tree (add_edge g1 u v) ∧
  dom (add_edge g1 u v) = dom g.
Proof.
  intros Hg (Hn & Hc & Hac) Huv Hp Hlen Ha Hb Hr.
  destruct (swap_facts g u v p i a b) as
    (Hab & Hne & Hne' & Hu & Hv & Hnuv & Hnvu & Hua & Hbv); [done..|].
  assert (Hg1 : undirected g1) by (by eapply undirected_remove_edge).
  assert (Hdom : dom (add_edge g1 u v) = dom g).
  { unfold add_edge. rewrite dom_add_edge, (dom_remove_edge _ _ _ _ Hr).
    set_solver. }
  assert (Hadj : ∀ x y, plus (minus (adjacent g) a b) u v x y ↔
                        adjacent (add_edge g1 u v) x y).
  { intros x y. unfold add_edge. rewrite adjacent_add_edge.
    rewrite (adjacent_remove_edge _ _ _ _ _ _ Hr). done. }
  split; [by apply undirected_add_edge|]. split; [|done]. split; [|split].
  - unfold number_of_edges in *. fold (degsum (add_edge g1 u v)).
    fold (degsum g) in Hn.
    rewrite (degsum_swap g a b g1 u v) by done.
    rewrite <-(size_dom (D := gset node)), Hdom, size_dom. done.
  - intros x y Hx Hy. rewrite Hdom in Hx, Hy.
    eapply rtc_subrel; [intros ??; apply Hadj|].
    apply swap_connected; [done|done|done|by apply Hc].
  - apply forest_acyclic; [by apply undirected_add_edge|].
    eapply forest_equiv; [exact Hadj|].
    apply swap_forest; [done|by apply acyclic_forest|done..].
Qed.

(** Putting the old edge back and taking the new one out undoes the
    swap. *)
Lemma unswap g u v p i a b g1 :
  undirected g → has_edge g u v = false →
  shortest_path g u v = Ok p → 1 < length p →
  p !! i = Some a → p !! S i = Some b →
  remove_edge g a b = Ok g1 →
  ∃ g3, remove_edge (add_edge (add_edge g1 u v) a b) u v = Ok g3 ∧
        (∀ x y, has_edge g3 x y = has_edge g x y) ∧
        dom g3 = dom g ∧ degsum g3 = degsum g.
Proof.
  intros Hg Huv Hp Hlen Ha Hb Hr.
  destruct (swap_facts g u v p i a b) as
    (Hab & Hne & Hne' & Hu & Hv & Hnuv & Hnvu & Hua & Hbv); [done..|].
  assert (Ha' : a ∈ dom g) by (by eapply adjacent_dom).
  assert (Hb' : b ∈ dom g) by (eapply adjacent_dom; by apply Hg).
  assert (Hg1 : undirected g1) by (by eapply undirected_remove_edge).
  set (g' := add_edge g1 u v). set (g2 := add_edge g' a b).
  assert (Hg' : undirected g') by (by apply undirected_add_edge).
  assert (Hg2 : undirected g2) by (by apply undirected_add_edge).
  assert (Hdom' : dom g' = dom g).
  { unfold g', add_edge. rewrite dom_add_edge, (dom_remove_edge _ _ _ _ Hr).
    set_solver. }
  assert (Hdom2 : dom g2 = dom g).
  { unfold g2, add_edge. rewrite dom_add_edge. fold (add_edge g1 u v).
    fold g'. rewrite Hdom'. set_solver. }
  assert (Hadj' : ∀ x y, adjacent g' x y ↔
            plus (minus (adjacent g) a b) u v x y).
  { intros x y. unfold g', add_edge. rewrite adjacent_add_edge.
    rewrite (adjacent_remove_edge _ _ _ _ _ _ Hr). done. }
  assert (Hadj2 : ∀ x y, adjacent g2 x y ↔
            adjacent g' x y ∨ (x = a ∧ y = b) ∨ (x = b ∧ y = a)).
  { intros x y. unfold g2, add_edge. by rewrite adjacent_add_edge. }
  destruct (remove_edge_total g2 u v) as [g3 Hg3]; [done| |].
  { apply Hadj2. left. apply Hadj'. right. by left. }
  exists g3. split; [done|].
  assert (Hadj3 : ∀ x y, adjacent g3 x y ↔ adjacent g x y).
  { intros x y. rewrite (adjacent_remove_edge _ _ _ _ _ _ Hg3), Hadj2, Hadj'.
    unfold plus, minus. split.
    - intros [[[[? _]|?]|[[-> ->]|[-> ->]]] Hn]; [done|tauto|done|by apply Hg].
    - intros Hxy. split.
      + destruct (decide (x = a ∧ y = b)); [tauto|].
        destruct (decide (x = b ∧ y = a)); [tauto|]. left. left. tauto.
      + intros [[-> ->]|[-> ->]]; done. }
  split; [|split].
  - intros x y. pose proof (Hadj3 x y) as Hi. unfold adjacent in Hi.
    destruct (has_edge g3 x y), (has_edge g x y); naive_solver.
  - by rewrite (dom_remove_edge _ _ _ _ Hg3).
  - pose proof (degsum_remove_edge _ _ _ _ Hne' Hg3) as H1.
    pose proof (degsum_add_edge g' a b Hg' Hne) as H2.
    rewrite Hdom' in H2. specialize (H2 Ha' Hb').
    fold g2 in H2. rewrite H2 in H1.
    + pose proof (degsum_swap g a b g1 u v Hg Hne Hne' Hr Hu Hv Hnuv) as H3.
      fold g' in H3. lia.
    + rewrite Hadj'. unfold plus, minus.
      intros [[_ Hn]|[[-> ->]|[-> ->]]]; [apply Hn; by left|done|].
      by apply Hnvu.
Qed.

(** Counting the entries of a dictionary whose value passes a test is
    counting the keys that carry such a value. *)
Lemma count_values (P : nat → Prop) `{!∀ n, Decision (P n)} (m : gmap node nat) :
  ∃ l, NoDup l ∧ (∀ x, x ∈ l ↔ ∃ n, m !! x = Some n ∧ P n) ∧
       length (filter P (values m)) = length l.
Proof.
  exists ((filter (λ kv, P kv.2) (map_to_list m)).*1). split; [|split].
  - eapply sublist_NoDup; [apply (NoDup_fst_map_to_list m)|].
    apply fmap_sublist, sublist_filter.
  - intros x. rewrite list_elem_of_fmap. split.
    + intros ([y n] & -> & [Hp Hin%elem_of_map_to_list]%list_elem_of_filter).
      eauto.
    + intros (n & Hn & Hp). exists (x, n). split; [done|].
      apply list_elem_of_filter. split; [done|]. by apply elem_of_map_to_list.
  - unfold values. rewrite length_fmap.
    induction (map_to_list m) as [|[y n] l IH]; [done|]. cbn [fmap list_fmap snd].
    rewrite !filter_cons. cbn [snd]. case_decide; simpl; by rewrite IH.
Qed.

Lemma degree_lookup g x : degree g !! x = deg1 x <$> g !! x.
Proof. unfold degree. rewrite map_lookup_imap. by destruct (g !! x). Qed.

Lemma set_value_value self T : value (stochastic (set_value self T)) = T.
Proof. done. Qed.

Lemma set_value_id self : set_value self (value (stochastic self)) = self.
Proof. by destruct self as [[]]. Qed.

Lemma reject_swapped self w t u v p a b g1 :
  heap w !! value (stochastic self) = Some (swapped t u v p a b g1) →
  reject self w =
    g3 ← remove_edge (add_edge (add_edge g1 u v) a b) u v;
    Ok (self, store (value (stochastic self))
                    (set_adj g3 (swapped t u v p a b g1)) w).
Proof.
  intros Ht. unfold reject, deref. rewrite Ht. cbn.
  destruct (remove_edge _ u v); [|done..]. cbn. by rewrite set_value_id.
Qed.

(** [propose] followed by [reject], whatever numpy's generator was left
    with in between. *)
Lemma propose_reject self w self' w' t np :
  heap w !! value (stochastic self) = Some t → undirected (adj t) →
  propose self w = Ok (self', w') →
  ∃ t', reject self' (mkWorld (heap w') (gen w') np)
          = Ok (self', mkWorld (<[value (stochastic self) := t']> (heap w))
                               (gen w') np) ∧
        dom (adj t') = dom (adj t) ∧
        (∀ x y, has_edge (adj t') x y = has_edge (adj t) x y) ∧
        number_of_edges (adj t') = number_of_edges (adj t).
Proof.
  intros Ht Hg Hp.
  apply propose_inv in Hp as (t0 & e0 & es & ds & G & ga & u & v & p & m & a &
    b & g1 & Ht0 & He0 & HG & Hga & Hgen & Hnp & Hsel & Hes & Huv & Hp & Hlen &
    Ha & Hb & Hr & -> & Hheap).
  rewrite Ht in Ht0. injection Ht0 as <-.
  destruct (unswap (adj t) u v p _ a b g1 Hg Huv Hp Hlen Ha Hb Hr)
    as (g3 & Hg3 & Hadj & Hdom & Hdeg).
  exists (set_adj g3 (swapped t u v p a b g1)).
  rewrite (reject_swapped _ _ t u v p a b g1);
    [|cbn; by rewrite Hheap, lookup_insert_eq].
  rewrite Hg3. cbn. unfold store. cbn. rewrite Hheap, insert_insert_eq.
  split; [done|]. split; [done|]. split; [done|].
  unfold number_of_edges. fold (degsum g3). fold (degsum (adj t)). by rewrite Hdeg.
Qed.

Lemma propose_tree self w self' w' :
  tree_state self w → propose self w = Ok (self', w') → tree_state self' w'.
Proof.
  intros (t & Ht & Hg & Htree) Hp.
  apply propose_inv in Hp as (t0 & e0 & es & ds & G & ga & u & v & p & m & a &
    b & g1 & Ht0 & He0 & HG & Hga & Hgen & Hnp & Hsel & Hes & Huv & Hp & Hlen &
    Ha & Hb & Hr & -> & Hheap).
  rewrite Ht in Ht0. injection Ht0 as <-.
  destruct (swap_tree (adj t) u v p _ a b g1 Hg Htree Huv Hp Hlen Ha Hb Hr)
    as (Hg' & Htree' & _).
  exists (swapped t u v p a b g1). cbn. rewrite Hheap, lookup_insert_eq. done.
Qed.

Lemma step_inv self w self' w' :
  step self w = Ok (self', w') →
  ∃ lp self1 w1 lp_p m,
    logp (heap w) (stochastic self) = Ok lp ∧
    propose self w = Ok (self1, w1) ∧
    logp (heap w1) (stochastic self1) = Ok lp_p ∧
    np_gen w1 = m :: np_gen w' ∧
    if log_gt (unit_float m) (lp_p - lp)
    then reject self1 (mkWorld (heap w1) (gen w1) (np_gen w')) = Ok (self', w')
    else self' = self1 ∧ w' = mkWorld (heap w1) (gen w1) (np_gen w').
Proof.
  unfold step. intros Hr.
  apply bind_Ok in Hr as (lp & Hlp & Hr).
  apply bind_Ok in Hr as ([self1 w1] & Hp & Hr).
  apply bind_Ok in Hr as (lp_p & Hlpp & Hr).
  apply bind_Ok in Hr as ([u r] & Hu & Hr).
  unfold random in Hu. destruct (np_gen w1) as [|m r'] eqn:Hnp; [done|].
  injection Hu as <- <-.
  exists lp, self1, w1, lp_p, m.
  assert (Hnp' : np_gen w' = r').
  { destruct (log_gt _ _).
    - unfold reject in Hr.
      apply bind_Ok in Hr as (? & _ & Hr). apply bind_Ok in Hr as (? & _ & Hr).
      apply bind_Ok in Hr as (? & _ & Hr). apply bind_Ok in Hr as (? & _ & Hr).
      apply bind_Ok in Hr as (? & _ & Hr). apply bind_Ok in Hr as (? & _ & Hr).
      by injection Hr as <- <-.
    - by injection Hr as <- <-. }
  rewrite Hnp'. repeat split; try done.
  destruct (log_gt _ _); [done|]. by injection Hr as <- <-.
Qed.

Lemma propose_reject_tree self w self1 w1 np self' w' :
  tree_state self w → propose self w = Ok (self1, w1) →
  reject self1 (mkWorld (heap w1) (gen w1) np) = Ok (self', w') →
  tree_state self' w'.
Proof.
  intros (t & Ht & Hg & Htree) Hp Hr.
  destruct (propose_reject _ _ _ _ t np Ht Hg Hp)
    as (t' & Hrej & Hdom & Hadj & Hne).
  rewrite Hrej in Hr. injection Hr as <- <-.
  apply propose_value in Hp as ->.
  exists t'. cbn. rewrite lookup_insert_eq. split; [done|].
  assert (Heq : ∀ x y, adjacent (adj t) x y ↔ adjacent (adj t') x y).
  { intros x y. unfold adjacent. by rewrite Hadj. }
  split; [by eapply undirected_equiv|]. by eapply is_tree_equiv.
Qed.

Lemma step_tree self w self' w' :
  tree_state self w → step self w = Ok (self', w') → tree_state self' w'.
Proof.
  intros Hts (lp & self1 & w1 & lp_p & m & _ & Hp & _ & _ & Hr)%step_inv.
  destruct (log_gt _ _).
  - by eapply propose_reject_tree.
  - destruct Hr as [-> ->].
    destruct (propose_tree _ _ _ _ Hts Hp) as (t1 & ? & ? & ?). by exists t1.
Qed.

Lemma sample_tree n self w self' w' :
  tree_state self w → sample n self w = Ok (self', w') → tree_state self' w'.
Proof.
  revert self w. induction n as [|n IH]; intros self w Hts; simpl.
  - by intros [= <- <-].
  - intros ([self1 w1] & Hs & Hr)%bind_Ok. eapply IH; [|exact Hr].
    by eapply step_tree.
Qed.

Lemma deref_Some (h : gmap ref (Graph (node:=node))) r t :
  h !! r = Some t → deref h r = Ok t.
Proof. unfold deref. by intros ->. Qed.

Lemma choice_selects (es : list (node * node)) m e r :
  selects es m e → choice es (m :: r) = Ok (e, r).
Proof.
  intros Hsel. unfold choice, random. rewrite bind_ret. cbn beta iota.
  unfold getitem. unfold selects in Hsel. by rewrite Hsel.
Qed.

(** The loop of [propose] returns as soon as a draw picks an edge that
    is not in the tree. *)
Lemma resample_returns ds : ∀ fuel T w t u0 v0 G ga es m e rest,
  heap w !! T = Some t → u_new t = Some u0 → v_new t = Some v0 →
  has_edge (adj t) u0 v0 = true →
  base_graph t = Some G → adj <$> (heap w !! G) = Some ga →
  gen w = ds ++ m :: rest →
  Forall2 (selects (edges ga)) ds es →
  Forall (λ e, has_edge (adj t) e.1 e.2 = true) es →
  selects (edges ga) m e → has_edge (adj t) e.1 e.2 = false →
  length ds < fuel →
  resample fuel T w
    = Ok (mkWorld (<[T := set_new e t]> (heap w)) rest (np_gen w)).
Proof.
  induction ds as [|d ds IH];
    intros fuel T w t u0 v0 G ga es m e rest Ht Hu Hv Hin HG Hga Hgen Hsel Hes
      Hm He Hfuel;
    (destruct fuel as [|fuel]; [simpl in Hfuel; lia|]);
    rewrite resample_unfold; unfold deref; rewrite Ht, bind_ret;
    rewrite Hu, Hv; cbn [getattr]; rewrite !bind_ret, Hin, HG;
    cbn [getattr]; rewrite bind_ret;
    (destruct (heap w !! G) as [gobj|] eqn:HGo; [|done]);
    rewrite bind_ret; injection Hga as <-; rewrite Hgen.
  - cbn [app]. rewrite (choice_selects _ _ _ _ Hm), bind_ret. cbn beta iota.
    rewrite resample_unfold. unfold deref. cbn [heap].
    rewrite lookup_insert_eq, bind_ret.
    assert (Hn : u_new (set_new e t) = Some e.1 ∧ v_new (set_new e t) = Some e.2
                 ∧ adj (set_new e t) = adj t) by (by destruct t).
    destruct Hn as (-> & -> & ->). cbn [getattr]. rewrite !bind_ret, He. done.
  - apply Forall2_cons_inv_l in Hsel as (e1 & es' & Hd & Hsel & ->).
    apply Forall_cons in Hes as [He1 Hes].
    cbn [app]. rewrite (choice_selects _ _ _ _ Hd), bind_ret. cbn beta iota.
    erewrite (IH fuel T _ (set_new e1 t) e1.1 e1.2 G (adj gobj) es' m e rest).
    + cbn [heap np_gen]. rewrite insert_insert_eq. by destruct t.
    + cbn [heap]. by rewrite lookup_insert_eq.
    + by destruct t.
    + by destruct t.
    + by destruct t.
    + by destruct t.
    + cbn [heap]. destruct (decide (G = T)) as [->|Hne].
      * rewrite lookup_insert_eq. rewrite Ht in HGo. injection HGo as <-.
        by destruct t.
      * rewrite lookup_insert_ne by done. by rewrite HGo.
    + done.
    + done.
    + by destruct t.
    + done.
    + by destruct t.
    + simpl in Hfuel. lia.
Qed.

(** On a connected tree object with at least one edge, [propose]
    returns once the draws pick an edge of the base graph between two
    different nodes of the tree that is not in the tree; the draw after
    that one chooses the edge to remove. *)
Lemma propose_returns self w t G ga ds es m u v mi rest :
  heap w !! value (stochastic self) = Some t →
  undirected (adj t) → connected (adj t) → edges (adj t) ≠ [] →
  base_graph t = Some G → adj <$> (heap w !! G) = Some ga →
  gen w = ds ++ m :: mi :: rest →
  Forall2 (selects (edges ga)) ds es →
  Forall (λ e, has_edge (adj t) e.1 e.2 = true) es →
  selects (edges ga) m (u, v) → has_edge (adj t) u v = false →
  u ≠ v → u ∈ dom (adj t) → v ∈ dom (adj t) →
  ∃ self' w', propose self w = Ok (self', w') ∧ gen w' = rest.
Proof.
  intros Ht Hg Hc Hedges HG Hga Hgen Hsel Hes Hm Huv Hne Hu Hv.
  cut (∃ r, propose self w = Ok r ∧ gen r.2 = rest).
  { intros ([self' w'] & ? & ?). eauto. }
  unfold propose. cbn zeta. set (T := value (stochastic self)) in *.
  rewrite (deref_Some _ _ _ Ht), bind_ret.
  destruct (edges (adj t)) as [|e0 es0] eqn:He0; [done|].
  change (getitem (e0 :: es0) 0) with (Ok e0 : outcome (node * node)).
  rewrite bind_ret.
  assert (He0t : has_edge (adj t) e0.1 e0.2 = true).
  { apply edges_adjacent. rewrite He0. destruct e0. left. }
  erewrite (resample_returns ds _ T (store T (set_new e0 t) w) (set_new e0 t)
              e0.1 e0.2 G ga es m (u, v) (mi :: rest)).
  2:{ cbn [store heap]. by rewrite lookup_insert_eq. }
  2-3: by destruct t.
  2:{ by destruct t. }
  2:{ by destruct t. }
  2:{ cbn [store heap]. destruct (decide (G = T)) as [->|Hn].
      - rewrite lookup_insert_eq. rewrite Ht in Hga. injection Hga as <-.
        by destruct t.
      - by rewrite lookup_insert_ne. }
  2:{ done. }
  2:{ done. }
  2:{ by destruct t. }
  2:{ done. }
  2:{ by destruct t. }
  2:{ cbn [store gen]. rewrite Hgen, length_app. simpl. lia. }
  rewrite bind_ret. cbn [store heap gen np_gen].
  rewrite insert_insert_eq.
  rewrite (deref_Some _ T (set_new (u, v) (set_new e0 t)))
    by apply lookup_insert_eq.
  rewrite bind_ret.
  assert (Hn : u_new (set_new (u, v) (set_new e0 t)) = Some u ∧
               v_new (set_new (u, v) (set_new e0 t)) = Some v ∧
               adj (set_new (u, v) (set_new e0 t)) = adj t) by (by destruct t).
  destruct Hn as (Hnu & Hnv & Hna). rewrite Hnu, Hnv. cbn [getattr].
  rewrite !bind_ret, Hna.
  destruct (shortest_path_total (adj t) Hg u v Hu (Hc u v Hu Hv)) as [p Hp].
  rewrite Hp, bind_ret.
  pose proof (shortest_path_walk _ _ _ _ Hp) as (Hh & Hl & Hw & Hnd).
  assert (Hlen : 1 < length p).
  { destruct p as [|x [|y p]]; simpl in *; [done| |lia]. congruence. }
  unfold randrange. rewrite decide_True by lia. unfold random.
  rewrite bind_ret. cbn beta iota. rewrite bind_ret. cbn beta iota.
  replace (Z.to_nat (Z.of_nat (length p) - 1)) with (length p - 1) by lia.
  destruct (unit_float_range mi) as [H0 H1].
  pose proof (scaled_index_lt (unit_float mi) (length p - 1) H0 H1) as Hi.
  set (i := scaled_index (unit_float mi) (length p - 1)) in *.
  destruct (lookup_lt_is_Some_2 p i) as [a Ha]; [lia|].
  destruct (lookup_lt_is_Some_2 p (i + 1)) as [b Hb]; [lia|].
  unfold getitem. rewrite Ha, bind_ret, Hb, bind_ret.
  assert (Hab : adjacent (adj t) a b).
  { rewrite Nat.add_1_r in Hb.
    by destruct (walk_edge_split _ _ _ _ _ _ _ Hw Hnd Ha Hb Hh Hl). }
  destruct (remove_edge_total _ _ _ Hg Hab) as [g1 Hg1].
  assert (Hna' : adj (set_old (a, b) (set_path p
                   (set_new (u, v) (set_new e0 t)))) = adj t)
    by (by destruct t).
  rewrite Hna', Hg1, bind_ret. eexists. split; [reflexivity|done].
Qed.

(** ** Trees built one leaf at a time *)

Lemma singleton_tree (x : node) :
  let g : Adj := {[x := ∅]} in undirected g ∧ connected g ∧ acyclic g.
Proof.
  assert (Hno : ∀ a b, ¬ adjacent ({[x := ∅]} : Adj) a b).
  { intros a b (nb & Ha & Hb)%adjacent_lookup.
    apply lookup_singleton_Some in Ha as [_ <-]. rewrite lookup_empty in Hb.
    by destruct Hb. }
  cbn zeta. split; [|split].
  - intros a b Hab. by destruct (Hno a b).
  - intros a b Ha Hb. rewrite dom_singleton_L in Ha, Hb.
    apply elem_of_singleton in Ha as ->. by apply elem_of_singleton in Hb as ->.
  - intros c (_ & _ & y & Hh & Hw). destruct c as [|z c]; [done|].
    simpl in Hh. injection Hh as ->.
    destruct c as [|z c]; simpl in Hw; inversion Hw; simplify_eq;
      by eapply Hno.
Qed.

Lemma leaf_tree g x y :
  undirected g → connected g → acyclic g → x ∈ dom g → y ∉ dom g →
  undirected (add_edge g x y) ∧ connected (add_edge g x y) ∧
  acyclic (add_edge g x y).
Proof.
  intros Hg Hc Hac Hx Hy.
  assert (Hg' : undirected (add_edge g x y)) by (by apply undirected_add_edge).
  assert (Hadj : ∀ a b, adjacent (add_edge g x y) a b ↔
                        plus (adjacent g) x y a b).
  { intros a b. unfold add_edge. by rewrite adjacent_add_edge. }
  assert (Hiso1 : ∀ a, ¬ adjacent g y a).
  { intros a Hya. by apply Hy, (adjacent_dom g y a). }
  assert (Hiso2 : ∀ a, ¬ adjacent g a y).
  { intros a Hya. by apply (Hiso1 a), Hg. }
  assert (Hend : ∀ R a, (∀ p q, R p q → adjacent g p q) → rtc R a y → a = y).
  { intros R a Hsub [->|(z & _ & Hzy)]%rtc_inv_r; [done|].
    destruct (Hiso2 z). by apply Hsub. }
  assert (Hstart : ∀ R a, (∀ p q, R p q → adjacent g p q) → rtc R y a → a = y).
  { intros R a Hsub [->|(z & Hyz & _)]%rtc_inv; [done|].
    destruct (Hiso1 z). by apply Hsub. }
  assert (Hxy : x ≠ y) by (by intros ->).
  split; [done|]. split.
  - assert (Hto : ∀ a, a ∈ dom (add_edge g x y) → rtc (adjacent (add_edge g x y)) a x).
    { intros a. unfold add_edge. rewrite dom_add_edge. fold (add_edge g x y).
      intros Ha. destruct (decide (a = y)) as [->|Hay].
      - apply rtc_once, Hadj. right. by right.
      - eapply rtc_subrel; [|apply (Hc a x); [set_solver|done]].
        intros p q ?. apply Hadj. by left. }
    intros a b Ha Hb. eapply rtc_trans; [by apply Hto|].
    apply rtc_sym; [done|]. by apply Hto.
  - apply forest_acyclic; [done|].
    eapply forest_equiv; [intros ??; symmetry; apply Hadj|].
    pose proof (acyclic_forest g Hg Hac) as HF.
    intros p q Hpq Hconn.
    assert (Hcases : ((p = x ∧ q = y) ∨ (p = y ∧ q = x)) ∨ adjacent g p q)
      by (destruct Hpq; tauto).
    destruct Hcases as [Hnew|Hold].
    + assert (Hsub : ∀ a b, minus (plus (adjacent g) x y) p q a b → adjacent g a b).
      { intros a b [[?|?] Hn]; [done|]. exfalso. apply Hn.
        destruct Hnew as [[-> ->]|[-> ->]]; tauto. }
      destruct Hnew as [[-> ->]|[-> ->]].
      * by apply Hxy, (Hend _ x Hsub).
      * by apply Hxy, (Hstart _ x Hsub).
    + assert (Hsub : ∀ a b, minus (plus (adjacent g) x y) p q a b →
                plus (minus (adjacent g) p q) x y a b).
      { intros a b [[?|?] Hn]; [left; by split|by right]. }
      apply (rtc_subrel _ _ _ _ Hsub) in Hconn.
      assert (Hsub' : ∀ a b, minus (adjacent g) p q a b → adjacent g a b)
        by (intros ??; apply minus_sub).
      apply rtc_plus_split in Hconn as [Hc1|[[_ Hc2]|[Hc1 _]]].
      * by apply (HF p q).
      * apply (Hstart _ q Hsub') in Hc2 as ->. by apply (Hiso2 p).
      * apply (Hend _ p Hsub') in Hc1 as ->. by apply (Hiso1 q).
Qed.

(** ** The energies *)


Lemma bdst_score (h : gmap ref (Graph (node:=node))) value V root k beta :
  h !! value = Some V → undirected (adj V) → root ∈ dom (adj V) →
  ∃ far, NoDup far ∧
    (∀ x, x ∈ far ↔ ∃ n, is_dist (adj V) root x n ∧ (k < Z.of_nat n)%Z) ∧
    bdst h value root k beta = Ok (neg_beta_times beta (length far)).
Proof.
  intros HV Hg Hroot.
  destruct (shortest_path_length_spec (adj V) root Hg Hroot)
    as (lengths & Hl & Hspec).
  destruct (count_values (λ n, (k < Z.of_nat n)%Z) lengths)
    as (far & Hnd & Hfar & Hcount).
  exists far. split; [done|]. split.
  - intros x. rewrite Hfar. split; intros (n & Hn & Hk); exists n;
      (split; [by apply Hspec|done]).
  - unfold bdst, deref. rewrite HV, bind_ret, Hl, bind_ret.
    unfold count_gt. by rewrite Hcount.
Qed.


(** ** The claims *)

(** C1. Tree invariant: when the value of the stochastic is a tree
    (exactly |nodes| - 1 edges, connected, acyclic), it is a tree again
    after one execution of [propose], after [propose] followed by
    [reject], after one completed iteration [step], whether the proposal
    was kept or rejected, and after any number of iterations. *)
Theorem tree_invariant self w self' w' :
  tree_state self w →
  propose self w = Ok (self', w') ∨
  (∃ self1 w1 np, propose self w = Ok (self1, w1) ∧
     reject self1 (mkWorld (heap w1) (gen w1) np) = Ok (self', w')) ∨
  step self w = Ok (self', w') ∨
  (∃ iter, sample iter self w = Ok (self', w')) →
  tree_state self' w'.
Proof.
  intros Hts [Hp|[(self1 & w1 & np & Hp & Hr)|[Hs|[iter Hs]]]].
  - by eapply propose_tree.
  - by eapply propose_reject_tree.
  - by eapply step_tree.
  - by eapply sample_tree.
Qed.

(** C2. Reversibility: whatever the draws, [reject] after [propose]
    succeeds and gives back the nodes and the edges that the tree had
    before [propose]. *)
Theorem propose_reject_restores self w self' w' t :
  heap w !! value (stochastic self) = Some t → undirected (adj t) →
  propose self w = Ok (self', w') →
  ∃ self'' w'' t'',
    reject self' w' = Ok (self'', w'') ∧
    value (stochastic self'') = value (stochastic self) ∧
    heap w'' !! value (stochastic self) = Some t'' ∧
    dom (adj t'') = dom (adj t) ∧
    ∀ x y, has_edge (adj t'') x y = has_edge (adj t) x y.
Proof.
  intros Ht Hg Hp.
  destruct (propose_reject _ _ _ _ t (np_gen w') Ht Hg Hp)
    as (t' & Hrej & Hdom & Hadj & _).
  replace (mkWorld (heap w') (gen w') (np_gen w')) with w' in Hrej
    by (by destruct w').
  eexists _, _, t'. split; [exact Hrej|].
  apply propose_value in Hp as ->.
  cbn. by rewrite lookup_insert_eq.
Qed.

(** C4. When [propose] returns, the candidate edge (u_new, v_new) is in
    the edge list of the base graph and not in the tree; it is the last
    of a nonempty run of draws, each of which picks the edge at position
    [int(random() * len)] of the whole edge list of the base graph, and
    every draw before the last picked an edge of the tree. *)
Theorem propose_candidate_edge self w self' w' :
  propose self w = Ok (self', w') →
  ∃ t t' G ga u v ds es rest,
    heap w !! value (stochastic self) = Some t ∧
    heap w' !! value (stochastic self) = Some t' ∧
    u_new t' = Some u ∧ v_new t' = Some v ∧
    base_graph t = Some G ∧ adj <$> (heap w !! G) = Some ga ∧
    (u, v) ∈ edges ga ∧ has_edge ga u v = true ∧
    has_edge (adj t) u v = false ∧
    gen w = ds ++ rest ∧ ds ≠ [] ∧
    Forall2 (selects (edges ga)) ds (es ++ [(u, v)]) ∧
    Forall (λ e, has_edge (adj t) e.1 e.2 = true) es.
Proof.
  intros (t & e0 & es & ds & G & ga & u & v & p & m & a & b & g1 & Ht & He0 &
    HG & Hga & Hgen & Hnp & Hsel & Hes & Huv & Hp & Hlen & Ha & Hb & Hr & -> &
    Hheap)%propose_inv.
  exists t, (swapped t u v p a b g1), G, ga, u, v, ds, es, (m :: gen w').
  assert (Hin : (u, v) ∈ edges ga).
  { apply Forall2_app_inv_r in Hsel as (ds1 & ds2 & _ & Hlast & _).
    apply Forall2_cons_inv_r in Hlast as (d & ? & Hd & _ & _).
    eapply list_elem_of_lookup_2, Hd. }
  split; [done|]. split; [by rewrite Hheap, lookup_insert_eq|].
  split; [done|]. split; [done|]. split; [done|]. split; [done|].
  split; [done|]. split; [by apply edges_adjacent|]. split; [done|].
  split; [done|]. split.
  { intros ->. apply Forall2_nil_inv_l in Hsel. by destruct es. }
  split; [done|]. by apply Forall_cons in Hes as [_ ?].
Qed.

(** C5. In [propose] the path is the one that [shortest_path] finds from
    u_new to v_new in the tree as it was on entry, which does not hold
    the new edge; the index is [int(random() * (len(path) - 1))], it
    lies between 0 and len(path) - 2, and the removed edge joins the
    nodes of the path at that index and the next. *)
Theorem propose_removed_edge self w self' w' :
  propose self w = Ok (self', w') →
  ∃ t t' u v p m i a b g1,
    heap w !! value (stochastic self) = Some t ∧
    heap w' !! value (stochastic self) = Some t' ∧
    u_new t' = Some u ∧ v_new t' = Some v ∧ path t' = Some p ∧
    u_old t' = Some a ∧ v_old t' = Some b ∧
    has_edge (adj t) u v = false ∧
    shortest_path (adj t) u v = Ok p ∧
    m ∈ gen w ∧ i = scaled_index (unit_float m) (length p - 1) ∧
    i + 2 ≤ length p ∧
    p !! i = Some a ∧ p !! (i + 1) = Some b ∧
    has_edge (adj t) a b = true ∧
    remove_edge (adj t) a b = Ok g1 ∧ adj t' = add_edge g1 u v.
Proof.
  intros (t & e0 & es & ds & G & ga & u & v & p & m & a & b & g1 & Ht & He0 &
    HG & Hga & Hgen & Hnp & Hsel & Hes & Huv & Hp & Hlen & Ha & Hb & Hr & -> &
    Hheap)%propose_inv.
  exists t, (swapped t u v p a b g1), u, v, p, m,
    (scaled_index (unit_float m) (length p - 1)), a, b, g1.
  split; [done|]. split; [by rewrite Hheap, lookup_insert_eq|].
  split; [done|]. split; [done|]. split; [done|]. split; [done|].
  split; [done|]. split; [done|]. split; [done|]. split.
  { rewrite Hgen. set_solver. }
  split; [done|]. split.
  { apply lookup_lt_Some in Hb. lia. }
  split; [done|]. split; [by rewrite Nat.add_1_r|].
  split; [by eapply remove_edge_adjacent|]. done.
Qed.

(** C6. The log-probability [bdst] at a value [V] that holds [root] is
    minus beta times the number of nodes whose shortest-path length from
    [root] in [V] is above [k]. *)
Theorem bdst_energy (h : gmap ref (Graph (node:=node))) value V root k beta :
  h !! value = Some V → undirected (adj V) → root ∈ dom (adj V) →
  ∃ far, NoDup far ∧
    (∀ x, x ∈ far ↔ ∃ n, is_dist (adj V) root x n ∧ (k < Z.of_nat n)%Z) ∧
    bdst h value root k beta
      = Ok (- beta * inject_Z (Z.of_nat (length far)))%Q.
Proof. apply bdst_score. Qed.

(** C7. One iteration takes one draw [u] of numpy's generator, in
    [0, 1); the proposal is kept exactly when [u <= min(1, exp(delta))]
    for [delta] the log-probability after [propose] minus the one
    before, hence always when the log-probability went up; when it is
    not kept, the tree has the nodes and edges it had before. *)
Theorem metropolis_acceptance self w self' w' t :
  heap w !! value (stochastic self) = Some t → undirected (adj t) →
  step self w = Ok (self', w') →
  ∃ lp lp_p self1 w1 m,
    logp (heap w) (stochastic self) = Ok lp ∧
    propose self w = Ok (self1, w1) ∧
    logp (heap w1) (stochastic self1) = Ok lp_p ∧
    np_gen w1 = m :: np_gen w' ∧ gen w' = gen w1 ∧
    (0 <= unit_float m)%Q ∧ (unit_float m < 1)%Q ∧
    ((Q2R (unit_float m) <= Rmin 1 (exp (Q2R (lp_p - lp))))%R →
       self' = self1 ∧ heap w' = heap w1) ∧
    (¬ (Q2R (unit_float m) <= Rmin 1 (exp (Q2R (lp_p - lp))))%R →
       ∃ t'', heap w' !! value (stochastic self) = Some t'' ∧
              dom (adj t'') = dom (adj t) ∧
              ∀ x y, has_edge (adj t'') x y = has_edge (adj t) x y) ∧
    ((lp < lp_p)%Q → self' = self1 ∧ heap w' = heap w1).
Proof.
  intros Ht Hg (lp & self1 & w1 & lp_p & m & Hlp & Hp & Hlpp & Hnp & Hr)%step_inv.
  exists lp, lp_p, self1, w1, m.
  destruct (unit_float_range m) as [Hu0 Hu1].
  pose proof (log_gt_accepts (unit_float m) (lp_p - lp) Hu0 Hu1) as Hacc.
  assert (Hgen : gen w' = gen w1).
  { destruct (log_gt _ _).
    - destruct (propose_reject _ _ _ _ t (np_gen w') Ht Hg Hp) as (t' & Hrej & _).
      rewrite Hrej in Hr. by injection Hr as <- <-.
    - by destruct Hr as [_ ->]. }
  split; [done|]. split; [done|]. split; [done|]. split; [done|].
  split; [done|]. split; [done|]. split; [done|].
  assert (Hkeep : log_gt (unit_float m) (lp_p - lp) = false →
                  self' = self1 ∧ heap w' = heap w1).
  { intros E. rewrite E in Hr. by destruct Hr as [-> ->]. }
  split; [|split].
  - intros Hle. by apply Hkeep, Hacc.
  - intros Hnle. destruct (log_gt _ _) eqn:E; [|by destruct Hnle; apply Hacc].
    destruct (propose_reject _ _ _ _ t (np_gen w') Ht Hg Hp)
      as (t' & Hrej & Hdom & Hadj & _).
    rewrite Hrej in Hr. injection Hr as <- <-. exists t'. cbn.
    by rewrite lookup_insert_eq.
  - intros Hlt. apply Hkeep, log_gt_uphill; [done..|].
    apply Qlt_le_weak. unfold Qminus. rewrite <-(Qplus_opp_r lp).
    by apply Qplus_lt_l.
Qed.



(** C10. When [propose] returns on a tree, the removed edge was in the
    tree and the added edge was not, so they differ; [remove_edge] in
    [propose] was called on an edge of the graph, and so it is in the
    [reject] that follows, which leaves the old edge in and the new edge
    out. *)
Theorem swap_edges_distinct self w self' w' :
  tree_state self w → propose self w = Ok (self', w') →
  ∃ t t' a b u v g1,
    heap w !! value (stochastic self) = Some t ∧
    heap w' !! value (stochastic self) = Some t' ∧
    u_old t' = Some a ∧ v_old t' = Some b ∧
    u_new t' = Some u ∧ v_new t' = Some v ∧
    has_edge (adj t) a b = true ∧ has_edge (adj t) u v = false ∧
    ¬ same_edge (a, b) (u, v) ∧
    remove_edge (adj t) a b = Ok g1 ∧ adj t' = add_edge g1 u v ∧
    has_edge (add_edge (adj t') a b) u v = true ∧
    ∃ self'' w'' t'' g3,
      reject self' w' = Ok (self'', w'') ∧
      heap w'' !! value (stochastic self) = Some t'' ∧
      remove_edge (add_edge (adj t') a b) u v = Ok g3 ∧ adj t'' = g3 ∧
      has_edge (adj t'') a b = true ∧ has_edge (adj t'') u v = false.
Proof.
  intros (t & Ht & Hg & Htree) Hp.
  apply propose_inv in Hp as (t0 & e0 & es & ds & G & ga & u & v & p & m & a &
    b & g1 & Ht0 & He0 & HG & Hga & Hgen & Hnp & Hsel & Hes & Huv & Hp & Hlen &
    Ha & Hb & Hr & -> & Hheap).
  rewrite Ht in Ht0. injection Ht0 as <-.
  destruct (swap_facts (adj t) u v p _ a b Hg Huv Hp Hlen Ha Hb)
    as (Hab & Hne & Hne' & Hu & Hv & Hnuv & Hnvu & _).
  destruct (unswap (adj t) u v p _ a b g1 Hg Huv Hp Hlen Ha Hb Hr)
    as (g3 & Hg3 & Hadj & Hdom & _).
  exists t, (swapped t u v p a b g1), a, b, u, v, g1.
  split; [done|]. split; [by rewrite Hheap, lookup_insert_eq|].
  split; [done|]. split; [done|]. split; [done|]. split; [done|].
  split; [done|]. split; [done|]. split.
  { intros [[= -> ->]|[= -> ->]]; done. }
  split; [done|]. split; [done|]. split.
  { apply adjacent_add_edge. left. apply adjacent_add_edge. right. by left. }
  exists (set_value self (value (stochastic self))),
    (store (value (stochastic self)) (set_adj g3 (swapped t u v p a b g1)) w'),
    (set_adj g3 (swapped t u v p a b g1)), g3.
  split.
  { rewrite (reject_swapped _ _ t u v p a b g1);
      [|cbn; by rewrite Hheap, lookup_insert_eq].
    by rewrite Hg3. }
  split; [cbn; by rewrite lookup_insert_eq|]. split; [done|]. split; [done|].
  cbn. by rewrite !Hadj.
Qed.

End proofs.

(** * The claims on small inputs *)

Example LDST_triangle r np :
  LDST 0 2 1 (mkWorld {[0 := new_graph triangle]} r np)
  = Ok (stochastic (ldst_sampler 2), mkWorld (ldst_heap 2) r np).
Proof. vm_compute. reflexivity. Qed.

Example BDST_triangle r np :
  BDST 0 2 1 1 (mkWorld {[0 := new_graph triangle]} r np)
  = Ok (stochastic (bdst_sampler 2 1), mkWorld (bdst_heap 2 1) r np).
Proof. vm_compute. reflexivity. Qed.


Lemma mst_triangle : minimum_spanning_tree triangle = star2.
Proof. vm_compute. reflexivity. Qed.



Lemma star2_tree : undirected star2 ∧ is_tree star2.
Proof.
  destruct (singleton_tree 2) as (H1 & H2 & H3).
  destruct (leaf_tree _ 2 1 H1 H2 H3) as (H4 & H5 & H6);
    [rewrite dom_singleton_L; set_solver..|].
  destruct (leaf_tree _ 2 0 H4 H5 H6) as (H7 & H8 & H9);
    [unfold add_edge; rewrite dom_add_edge, dom_singleton_L; set_solver..|].
  split; [exact H7|]. split; [vm_compute; reflexivity|]. split; [exact H8|exact H9].
Qed.

Lemma ldst_tree_state d r np :
  tree_state (ldst_sampler d) (mkWorld (ldst_heap d) r np).
Proof.
  eexists. split; [reflexivity|]. cbn [adj set_d set_base_graph new_graph].
  rewrite mst_triangle. apply star2_tree.
Qed.

Lemma tree_invariant_witness :
  tree_state (ldst_sampler 2) (mkWorld (ldst_heap 2) draws [0; 0]%Z) ∧
  ∃ self' w',
    sample 2 (ldst_sampler 2) (mkWorld (ldst_heap 2) draws [0; 0]%Z)
      = Ok (self', w') ∧
    tree_state self' w'.
Proof.
  split; [apply ldst_tree_state|].
  assert (E : ∃ r, sample 2 (ldst_sampler 2)
                     (mkWorld (ldst_heap 2) draws [0; 0]%Z) = Ok r)
    by (eexists; vm_compute; reflexivity).
  destruct E as [[self' w'] E]. exists self', w'. split; [exact E|].
  apply (tree_invariant _ _ self' w' (ldst_tree_state 2 draws [0; 0]%Z)).
  right. right. right. exists 2. exact E.
Defined.

Lemma propose_reject_restores_witness :
  ∃ self' w' self'' w'' t'',
    propose (ldst_sampler 2) (mkWorld (ldst_heap 2) draws []) = Ok (self', w') ∧
    reject self' w' = Ok (self'', w'') ∧
    heap w'' !! 1 = Some t'' ∧
    dom (adj t'') = dom (minimum_spanning_tree triangle) ∧
    ∀ x y, has_edge (adj t'') x y
           = has_edge (minimum_spanning_tree triangle) x y.
Proof.
  assert (E : ∃ r, propose (ldst_sampler 2) (mkWorld (ldst_heap 2) draws [])
                   = Ok r) by (eexists; vm_compute; reflexivity).
  destruct E as [[self' w'] E].
  assert (Hg : undirected (minimum_spanning_tree triangle))
    by (rewrite mst_triangle; apply star2_tree).
  destruct (propose_reject_restores (ldst_sampler 2)
              (mkWorld (ldst_heap 2) draws []) self' w' _ eq_refl Hg E)
    as (self'' & w'' & t'' & Hrej & _ & Ht'' & Hdom & Hadj).
  exists self', w', self'', w'', t''. repeat split; assumption.
Defined.

Lemma ldst_ignores_value (h : gmap ref (Graph (node:=nat))) T d v v' beta :
  ldst T d h v beta = ldst T d h v' beta.
Proof. reflexivity. Qed.

(** C3 on the code. The stochastic of [LDST(G, 3)] asked for its
    log-probability at the value [star3], which has one node of degree
    3, answers with the count of the tree made in [LDST], which has
    none. *)
Lemma ldst_reads_captured_tree :
  logp_fun (stochastic (ldst_sampler 3)) two_trees 2
    = Ok (neg_beta_times 1 (count_ge 3 (values (degree star2)))) ∧
  count_ge 3 (values (degree star2)) = 0 ∧
  (adj <$> two_trees !! 2) = Some star3 ∧
  count_ge 3 (values (degree star3)) = 1 ∧
  logp_fun (stochastic (ldst_sampler 3)) two_trees 2
    ≠ Ok (neg_beta_times 1 (count_ge 3 (values (degree star3)))).
Proof.
  split; [vm_compute; reflexivity|]. split; [vm_compute; reflexivity|].
  split; [reflexivity|]. split; [vm_compute; reflexivity|].
  vm_compute. discriminate.
Qed.

Lemma propose_candidate_edge_witness :
  ∃ self' w' t t' G ga u v,
    propose (ldst_sampler 2) (mkWorld (ldst_heap 2) draws []) = Ok (self', w') ∧
    ldst_heap 2 !! 1 = Some t ∧ heap w' !! 1 = Some t' ∧
    u_new t' = Some u ∧ v_new t' = Some v ∧
    base_graph t = Some G ∧ adj <$> (ldst_heap 2 !! G) = Some ga ∧
    (u, v) ∈ edges ga ∧ has_edge ga u v = true ∧
    has_edge (adj t) u v = false.
Proof.
  assert (E : ∃ r, propose (ldst_sampler 2) (mkWorld (ldst_heap 2) draws [])
                   = Ok r) by (eexists; vm_compute; reflexivity).
  destruct E as [[self' w'] E].
  destruct (propose_candidate_edge _ _ _ _ E)
    as (t & t' & G & ga & u & v & ds & es & rest & Ht & Ht' & Hu & Hv & HG &
        Hga & Hin & Hbase & Hout & _).
  exists self', w', t, t', G, ga, u, v. repeat split; assumption.
Defined.

Lemma propose_removed_edge_witness :
  ∃ self' w' t t' u v p i a b,
    propose (ldst_sampler 2) (mkWorld (ldst_heap 2) draws []) = Ok (self', w') ∧
    ldst_heap 2 !! 1 = Some t ∧ heap w' !! 1 = Some t' ∧
    u_new t' = Some u ∧ v_new t' = Some v ∧ path t' = Some p ∧
    shortest_path (adj t) u v = Ok p ∧
    i + 2 ≤ length p ∧ p !! i = Some a ∧ p !! (i + 1) = Some b ∧
    u_old t' = Some a ∧ v_old t' = Some b.
Proof.
  assert (E : ∃ r, propose (ldst_sampler 2) (mkWorld (ldst_heap 2) draws [])
                   = Ok r) by (eexists; vm_compute; reflexivity).
  destruct E as [[self' w'] E].
  destruct (propose_removed_edge _ _ _ _ E)
    as (t & t' & u & v & p & m & i & a & b & g1 & Ht & Ht' & Hu & Hv & Hpath &
        Ha' & Hb' & _ & Hp & _ & _ & Hi & Ha & Hb & _).
  exists self', w', t, t', u, v, p, i, a, b. repeat split; assumption.
Defined.

Lemma bdst_energy_witness :
  ∃ far, NoDup far ∧
    (∀ x, x ∈ far ↔
          ∃ n, is_dist (minimum_spanning_tree triangle) 2 x n ∧
               (0 < Z.of_nat n)%Z) ∧
    bdst (bdst_heap 2 0) 1 2 0 1
      = Ok (- 1 * inject_Z (Z.of_nat (length far)))%Q.
Proof.
  apply (bdst_energy (bdst_heap 2 0) 1 _ 2 0 1 eq_refl).
  - cbn [adj set_k set_root set_base_graph new_graph].
    rewrite mst_triangle. apply star2_tree.
  - apply elem_of_dom. eexists. vm_compute. reflexivity.
Defined.

Lemma metropolis_acceptance_witness :
  ∃ self' w' lp lp_p self1 w1 m,
    step (ldst_sampler 2) (mkWorld (ldst_heap 2) draws [0]%Z) = Ok (self', w') ∧
    logp (ldst_heap 2) (stochastic (ldst_sampler 2)) = Ok lp ∧
    propose (ldst_sampler 2) (mkWorld (ldst_heap 2) draws [0]%Z)
      = Ok (self1, w1) ∧
    logp (heap w1) (stochastic self1) = Ok lp_p ∧
    np_gen w1 = m :: np_gen w' ∧
    ((Q2R (unit_float m) <= Rmin 1 (exp (Q2R (lp_p - lp))))%R →
       self' = self1 ∧ heap w' = heap w1).
Proof.
  assert (E : ∃ r, step (ldst_sampler 2) (mkWorld (ldst_heap 2) draws [0]%Z)
                   = Ok r) by (eexists; vm_compute; reflexivity).
  destruct E as [[self' w'] E].
  assert (Hg : undirected (minimum_spanning_tree triangle))
    by (rewrite mst_triangle; apply star2_tree).
  destruct (metropolis_acceptance (ldst_sampler 2)
              (mkWorld (ldst_heap 2) draws [0]%Z) self' w' _ eq_refl Hg E)
    as (lp & lp_p & self1 & w1 & m & Hlp & Hp & Hlpp & Hnp & _ & _ & _ &
        Hkeep & _).
  exists self', w', lp, lp_p, self1, w1, m.
  exact (conj E (conj Hlp (conj Hp (conj Hlpp (conj Hnp Hkeep))))).
Defined.







Lemma swap_edges_distinct_witness :
  ∃ self' w' t' a b u v,
    propose (ldst_sampler 2) (mkWorld (ldst_heap 2) draws []) = Ok (self', w') ∧
    heap w' !! 1 = Some t' ∧
    u_old t' = Some a ∧ v_old t' = Some b ∧
    u_new t' = Some u ∧ v_new t' = Some v ∧
    has_edge (minimum_spanning_tree triangle) a b = true ∧
    has_edge (minimum_spanning_tree triangle) u v = false ∧
    ¬ same_edge (a, b) (u, v) ∧
    ∃ self'' w'' t'',
      reject self' w' = Ok (self'', w'') ∧ heap w'' !! 1 = Some t'' ∧
      has_edge (adj t'') a b = true ∧ has_edge (adj t'') u v = false.
Proof.
  assert (E : ∃ r, propose (ldst_sampler 2) (mkWorld (ldst_heap 2) draws [])
                   = Ok r) by (eexists; vm_compute; reflexivity).
  destruct E as [[self' w'] E].
  destruct (swap_edges_distinct _ _ _ _ (ldst_tree_state 2 draws []) E)
    as (t & t' & a & b & u & v & g1 & Ht & Ht' & Ha & Hb & Hu & Hv & Hab &
        Huv & Hne & _ & _ & _ & self'' & w'' & t'' & g3 & Hrej & Ht'' & _ & _ &
        Hab' & Huv').
  assert (Ht0 : ldst_heap 2 !! 1 = Some t) by exact Ht.
  assert (t = set_d 2 (set_base_graph 0
                (new_graph (minimum_spanning_tree triangle)))) as ->
    by (apply (inj Some); rewrite <-Ht0; reflexivity).
  exists self', w', t', a, b, u, v. repeat split; try assumption.
  exists self'', w'', t''. repeat split; assumption.
Defined.

(** * Further properties *)

(** ** minimum_spanning_tree *)

Section kruskal.
Context `{Countable node}.
Local Abbreviation Adj := (gmap node (gmap node attr)).
Implicit Types g : Adj.

(** *** The edge list *)

Lemma edges_iter_complete (items : list (node * gmap node attr)) seen x y nbx nby :
  NoDup items.*1 →
  (x, nbx) ∈ items → (y, nby) ∈ items →
  is_Some (nbx !! y) → is_Some (nby !! x) →
  x ∉ seen → y ∉ seen →
  (x, y) ∈ edges_iter items seen ∨ (y, x) ∈ edges_iter items seen.
Proof.
  revert seen. induction items as [|[n nbrs] items IH];
    intros seen Hnd Hx Hy Hxy Hyx Hsx Hsy; [by apply elem_of_nil in Hx|].
  simpl. rewrite !elem_of_app.
  apply NoDup_cons in Hnd as [Hn Hnd]. simpl in Hn.
  assert (Hyield : ∀ a b nb, (a, nb) = (n, nbrs) → is_Some (nb !! b) → b ∉ seen →
            (a, b) ∈ (λ nbr, (n, nbr)) <$> filter (λ nbr, nbr ∉ seen) (keys nbrs)).
  { intros a b nb [= -> ->] Hb Hs. apply list_elem_of_fmap. exists b.
    split; [done|]. apply list_elem_of_filter. split; [done|].
    by apply elem_of_keys. }
  apply elem_of_cons in Hx as [Hx|Hx]; [left; left; by eapply Hyield|].
  apply elem_of_cons in Hy as [Hy|Hy]; [right; left; by eapply Hyield|].
  assert (x ≠ n).
  { intros ->. apply Hn, list_elem_of_fmap. by exists (n, nbx). }
  assert (y ≠ n).
  { intros ->. apply Hn, list_elem_of_fmap. by exists (n, nby). }
  destruct (IH ({[n]} ∪ seen)) as [?|?]; [done..|set_solver|set_solver| |];
    [by left; right|by right; right].
Qed.

(** Every edge of an undirected graph is in [edges], from one end or
    from the other. *)
Lemma edges_complete g x y :
  undirected g → adjacent g x y → (x, y) ∈ edges g ∨ (y, x) ∈ edges g.
Proof.
  intros Hg Hxy. pose proof (Hg _ _ Hxy) as Hyx.
  apply adjacent_lookup in Hxy as (nbx & Hx & Hxy).
  apply adjacent_lookup in Hyx as (nby & Hy & Hyx).
  eapply edges_iter_complete; [apply NoDup_fst_map_to_list| | |done..|set_solver|set_solver];
    by apply elem_of_map_to_list.
Qed.

Lemma elem_of_insert_by_weight (e e' : node * node * attr) l :
  e' ∈ insert_by_weight e l ↔ e' = e ∨ e' ∈ l.
Proof.
  induction l as [|a l IH]; simpl; [set_solver|].
  destruct (Qle_bool _ _); [set_solver|]. rewrite !elem_of_cons, IH. tauto.
Qed.

Lemma elem_of_sorted_by_weight (e : node * node * attr) l :
  e ∈ sorted_by_weight l ↔ e ∈ l.
Proof.
  unfold sorted_by_weight. induction l as [|a l IH]; simpl; [done|].
  rewrite elem_of_insert_by_weight, IH. set_solver.
Qed.

Lemma elem_of_edges_data g x y d :
  (x, y, d) ∈ edges_data g → (x, y) ∈ edges g.
Proof.
  unfold edges_data. intros ([a b] & [= -> -> _] & Hin)%list_elem_of_fmap. done.
Qed.

Lemma edges_data_complete g x y :
  (x, y) ∈ edges g → ∃ d, (x, y, d) ∈ edges_data g.
Proof.
  intros Hin. eexists. unfold edges_data. apply list_elem_of_fmap.
  exists (x, y). split; [reflexivity|done].
Qed.

End kruskal.

Section kruskal2.
Context `{Countable node}.
Local Abbreviation Adj := (gmap node (gmap node attr)).
Implicit Types g : Adj.
Implicit Types P K es : list (node * node * attr).
Implicit Types uf : gmap node node.

(** *** Edge lists as relations *)

Lemma linked_sym P x y : linked P x y → linked P y x.
Proof. intros [d [?|?]]; exists d; tauto. Qed.

Lemma linked_mono P K x y : linked P x y → linked (P ++ K) x y.
Proof. intros [d Hd]. exists d. set_solver. Qed.

Lemma linked_snoc P u v d x y :
  linked (P ++ [(u, v, d)]) x y ↔ plus (linked P) u v x y.
Proof.
  unfold linked, plus. split.
  - intros [d' [Hd|Hd]]; apply elem_of_app in Hd as [Hd|Hd%list_elem_of_singleton];
      [left; eauto|simplify_eq; tauto|left; eauto|simplify_eq; tauto].
  - intros [[d' Hd]|[[-> ->]|[-> ->]]].
    + exists d'. set_solver.
    + exists d. set_solver.
    + exists d. set_solver.
Qed.

Lemma rtc_plus_iff (R : relation node) u v x y :
  (∀ a b, R a b → R b a) →
  rtc (plus R u v) x y ↔
  rtc R x y ∨ (rtc R x u ∧ rtc R v y) ∨ (rtc R x v ∧ rtc R u y).
Proof.
  intros HR. split; [apply rtc_plus_split|].
  assert (Hsub : ∀ a b, rtc R a b → rtc (plus R u v) a b).
  { intros a b. apply rtc_subrel. intros ???. by left. }
  intros [?|[[? ?]|[? ?]]]; [by apply Hsub| |].
  - eapply rtc_trans; [by apply Hsub|]. eapply rtc_l; [|by apply Hsub].
    right. by left.
  - eapply rtc_trans; [by apply Hsub|]. eapply rtc_l; [|by apply Hsub].
    right. by right.
Qed.

Lemma rtc_linked_snoc P u v d x y :
  rtc (linked (P ++ [(u, v, d)])) x y ↔
  rtc (linked P) x y ∨ (rtc (linked P) x u ∧ rtc (linked P) v y) ∨
  (rtc (linked P) x v ∧ rtc (linked P) u y).
Proof.
  rewrite <-(rtc_plus_iff _ _ _ _ _ (linked_sym P)).
  split; apply rtc_subrel; intros ??; apply linked_snoc.
Qed.

(** *** The union-find structure *)

Lemma uf_union_find U uf u v x :
  uf_find (uf_union U uf u v) x =
    if decide (x ∈ U ∧ uf_find uf x = uf_find uf u) then uf_find uf v
    else uf_find uf x.
Proof.
  unfold uf_union. induction U as [|a U IH]; simpl.
  - done.
  - destruct (decide (uf_find uf a = uf_find uf u)) as [Ha|Ha].
    + destruct (decide (x = a)) as [->|Hxa].
      * unfold uf_find at 1. rewrite lookup_insert_eq. simpl.
        rewrite decide_True; [done|]. set_solver.
      * unfold uf_find at 1. rewrite lookup_insert_ne by done.
        fold (uf_find (foldr (λ x acc,
          if decide (uf_find uf x = uf_find uf u)
          then <[x:=uf_find uf v]> acc else acc) uf U) x).
        rewrite IH. repeat case_decide; set_solver.
    + rewrite IH. repeat case_decide; try done; set_solver.
Qed.

Lemma uf_inv_union U uf P u v d :
  uf_inv U uf P → u ∈ U → v ∈ U → uf_find uf u ≠ uf_find uf v →
  uf_inv U (uf_union U uf u v) (P ++ [(u, v, d)]).
Proof.
  intros [Hin Hconn] Hu Hv Hne. split.
  - intros x Hx. rewrite uf_union_find. case_decide; auto.
  - intros x y Hx Hy. rewrite rtc_linked_snoc, !uf_union_find.
    rewrite <-!Hconn by done.
    repeat case_decide; naive_solver congruence.
Qed.

Lemma classes_union U uf u v :
  u ∈ U → v ∈ U → uf_find uf u ≠ uf_find uf v →
  size (classes U uf) = S (size (classes U (uf_union U uf u v))).
Proof.
  intros Hu Hv Hne.
  assert (Hel : ∀ uf' z, z ∈ classes U uf' ↔ ∃ x, x ∈ U ∧ uf_find uf' x = z).
  { intros uf' z. unfold classes. rewrite elem_of_list_to_set, list_elem_of_fmap.
    naive_solver. }
  assert (Heq : classes U uf =
                {[uf_find uf u]} ∪ classes U (uf_union U uf u v)).
  { apply set_eq. intros z. rewrite elem_of_union, elem_of_singleton, !Hel.
    split.
    - intros (x & Hx & <-).
      destruct (decide (uf_find uf x = uf_find uf u)); [by left|]. right.
      exists x. split; [done|]. rewrite uf_union_find. rewrite decide_False; tauto.
    - intros [->|(x & Hx & <-)]; [eauto|]. rewrite uf_union_find.
      case_decide; eauto. }
  rewrite Heq, size_union, size_singleton; [done|].
  intros z ->%elem_of_singleton (x & Hx & Hz)%Hel.
  rewrite uf_union_find in Hz. case_decide; [congruence|tauto].
Qed.

(** *** Kruskal's loop *)

Lemma kruskal_spec U es : ∀ uf P,
  uf_inv U uf P →
  (∀ u v d, (u, v, d) ∈ es → u ∈ U ∧ v ∈ U) →
  joins P (kruskal_mst U es uf) ∧
  (∀ e, e ∈ kruskal_mst U es uf → e ∈ es) ∧
  (∀ u v d, (u, v, d) ∈ es →
            rtc (linked (P ++ kruskal_mst U es uf)) u v) ∧
  ∃ uf', uf_inv U uf' (P ++ kruskal_mst U es uf) ∧
         size (classes U uf)
         = size (classes U uf') + length (kruskal_mst U es uf).
Proof.
  induction es as [|[[u v] d] es IH]; intros uf P Hinv HU; simpl.
  - split; [done|]. split; [done|]. split; [set_solver|].
    exists uf. rewrite app_nil_r. split; [done|lia].
  - destruct (HU u v d) as [Hu Hv]; [left|].
    assert (HU' : ∀ u v d, (u, v, d) ∈ es → u ∈ U ∧ v ∈ U)
      by (intros ????; eapply HU; by right).
    case_decide as Hne.
    + pose proof (uf_inv_union _ _ _ _ _ d Hinv Hu Hv Hne) as Hinv'.
      destruct (IH _ _ Hinv' HU') as (Hj & Hsub & Hcov & uf' & Hinv'' & Hsize).
      rewrite <-(assoc_L (++)) in Hcov, Hinv''. simpl in Hcov, Hinv''.
      split; [|split; [|split]].
      * simpl. split; [congruence|]. split; [|done].
        destruct Hinv as [_ Hc]. by rewrite <-Hc.
      * intros e [->|?]%elem_of_cons; [left|right; by apply Hsub].
      * intros u' v' d' [[= ? ? ?]|?]%elem_of_cons; [|by eapply Hcov].
        subst u' v' d'. apply rtc_once. eexists. left. apply elem_of_app. right. left.
      * exists uf'. split; [done|]. simpl.
        rewrite (classes_union U uf u v) by done. lia.
    + destruct (IH _ _ Hinv HU') as (Hj & Hsub & Hcov & uf' & Hinv'' & Hsize).
      split; [done|]. split; [|split].
      * intros e ?. right. by apply Hsub.
      * intros u' v' d' [[= ? ? ?]|?]%elem_of_cons; [|by eapply Hcov].
        subst u' v' d'.
        eapply rtc_subrel; [intros ??; apply linked_mono|].
        destruct Hinv as [_ Hc]. apply Hc; [done..|].
        by destruct (decide (uf_find uf u = uf_find uf v)).
      * by exists uf'.
Qed.

End kruskal2.

Section kruskal3.
Context `{Countable node}.
Local Abbreviation Adj := (gmap node (gmap node attr)).
Implicit Types g t : Adj.
Implicit Types R : relation node.
Implicit Types P K es : list (node * node * attr).
Implicit Types uf : gmap node node.

(** *** Adding an edge between two parts keeps a forest *)

Lemma forest_plus R u v :
  (∀ a b, R a b → R b a) → forest R → ¬ rtc R u v → forest (plus R u v).
Proof.
  intros Hsym HF Hn x y Hxy Hc.
  destruct (decide ((x = u ∧ y = v) ∨ (x = v ∧ y = u))) as [Hp|Hp].
  - apply Hn. assert (Hsub : ∀ a b, minus (plus R u v) x y a b → R a b).
    { intros a b [[?|?] Hm]; [done|]. exfalso. apply Hm.
      destruct Hp as [[-> ->]|[-> ->]]; tauto. }
    apply (rtc_subrel _ _ _ _ Hsub) in Hc.
    destruct Hp as [[-> ->]|[-> ->]]; [done|]. by apply rtc_sym.
  - destruct Hxy as [Hxy|Hxy]; [|tauto].
    assert (Hsub : ∀ a b, minus (plus R u v) x y a b →
                          plus (minus R x y) u v a b).
    { intros a b [[?|?] Hm]; [left; by split|by right]. }
    apply (rtc_subrel _ _ _ _ Hsub) in Hc.
    assert (Hm : ∀ a b, rtc (minus R x y) a b → rtc R a b).
    { intros a b. apply rtc_subrel. by intros ?? [? _]. }
    apply rtc_plus_split in Hc as [Hc|[[H1 H2]|[H1 H2]]].
    + by apply (HF x y).
    + apply Hn. apply Hm in H1, H2. apply rtc_sym in H1; [|done].
      eapply rtc_trans; [exact H1|]. eapply rtc_l; [exact Hxy|].
      by apply rtc_sym.
    + apply Hn. apply Hm in H1, H2.
      eapply rtc_trans; [exact H2|]. eapply rtc_l; [apply Hsym, Hxy|done].
Qed.


Lemma joins_forest K : ∀ P,
  forest (linked P) → joins P K → forest (linked (P ++ K)).
Proof.
  induction K as [|[[u v] d] K IH]; intros P HF Hj.
  - by rewrite app_nil_r.
  - destruct Hj as (_ & Hn & Hj). simpl in Hn.
    rewrite (cons_middle _ P K), (assoc_L (++)). apply IH; [|done].
    eapply forest_equiv; [intros x y; symmetry; apply linked_snoc|].
    apply forest_plus; [apply linked_sym|done..].
Qed.

(** *** The graph of a list of edges *)

Lemma adjacent_foldl_add_edge K : ∀ t x y,
  adjacent (foldl (λ t e, add_edge_attr t e.1.1 e.1.2 e.2) t K) x y ↔
  adjacent t x y ∨ linked K x y.
Proof.
  induction K as [|[[u v] d] K IH]; intros t x y; simpl.
  - split; [by left|]. intros [?|[d [?%elem_of_nil|?%elem_of_nil]]]; done.
  - rewrite IH, adjacent_add_edge. unfold linked. split.
    + intros [[?|[[-> ->]|[-> ->]]]|[d' Hd]]; [by left|right..].
      * exists d. left. left.
      * exists d. right. left.
      * exists d'. destruct Hd; [left|right]; by right.
    + intros [?|[d' [Hd|Hd]]]; [tauto| |];
        apply elem_of_cons in Hd as [Hd|Hd]; simplify_eq; eauto 6.
Qed.

Lemma undirected_foldl_add_edge K : ∀ t,
  undirected t →
  undirected (foldl (λ t e, add_edge_attr t e.1.1 e.1.2 e.2) t K).
Proof.
  induction K as [|[[u v] d] K IH]; intros t Ht; simpl; [done|].
  apply IH. by apply undirected_add_edge.
Qed.

Lemma dom_foldl_add_edge K : ∀ t x,
  x ∈ dom (foldl (λ t e, add_edge_attr t e.1.1 e.1.2 e.2) t K) ↔
  x ∈ dom t ∨ ∃ y, linked K x y.
Proof.
  induction K as [|[[u v] d] K IH]; intros t x; simpl.
  - split; [by left|]. intros [?|[y [d [?%elem_of_nil|?%elem_of_nil]]]]; done.
  - rewrite IH, dom_add_edge. unfold linked. split.
    + intros [Hx|[y [d' Hd]]].
      * apply elem_of_union in Hx as [Hx|Hx]; [|by left]. right.
        apply elem_of_union in Hx as [Hx%elem_of_singleton|Hx%elem_of_singleton];
          subst x.
        -- exists v, d. left. left.
        -- exists u, d. right. left.
      * right. exists y, d'. destruct Hd; [left|right]; by right.
    + intros [?|[y [d' [Hd|Hd]]]]; [left; set_solver| |];
        (apply elem_of_cons in Hd as [Hd|Hd]; simplify_eq;
         [left; set_solver|right; eauto 6]).
Qed.

(** *** Counting the edges *)

Lemma degsum_add_node g n : degsum (add_node g n) = degsum g.
Proof.
  unfold add_node. destruct (g !! n) eqn:Hn; [done|].
  unfold degsum, degree, values.
  rewrite (map_imap_insert _ n ∅ g). cbn.
  rewrite map_to_list_insert by (by rewrite map_lookup_imap, Hn). simpl.
  rewrite map_size_empty, lookup_empty.
  case_decide as E; [by destruct E|done].
Qed.


Lemma add_edge_attr_insert g u v a :
  u ≠ v →
  ∃ dd, add_edge_attr g u v a =
    <[v := <[u := dd]> (default ∅ (g !! v))]>
      (<[u := <[v := dd]> (default ∅ (g !! u))]> (add_node (add_node g u) v)).
Proof.
  intros Huv. eexists. apply map_eq. intros x.
  rewrite add_edge_attr_lookup. cbn zeta.
  rewrite (decide_False (P := u = v)) by done.
  destruct (decide (x = v)) as [->|Hxv]; [by rewrite lookup_insert_eq|].
  rewrite lookup_insert_ne by done.
  destruct (decide (x = u)) as [->|Hxu]; [by rewrite lookup_insert_eq|].
  rewrite lookup_insert_ne by done. rewrite !add_node_lookup.
  by rewrite !decide_False by done.
Qed.

Lemma degsum_add_edge_attr g u v a :
  undirected g → u ≠ v → ¬ adjacent g u v →
  degsum (add_edge_attr g u v a) = degsum g + 2.
Proof.
  intros Hg Huv Hn.
  assert (Hnuv : default ∅ (g !! u) !! v = None).
  { destruct (g !! u) as [nu|] eqn:Hu; simpl; [|apply lookup_empty].
    destruct (nu !! v) eqn:E; [|done]. exfalso. apply Hn.
    apply adjacent_lookup. eauto. }
  assert (Hnvu : default ∅ (g !! v) !! u = None).
  { destruct (g !! v) as [nv|] eqn:Hv; simpl; [|apply lookup_empty].
    destruct (nv !! u) eqn:E; [|done]. exfalso. apply Hn, Hg.
    apply adjacent_lookup. eauto. }
  destruct (add_edge_attr_insert g u v a Huv) as [dd ->].
  set (g1 := add_node (add_node g u) v).
  assert (Hu : g1 !! u = Some (default ∅ (g !! u))).
  { unfold g1. rewrite !add_node_lookup. rewrite decide_False by done.
    by rewrite decide_True. }
  assert (Hv : g1 !! v = Some (default ∅ (g !! v))).
  { unfold g1. rewrite !add_node_lookup. rewrite decide_True by done.
    rewrite decide_False by done. done. }
  assert (H0 : degsum g1 = degsum g).
  { unfold g1. by rewrite !degsum_add_node. }
  pose proof (degsum_insert g1 u _ (<[v := dd]> (default ∅ (g !! u))) Hu) as H1.
  pose proof (degsum_insert (<[u := <[v := dd]> (default ∅ (g !! u))]> g1)
                v (default ∅ (g !! v)) (<[u := dd]> (default ∅ (g !! v)))) as H2.
  rewrite lookup_insert_ne in H2 by done. specialize (H2 Hv).
  match type of H1 with _ = _ + ?t =>
    assert (t = deg1 u (default ∅ (g !! u)) + 1) as E1
      by (by apply deg1_insert) end.
  match type of H2 with _ = _ + ?t =>
    assert (t = deg1 v (default ∅ (g !! v)) + 1) as E2
      by (by apply deg1_insert) end.
  lia.
Qed.

Lemma degsum_foldl_add_edge K : ∀ P t,
  undirected t → (∀ x y, adjacent t x y ↔ linked P x y) → joins P K →
  degsum (foldl (λ t e, add_edge_attr t e.1.1 e.1.2 e.2) t K)
  = degsum t + 2 * length K.
Proof.
  induction K as [|[[u v] d] K IH]; intros P t Ht HP Hj; simpl; [lia|].
  destruct Hj as (Huv & Hn & Hj). simpl in Huv, Hn.
  rewrite (IH (P ++ [(u, v, d)])); [| |
    |done].
  - rewrite degsum_add_edge_attr; [lia|done..|].
    intros Hadj. apply Hn, rtc_once. by apply HP.
  - by apply undirected_add_edge.
  - intros x y. rewrite adjacent_add_edge, linked_snoc, HP. done.
Qed.

End kruskal3.

Section kruskal4.
Context `{Countable node}.
Local Abbreviation Adj := (gmap node (gmap node attr)).
Implicit Types g t : Adj.
Implicit Types R : relation node.
Implicit Types P K es : list (node * node * attr).
Implicit Types uf : gmap node node.

Lemma uf_inv_empty (U : list node) : uf_inv U ∅ [].
Proof.
  split.
  - intros x Hx. unfold uf_find. by rewrite lookup_empty.
  - intros x y _ _. unfold uf_find. rewrite !lookup_empty. simpl. split.
    + by intros ->.
    + intros Hr. destruct Hr as [|? ? ? [d [?%elem_of_nil|?%elem_of_nil]]]; done.
Qed.

Lemma classes_empty g : classes (keys g) ∅ = dom g.
Proof.
  apply set_eq. intros x. unfold classes.
  rewrite elem_of_list_to_set, list_elem_of_fmap, elem_of_dom. split.
  - intros (y & -> & Hy%elem_of_keys). unfold uf_find.
    by rewrite lookup_empty.
  - intros Hx. exists x. split; [|by apply elem_of_keys].
    unfold uf_find. by rewrite lookup_empty.
Qed.

Lemma classes_connected U uf K x :
  uf_inv U uf K → x ∈ U → (∀ y, y ∈ U → rtc (linked K) x y) →
  size (classes U uf) = 1.
Proof.
  intros [_ Hc] Hx Hall.
  assert (classes U uf = {[uf_find uf x]}) as ->; [|apply size_singleton].
  apply set_eq. intros z. unfold classes.
  rewrite elem_of_list_to_set, list_elem_of_fmap, elem_of_singleton. split.
  - intros (y & -> & Hy). symmetry. apply Hc; auto.
  - intros ->. eauto.
Qed.

Lemma degsum_empty : degsum (∅ : Adj) = 0.
Proof.
  unfold degsum, degree, values. by rewrite map_imap_empty, map_to_list_empty.
Qed.

Lemma adjacent_empty x y : ¬ adjacent (∅ : Adj) x y.
Proof. unfold adjacent, has_edge. by rewrite lookup_empty. Qed.

Lemma linked_nil x y : ¬ linked ([] : list (node * node * attr)) x y.
Proof. intros [d [?%elem_of_nil|?%elem_of_nil]]; done. Qed.

(** The spanning tree of a graph with a single node and no edge. *)
Lemma minimum_spanning_tree_singleton (x : node) :
  minimum_spanning_tree ({[x := ∅]} : Adj) = {[x := ∅]}.
Proof.
  unfold minimum_spanning_tree, edges_data, edges, keys.
  rewrite map_to_list_singleton. simpl.
  unfold keys. rewrite map_to_list_empty. simpl.
  rewrite decide_True.
  2:{ rewrite map_size_empty, map_size_singleton. done. }
  rewrite filter_cons_True; [|by rewrite degree_lookup, lookup_singleton_eq].
  rewrite filter_nil. simpl. unfold add_node. rewrite lookup_empty.
  apply insert_empty.
Qed.

(** On a connected graph without self-loops, [minimum_spanning_tree]
    returns a spanning tree. *)
Lemma minimum_spanning_tree_spec g :
  undirected g → connected g → g ≠ ∅ → (∀ x, ¬ adjacent g x x) →
  undirected (minimum_spanning_tree g) ∧ is_tree (minimum_spanning_tree g) ∧
  spans (minimum_spanning_tree g) g.
Proof.
  intros Hg Hconn Hne Hirr.
  apply map_choose in Hne as (x & nb & Hx).
  destruct (decide (delete x g = ∅)) as [He|He].
  { assert (Hnb : nb = ∅).
    { apply map_empty. intros y. destruct (nb !! y) eqn:Hy; [|done]. exfalso.
      assert (Hxy : adjacent g x y) by (apply adjacent_lookup; eauto).
      pose proof (adjacent_dom _ _ _ (Hg _ _ Hxy)) as [nby Hy']%elem_of_dom.
      destruct (decide (y = x)) as [->|Hyx]; [by apply (Hirr x)|].
      assert (delete x g !! y = Some nby) as Hd by by rewrite lookup_delete_ne.
      by rewrite He, lookup_empty in Hd. }
    assert (g = {[x := ∅]}) as ->.
    { rewrite <-(insert_delete_id g x nb Hx), He, Hnb. apply insert_empty. }
    rewrite minimum_spanning_tree_singleton.
    destruct (singleton_tree x) as (? & ? & ?).
    split; [done|]. split; [|split; [done|tauto]].
    split; [|done]. unfold number_of_edges. fold (degsum ({[x := ∅]} : Adj)).
    assert (degsum ({[x := ∅]} : Adj) = 0) as ->.
    { assert (({[x := ∅]} : Adj) = add_node ∅ x) as ->.
      { unfold add_node. rewrite lookup_empty. symmetry. apply insert_empty. }
      rewrite degsum_add_node. apply degsum_empty. }
    rewrite map_size_singleton. done. }
  apply map_choose in He as (y & nby & Hy).
  apply lookup_delete_Some in Hy as [Hxy Hy].
  unfold minimum_spanning_tree.
  set (U := keys g). set (es := sorted_by_weight (edges_data g)).
  assert (Hes : ∀ u v d, (u, v, d) ∈ es → adjacent g u v).
  { intros u v d Hin. apply elem_of_sorted_by_weight, elem_of_edges_data in Hin.
    by apply edges_adjacent. }
  assert (HU : ∀ u v d, (u, v, d) ∈ es → u ∈ U ∧ v ∈ U).
  { intros u v d Hadj%Hes. split; apply elem_of_keys, elem_of_dom.
    - by eapply adjacent_dom.
    - eapply adjacent_dom. by apply Hg. }
  destruct (kruskal_spec U es ∅ [] (uf_inv_empty U) HU)
    as (Hj & Hsub & Hcov & uf' & Hinv & Hsize).
  simpl in Hcov, Hinv. set (K := kruskal_mst U es ∅) in *.
  set (T := foldl (λ t e, add_edge_attr t e.1.1 e.1.2 e.2) ∅ K).
  assert (HT : ∀ a b, adjacent T a b ↔ linked K a b).
  { intros a b. unfold T. rewrite adjacent_foldl_add_edge.
    pose proof (adjacent_empty a b). tauto. }
  assert (HTu : undirected T).
  { apply undirected_foldl_add_edge. intros a b Hab.
    by apply adjacent_empty in Hab. }
  assert (HKg : ∀ a b, linked K a b → adjacent g a b).
  { intros a b [d [Hd|Hd]]; [eapply Hes, Hsub, Hd|eapply Hg, Hes, Hsub, Hd]. }
  assert (HgK : ∀ a b, rtc (adjacent g) a b → rtc (linked K) a b).
  { intros a b Hab. induction Hab as [|a b c Hab _ IH]; [done|].
    eapply rtc_trans; [|exact IH].
    destruct (edges_complete g a b Hg Hab) as [Hin|Hin];
      apply edges_data_complete in Hin as [d Hd];
      apply elem_of_sorted_by_weight in Hd.
    - by eapply Hcov.
    - apply rtc_sym; [apply linked_sym|]. by eapply Hcov. }
  assert (Hdom : dom T = dom g).
  { apply set_eq. intros z. unfold T. rewrite dom_foldl_add_edge. split.
    - intros [Hz|[w Hw]]; [by rewrite dom_empty in Hz|].
      eapply adjacent_dom, HKg, Hw.
    - intros Hz. right.
      assert (∃ w, w ∈ dom g ∧ z ≠ w) as (w & Hw & Hzw).
      { destruct (decide (z = x)) as [->|?];
          [exists y|exists x]; split; try done; by apply elem_of_dom. }
      pose proof (HgK _ _ (Hconn z w Hz Hw)) as Hr.
      destruct Hr as [|? w' ? Hl _]; [done|]. by exists w'. }
  assert (Hsz : size T = size g).
  { by rewrite <-!(size_dom (D := gset node)), Hdom. }
  rewrite decide_False by (intros Hc; by apply Hc).
  assert (HKlen : length K + 1 = size g).
  { unfold U in Hsize at 1. rewrite classes_empty, (size_dom (D := gset node)) in Hsize.
    rewrite (classes_connected U uf' K x) in Hsize; [lia|done|..].
    - apply elem_of_keys. eauto.
    - intros z Hz%elem_of_keys%elem_of_dom. apply HgK, Hconn; [|done].
      apply elem_of_dom. eauto. }
  split; [done|]. split; [|split; [done|intros a b ?%HT; by apply HKg]].
  split; [|split].
  - unfold number_of_edges. fold (degsum T). unfold T.
    rewrite (degsum_foldl_add_edge K []); [| |
      |done].
    + rewrite degsum_empty.
      replace (0 + 2 * length K) with (length K * 2) by lia.
      rewrite Nat.div_mul by done. fold T. lia.
    + intros a b Hab. by apply adjacent_empty in Hab.
    + intros a b. pose proof (adjacent_empty a b).
      pose proof (linked_nil a b). tauto.
  - intros a b Ha Hb. rewrite Hdom in Ha, Hb.
    eapply rtc_subrel; [intros ??; apply HT|]. by apply HgK, Hconn.
  - apply forest_acyclic; [done|].
    eapply forest_equiv; [intros a b; symmetry; apply HT|].
    apply (joins_forest K []); [|done].
    intros a b Hab. by apply linked_nil in Hab.
Qed.

End kruskal4.

(** ** The constructors, propose and reject *)

Section seed.
Context `{Countable node}.
Local Abbreviation Adj := (gmap node (gmap node attr)).
Implicit Types g : Adj.
Implicit Types w : world (node:=node).

(** X1. On a base graph that is connected, without self-loops and not
    empty, [LDST] returns, the value of its stochastic is a new object
    holding a spanning tree of the base graph, and the base graph is
    where it was: the sampler starts in a state of the tree invariant. *)
Theorem LDST_starts_at_spanning_tree G d beta w b :
  heap w !! G = Some b →
  undirected (adj b) → connected (adj b) → adj b ≠ ∅ →
  (∀ x, ¬ adjacent (adj b) x x) →
  ∃ s w' t,
    LDST G d beta w = Ok (s, w') ∧
    heap w !! value s = None ∧ heap w' = <[value s := t]> (heap w) ∧
    base_graph t = Some G ∧
    spans (adj t) (adj b) ∧
    tree_state (mkSTMetropolis s) w'.
Proof.
  intros HG Hu Hc Hne Hirr.
  destruct (minimum_spanning_tree_spec (adj b) Hu Hc Hne Hirr)
    as (HTu & HTt & HTs).
  unfold LDST, deref. rewrite HG. cbn.
  eexists _, _, _. split; [reflexivity|]. cbn.
  split; [apply not_elem_of_dom, is_fresh|]. split; [reflexivity|].
  split; [reflexivity|]. split; [exact HTs|].
  eexists. cbn. rewrite lookup_insert_eq. split; [reflexivity|]. by split.
Qed.

(** X2. The same for [BDST], whatever the root and the bound. *)
Theorem BDST_starts_at_spanning_tree G root k beta w b :
  heap w !! G = Some b →
  undirected (adj b) → connected (adj b) → adj b ≠ ∅ →
  (∀ x, ¬ adjacent (adj b) x x) →
  ∃ s w' t,
    BDST G root k beta w = Ok (s, w') ∧
    heap w !! value s = None ∧ heap w' = <[value s := t]> (heap w) ∧
    base_graph t = Some G ∧
    spans (adj t) (adj b) ∧
    tree_state (mkSTMetropolis s) w'.
Proof.
  intros HG Hu Hc Hne Hirr.
  destruct (minimum_spanning_tree_spec (adj b) Hu Hc Hne Hirr)
    as (HTu & HTt & HTs).
  unfold BDST, deref. rewrite HG. cbn.
  eexists _, _, _. split; [reflexivity|]. cbn.
  split; [apply not_elem_of_dom, is_fresh|]. split; [reflexivity|].
  split; [reflexivity|]. split; [exact HTs|].
  eexists. cbn. rewrite lookup_insert_eq. split; [reflexivity|]. by split.
Qed.

End seed.

Section edge_cases.
Context `{Countable node}.
Local Abbreviation Adj := (gmap node (gmap node attr)).
Implicit Types g : Adj.
Implicit Types w : world (node:=node).
Implicit Types t b : Graph (node:=node).
Implicit Types self : STMetropolis (node:=node).

Lemma selects_elem_of (es : list (node * node)) m e : selects es m e → e ∈ es.
Proof. unfold selects. apply list_elem_of_lookup_2. Qed.

(** X3. [propose] stays inside the base graph: when the tree spans the
    base graph, the candidate that [propose] leaves behind has the same
    nodes and only edges of the base graph. *)
Theorem propose_stays_in_base_graph self w self' w' t G b :
  heap w !! value (stochastic self) = Some t → undirected (adj t) →
  base_graph t = Some G → heap w !! G = Some b → undirected (adj b) →
  spans (adj t) (adj b) →
  propose self w = Ok (self', w') →
  ∃ t', heap w' !! value (stochastic self') = Some t' ∧
        base_graph t' = Some G ∧ spans (adj t') (adj b).
Proof.
  intros Ht Hg HG Hb Hbu [Hdom Hsub] Hp.
  apply propose_inv in Hp as (t0 & e0 & es & ds & G0 & ga & u & v & p & m & a &
    b0 & g1 & Ht0 & He0 & HG0 & Hga & Hgen & Hnp & Hsel & Hes & Huv & Hp & Hlen &
    Ha & Hb0 & Hr & -> & Hheap).
  rewrite Ht in Ht0. injection Ht0 as <-.
  rewrite HG in HG0. injection HG0 as <-.
  rewrite Hb in Hga. injection Hga as <-.
  destruct (swap_facts (adj t) u v p _ a b0 Hg Huv Hp Hlen Ha Hb0)
    as (Hab & Hne & Hne' & Hu & Hv & _).
  exists (swapped t u v p a b0 g1). cbn.
  rewrite Hheap, lookup_insert_eq. split; [done|]. split; [by destruct t|].
  assert (Huvb : adjacent (adj b) u v).
  { apply Forall2_app_inv_r in Hsel as (ds1 & ds2 & _ & Hlast & _).
    apply Forall2_cons_inv_r in Hlast as (m' & ? & Hm' & _ & _).
    by apply selects_elem_of, edges_adjacent in Hm'. }
  split.
  - unfold add_edge. rewrite dom_add_edge, (dom_remove_edge _ _ _ _ Hr).
    rewrite <-Hdom. set_solver.
  - intros x y. unfold add_edge. rewrite adjacent_add_edge.
    rewrite (adjacent_remove_edge _ _ _ _ _ _ Hr).
    intros [[Hxy _]|[[-> ->]|[-> ->]]]; [by apply Hsub|done|by apply Hbu].
Qed.

(** X4. What [propose] leaves alone: every object of the heap but the
    tree, and numpy's generator; of the random module it takes at least
    two draws, one for the edge to add and one for the edge to remove. *)
Theorem propose_frame self w self' w' :
  propose self w = Ok (self', w') →
  (∀ r, r ≠ value (stochastic self) → heap w' !! r = heap w !! r) ∧
  np_gen w' = np_gen w ∧
  ∃ ds, gen w = ds ++ gen w' ∧ 2 ≤ length ds.
Proof.
  intros Hp.
  apply propose_inv in Hp as (t0 & e0 & es & ds & G0 & ga & u & v & p & m & a &
    b0 & g1 & Ht0 & He0 & HG0 & Hga & Hgen & Hnp & Hsel & Hes & Huv & Hp & Hlen &
    Ha & Hb0 & Hr & -> & Hheap).
  split; [|split; [done|]].
  - intros r Hr'. by rewrite Hheap, lookup_insert_ne.
  - exists (ds ++ [m]). rewrite <-(assoc_L (++)). split; [done|].
    apply Forall2_length in Hsel. rewrite !length_app in *. simpl in *. lia.
Qed.


(** X5. [reject] reads the edge that the last [propose] removed: on the
    tree that [LDST] or [BDST] has just built, which no [propose] has
    touched, the attribute is missing and the call raises
    AttributeError. *)
Theorem reject_before_propose_raises G root k d beta w s w' :
  LDST G d beta w = Ok (s, w') ∨ BDST G root k beta w = Ok (s, w') →
  reject (mkSTMetropolis s) w' = Raise "AttributeError".
Proof.
  unfold LDST, BDST, deref.
  destruct (heap w !! G) as [b|]; cbn; [|by intros [?|?]].
  intros [E|E]; injection E as <- <-; unfold reject, deref; cbn;
    by rewrite lookup_insert_eq.
Qed.

(** X6. [propose] starts from the first edge of the tree: on a tree
    without edges, a single node, it raises IndexError. *)
Theorem propose_without_edges_raises self w t :
  heap w !! value (stochastic self) = Some t →
  (∀ x y, ¬ adjacent (adj t) x y) →
  propose self w = Raise "IndexError".
Proof.
  intros Ht Hno. unfold propose. rewrite (deref_Some _ _ _ Ht), bind_ret.
  destruct (edges (adj t)) as [|[x y] l] eqn:He; [done|].
  exfalso. apply (Hno x y), edges_adjacent. rewrite He. left.
Qed.

End edge_cases.

Section edge_cases2.
Context `{Countable node}.
Local Abbreviation Adj := (gmap node (gmap node attr)).
Implicit Types g : Adj.
Implicit Types w : world (node:=node).
Implicit Types t b : Graph (node:=node).
Implicit Types self : STMetropolis (node:=node).

Lemma choice_total {A} (l : list A) m r :
  l ≠ [] → ∃ e, e ∈ l ∧ choice l (m :: r) = Ok (e, r).
Proof.
  intros Hl. destruct (unit_float_range m) as [H0 H1].
  assert (Hlen : 0 < length l) by (destruct l; [done|simpl; lia]).
  pose proof (scaled_index_lt (unit_float m) (length l) H0 H1 Hlen) as Hi.
  destruct (lookup_lt_is_Some_2 l _ Hi) as [e He]. exists e.
  split; [by eapply list_elem_of_lookup_2|].
  unfold choice, random. rewrite bind_ret. cbn beta iota.
  unfold getitem. by rewrite He.
Qed.

(** The loop of [propose] has no exit while every edge of the base
    graph is in the tree. *)
Lemma resample_diverges ds : ∀ fuel T w t u0 v0 G ga,
  heap w !! T = Some t → u_new t = Some u0 → v_new t = Some v0 →
  has_edge (adj t) u0 v0 = true →
  base_graph t = Some G → adj <$> (heap w !! G) = Some ga →
  edges ga ≠ [] →
  (∀ e, e ∈ edges ga → has_edge (adj t) e.1 e.2 = true) →
  gen w = ds → length ds < fuel →
  resample fuel T w = Diverge.
Proof.
  induction ds as [|m ds IH];
    intros fuel T w t u0 v0 G ga Ht Hu Hv Hin HG Hga Hne Hall Hgen Hfuel;
    rewrite resample_unfold, (deref_Some _ _ _ Ht), bind_ret, Hu, Hv;
    cbn [getattr]; rewrite !bind_ret, Hin;
    (destruct fuel as [|fuel]; [simpl in Hfuel; lia|]);
    rewrite HG; cbn [getattr]; rewrite bind_ret;
    destruct (heap w !! G) as [gb|] eqn:HGb; simplify_eq/=;
    rewrite (deref_Some _ _ _ HGb), bind_ret, Hgen.
  - done.
  - destruct (choice_total (edges (adj gb)) m ds Hne) as (e & He & ->).
    rewrite bind_ret. cbn beta iota.
    apply (IH fuel T _ (set_new e t) e.1 e.2 G (adj gb)).
    + cbn. apply lookup_insert_eq.
    + by destruct t.
    + by destruct t.
    + destruct t; cbn. by apply Hall.
    + by destruct t.
    + cbn. destruct (decide (G = T)) as [->|Hn].
      * rewrite lookup_insert_eq. rewrite Ht in HGb. injection HGb as <-.
        by destruct t.
      * rewrite lookup_insert_ne by done. by rewrite HGb.
    + done.
    + intros e' He'. destruct t; cbn. by apply Hall.
    + done.
    + lia.
Qed.

(** X7. When every edge of the base graph is in the tree, as it is when
    the base graph is itself a tree, [propose] never returns: its loop
    draws edges of the base graph until one is not in the tree, and
    goes on however many draws it is given. *)
Theorem propose_never_returns_inside_tree self w t G b :
  heap w !! value (stochastic self) = Some t → undirected (adj t) →
  base_graph t = Some G → heap w !! G = Some b →
  edges (adj b) ≠ [] →
  (∀ x y, adjacent (adj b) x y → adjacent (adj t) x y) →
  propose self w = Diverge.
Proof.
  intros Ht Hg HG Hb Hne Hsub. unfold propose. cbn zeta.
  rewrite (deref_Some _ _ _ Ht), bind_ret.
  destruct (edges (adj t)) as [|e0 es0] eqn:He0.
  { exfalso. destruct (edges (adj b)) as [|[x y] l] eqn:Hl; [done|].
    assert (Hxy : adjacent (adj t) x y).
    { apply Hsub, edges_adjacent. rewrite Hl. left. }
    destruct (edges_complete _ _ _ Hg Hxy) as [Hin|Hin];
      rewrite He0 in Hin; by apply elem_of_nil in Hin. }
  change (getitem (e0 :: es0) 0) with (Ok e0 : outcome (node * node)).
  rewrite bind_ret.
  assert (He0t : has_edge (adj t) e0.1 e0.2 = true).
  { apply edges_adjacent. rewrite He0. destruct e0. left. }
  rewrite (resample_diverges (gen w) _ _ _ (set_new e0 t) e0.1 e0.2 G (adj b));
    [done|..].
  - cbn. apply lookup_insert_eq.
  - by destruct t.
  - by destruct t.
  - by destruct t.
  - by destruct t.
  - cbn. destruct (decide (G = value (stochastic self))) as [->|Hn].
    + rewrite lookup_insert_eq. rewrite Ht in Hb. injection Hb as <-.
      by destruct t.
    + rewrite lookup_insert_ne by done. by rewrite Hb.
  - done.
  - intros [x y] He. destruct t; cbn in *. by apply Hsub, edges_adjacent.
  - done.
  - cbn. lia.
Qed.

(** X8. A self-loop of the base graph stops [propose]: when the loop
    draws it, the path between its ends is a single node and
    [randrange] is called on an empty range. *)
Theorem propose_self_loop_raises self w t G ga ds es m u rest :
  heap w !! value (stochastic self) = Some t → edges (adj t) ≠ [] →
  base_graph t = Some G → adj <$> (heap w !! G) = Some ga →
  gen w = ds ++ m :: rest →
  Forall2 (selects (edges ga)) ds es →
  Forall (λ e, has_edge (adj t) e.1 e.2 = true) es →
  selects (edges ga) m (u, u) → has_edge (adj t) u u = false →
  propose self w = Raise "ValueError".
Proof.
  intros Ht Hedges HG Hga Hgen Hsel Hes Hm Huu.
  unfold propose. cbn zeta. set (T := value (stochastic self)) in *.
  rewrite (deref_Some _ _ _ Ht), bind_ret.
  destruct (edges (adj t)) as [|e0 es0] eqn:He0; [done|].
  change (getitem (e0 :: es0) 0) with (Ok e0 : outcome (node * node)).
  rewrite bind_ret.
  assert (He0t : has_edge (adj t) e0.1 e0.2 = true).
  { apply edges_adjacent. rewrite He0. destruct e0. left. }
  erewrite (resample_returns ds _ T (store T (set_new e0 t) w) (set_new e0 t)
              e0.1 e0.2 G ga es m (u, u) rest).
  2:{ cbn [store heap]. by rewrite lookup_insert_eq. }
  2-3: by destruct t.
  2:{ by destruct t. }
  2:{ by destruct t. }
  2:{ cbn [store heap]. destruct (decide (G = T)) as [->|Hn].
      - rewrite lookup_insert_eq. rewrite Ht in Hga. injection Hga as <-.
        by destruct t.
      - by rewrite lookup_insert_ne. }
  2:{ done. }
  2:{ done. }
  2:{ by destruct t. }
  2:{ done. }
  2:{ by destruct t. }
  2:{ cbn [store gen]. rewrite Hgen, length_app. simpl. lia. }
  rewrite bind_ret. cbn [store heap gen np_gen].
  rewrite insert_insert_eq.
  rewrite (deref_Some _ T (set_new (u, u) (set_new e0 t)))
    by apply lookup_insert_eq.
  rewrite bind_ret.
  assert (Hn : u_new (set_new (u, u) (set_new e0 t)) = Some u ∧
               v_new (set_new (u, u) (set_new e0 t)) = Some u ∧
               adj (set_new (u, u) (set_new e0 t)) = adj t) by (by destruct t).
  destruct Hn as (Hnu & Hnv & Hna). rewrite Hnu, Hnv. cbn [getattr].
  rewrite !bind_ret, Hna.
  unfold shortest_path. rewrite decide_True by done. rewrite bind_ret.
  done.
Qed.

(** X9. The energy of [BDST] needs the root in the tree: on a
    well-formed tree the function returns a number when the root is a
    node of the tree, and raises KeyError when it is not. *)
Theorem bdst_needs_root (h : gmap ref (Graph (node:=node))) value V root k beta :
  h !! value = Some V → undirected (adj V) →
  (root ∈ dom (adj V) → ∃ q, bdst h value root k beta = Ok q) ∧
  (root ∉ dom (adj V) → bdst h value root k beta = Raise "KeyError").
Proof.
  intros HV Hg. split.
  - intros Hroot.
    destruct (bdst_score h value V root k beta HV Hg Hroot) as (far & _ & _ & E).
    eauto.
  - intros Hroot%not_elem_of_dom. unfold bdst.
    rewrite (deref_Some _ _ _ HV), bind_ret.
    unfold shortest_path_length. cbn [length_loop].
    rewrite elements_singleton. rewrite decide_False by done.
    cbn [length_level]. rewrite lookup_empty.
    rewrite decide_False by (by intros []).
    unfold nbrs_of. by rewrite Hroot.
Qed.

Lemma remove_edge_missing g u v :
  has_edge g u v = false → remove_edge g u v = Raise "NetworkXError".
Proof.
  unfold has_edge, remove_edge, delitem. cbn zeta.
  destruct (g !! u) as [nu|]; [|done]. cbn.
  intros Hn%bool_decide_eq_false. destruct (nu !! v); [|done].
  exfalso. apply Hn. eauto.
Qed.

(** X10. [reject] undoes one [propose] and no more: a second [reject]
    in a row finds the added edge already gone, and [remove_edge]
    raises NetworkXError. *)
Theorem reject_twice_raises self w self1 w1 self2 w2 t :
  heap w !! value (stochastic self) = Some t → undirected (adj t) →
  propose self w = Ok (self1, w1) →
  reject self1 w1 = Ok (self2, w2) →
  reject self2 w2 = Raise "NetworkXError".
Proof.
  intros Ht Hg Hp Hr1.
  apply propose_inv in Hp as (t0 & e0 & es & ds & G0 & ga & u & v & p & m & a &
    b0 & g1 & Ht0 & He0 & HG0 & Hga & Hgen & Hnp & Hsel & Hes & Huv & Hp & Hlen &
    Ha & Hb0 & Hr & -> & Hheap).
  rewrite Ht in Ht0. injection Ht0 as <-.
  destruct (unswap (adj t) u v p _ a b0 g1 Hg Huv Hp Hlen Ha Hb0 Hr)
    as (g3 & Hg3 & Hadj & Hdom & Hdeg).
  destruct (swap_facts (adj t) u v p _ a b0 Hg Huv Hp Hlen Ha Hb0)
    as (Hab & Hne & Hne' & Hu & Hv & Hnuv & Hnvu & _).
  rewrite (reject_swapped _ _ t u v p a b0 g1) in Hr1;
    [|cbn; by rewrite Hheap, lookup_insert_eq].
  rewrite Hg3, bind_ret in Hr1. injection Hr1 as <- <-.
  unfold reject. cbn.
  rewrite (deref_Some _ _ (set_adj g3 (swapped t u v p a b0 g1)))
    by apply lookup_insert_eq.
  rewrite bind_ret. cbn. rewrite remove_edge_missing; [done|].
  apply not_true_is_false. unfold add_edge.
  change (¬ adjacent (add_edge_attr g3 a b0 None) u v).
  rewrite adjacent_add_edge. unfold adjacent. rewrite Hadj.
  intros [?|[[-> ->]|[-> ->]]]; [congruence|by apply Hnuv|by apply Hnvu, Hg].
Qed.

End edge_cases2.

(** ** The energies and the depth *)

Section energies.
Context `{Countable node}.
Local Abbreviation Adj := (gmap node (gmap node attr)).
Implicit Types g : Adj.
Implicit Types h : gmap ref (Graph (node:=node)).

Lemma foldl_max_spec l : ∀ n,
  (foldl Nat.max n l = n ∨ foldl Nat.max n l ∈ l) ∧
  n ≤ foldl Nat.max n l ∧ ∀ x, x ∈ l → x ≤ foldl Nat.max n l.
Proof.
  induction l as [|a l IH]; intros n; simpl.
  - split; [by left|]. split; [done|]. by intros x ?%elem_of_nil.
  - destruct (IH (n `max` a)) as (Hin & Hle & Hall). split; [|split].
    + destruct Hin as [->|Hin]; [|right; by right].
      destruct (Nat.max_spec n a) as [[_ ->]|[_ ->]]; [right; left|by left].
    + lia.
    + intros x [->|Hx]%elem_of_cons; [lia|by apply Hall].
Qed.

Lemma py_max_spec l m :
  py_max l = Ok m ↔ m ∈ l ∧ ∀ x, x ∈ l → x ≤ m.
Proof.
  destruct l as [|n l]; simpl.
  - split; [done|]. by intros [?%elem_of_nil _].
  - destruct (foldl_max_spec l n) as (Hin & Hle & Hall). split.
    + intros [= <-]. split.
      * destruct Hin as [->|Hin]; [left|by right].
      * intros x [->|Hx]%elem_of_cons; [done|by apply Hall].
    + intros [Hm Hmax]. f_equal. apply Nat.le_antisymm.
      * apply Hmax. destruct Hin as [->|Hin]; [left|by right].
      * apply elem_of_cons in Hm as [->|Hm]; [done|by apply Hall].
Qed.

Lemma elem_of_values {V} (m : gmap node V) v :
  v ∈ values m ↔ ∃ x, m !! x = Some v.
Proof.
  unfold values. rewrite list_elem_of_fmap. split.
  - intros ([x v'] & -> & Hin%elem_of_map_to_list). eauto.
  - intros [x Hx]. exists (x, v). split; [done|]. by apply elem_of_map_to_list.
Qed.

Lemma max_depth_returns h T V root :
  h !! T = Some V → undirected (adj V) → root ∈ dom (adj V) →
  ∃ lengths m,
    shortest_path_length (adj V) root = Ok lengths ∧
    (∀ x n, lengths !! x = Some n ↔ is_dist (adj V) root x n) ∧
    m ∈ values lengths ∧ (∀ n, n ∈ values lengths → n ≤ m) ∧
    max_depth h T root = Ok m.
Proof.
  intros HV Hg Hroot.
  destruct (shortest_path_length_spec (adj V) root Hg Hroot)
    as (lengths & Hl & Hspec).
  assert (Hr : lengths !! root = Some 0).
  { apply Hspec. split; [constructor|]. intros m ?. lia. }
  exists lengths. unfold max_depth.
  rewrite (deref_Some _ _ _ HV), bind_ret, Hl, bind_ret.
  destruct (py_max (values lengths)) as [m| |] eqn:Hm.
  - exists m. apply py_max_spec in Hm as [Hin Hmax]. done.
  - exfalso. destruct (values lengths) as [|n l] eqn:Hv; [|done].
    assert (Hin : 0 ∈ values lengths) by (apply elem_of_values; eauto).
    rewrite Hv in Hin. by apply elem_of_nil in Hin.
  - exfalso. by destruct (values lengths).
Qed.

(** X11. [max_depth] is the depth of the tree seen from the root: the
    greatest distance of a node from the root. *)
Theorem max_depth_greatest_distance h T V root :
  h !! T = Some V → undirected (adj V) → root ∈ dom (adj V) →
  ∃ m, max_depth h T root = Ok m ∧
       (∃ x, is_dist (adj V) root x m) ∧
       ∀ x n, is_dist (adj V) root x n → n ≤ m.
Proof.
  intros HV Hg Hroot.
  destruct (max_depth_returns h T V root HV Hg Hroot)
    as (lengths & m & Hl & Hspec & Hin & Hmax & Hm).
  exists m. split; [done|]. split.
  - apply elem_of_values in Hin as [x Hx]. exists x. by apply Hspec.
  - intros x n Hd%Hspec. apply Hmax, elem_of_values. eauto.
Qed.

Lemma count_gt_zero k l :
  count_gt k l = 0 ↔ ∀ n, n ∈ l → (Z.of_nat n ≤ k)%Z.
Proof.
  unfold count_gt. induction l as [|a l IH]; simpl.
  - split; [by intros _ n ?%elem_of_nil|done].
  - destruct (decide (k < Z.of_nat a)%Z) as [Hk|Hk].
    + rewrite filter_cons_True by done. simpl. split; [done|].
      intros Hall. specialize (Hall a (list_elem_of_here _ _)). lia.
    + rewrite filter_cons_False by done. rewrite IH. split.
      * intros Hall n [->|?]%elem_of_cons; [lia|by apply Hall].
      * intros Hall n ?. apply Hall. by right.
Qed.

Lemma neg_beta_times_zero beta n :
  ¬ (beta == 0)%Q → (neg_beta_times beta n == 0)%Q ↔ n = 0.
Proof.
  intros Hb. unfold neg_beta_times. split.
  - intros Hq. destruct (decide (n = 0)) as [|Hn]; [done|]. exfalso.
    apply Qmult_integral in Hq as [Hq|Hq].
    + apply Hb. rewrite <-(Qopp_involutive beta), Hq. done.
    + unfold Qeq in Hq. simpl in Hq. lia.
  - intros ->. simpl. ring.
Qed.

(** X12. The energy of [BDST] and [max_depth] agree: with a [beta]
    that is not zero, the energy is zero exactly when the depth of the
    tree is within the bound [k]. *)
Theorem bdst_zero_iff_depth_bounded h T V root k beta :
  h !! T = Some V → undirected (adj V) → root ∈ dom (adj V) →
  ¬ (beta == 0)%Q →
  ∃ q m, bdst h T root k beta = Ok q ∧ max_depth h T root = Ok m ∧
         ((q == 0)%Q ↔ (Z.of_nat m ≤ k)%Z).
Proof.
  intros HV Hg Hroot Hb.
  destruct (max_depth_returns h T V root HV Hg Hroot)
    as (lengths & m & Hl & Hspec & Hin & Hmax & Hm).
  unfold bdst. rewrite (deref_Some _ _ _ HV), bind_ret, Hl, bind_ret.
  eexists _, m. split; [done|]. split; [done|].
  rewrite (neg_beta_times_zero _ _ Hb), count_gt_zero. split.
  - intros Hall. by apply Hall.
  - intros Hk n Hn%Hmax. lia.
Qed.

Lemma length_filter_le {A} (P : A → Prop) `{!∀ x, Decision (P x)} (l : list A) :
  length (filter P l) ≤ length l.
Proof.
  induction l as [|a l IH]; [done|].
  destruct (decide (P a)); [rewrite filter_cons_True by done
                           |rewrite filter_cons_False by done]; simpl; lia.
Qed.

Lemma length_values {V} (m : gmap node V) : length (values m) = size m.
Proof. unfold values. by rewrite length_fmap, length_map_to_list. Qed.

Lemma neg_beta_times_range beta n m :
  (0 <= beta)%Q → n ≤ m →
  (neg_beta_times beta m <= neg_beta_times beta n)%Q ∧
  (neg_beta_times beta n <= 0)%Q.
Proof.
  intros Hb Hnm. unfold neg_beta_times.
  assert (H0 : (0 <= inject_Z (Z.of_nat n))%Q).
  { unfold Qle. simpl. lia. }
  assert (H1 : (inject_Z (Z.of_nat n) <= inject_Z (Z.of_nat m))%Q).
  { unfold Qle. simpl. lia. }
  assert (E : ∀ x, (- beta * x == - (beta * x))%Q) by (intros; ring).
  rewrite !E. split.
  - apply Qopp_le_compat. rewrite !(Qmult_comm beta).
    by apply Qmult_le_compat_r.
  - assert (E0 : (0 == - 0)%Q) by ring. rewrite E0.
    apply Qopp_le_compat. by apply Qmult_le_0_compat.
Qed.

(** X13. With [beta] not negative, the two energies lie between
    [- beta] times the number of nodes of the tree and zero. *)
Theorem energy_range h T V root k d beta value :
  h !! T = Some V → undirected (adj V) → root ∈ dom (adj V) →
  (0 <= beta)%Q →
  ∃ q q', bdst h T root k beta = Ok q ∧ ldst T d h value beta = Ok q' ∧
    (neg_beta_times beta (size (adj V)) <= q)%Q ∧ (q <= 0)%Q ∧
    (neg_beta_times beta (size (adj V)) <= q')%Q ∧ (q' <= 0)%Q.
Proof.
  intros HV Hg Hroot Hb.
  destruct (shortest_path_length_spec (adj V) root Hg Hroot)
    as (lengths & Hl & Hspec).
  unfold bdst, ldst. rewrite (deref_Some _ _ _ HV), !bind_ret, Hl, bind_ret.
  eexists _, _. split; [done|]. split; [done|].
  assert (Hsz : size lengths ≤ size (adj V)).
  { rewrite <-!(size_dom (D := gset node)). apply subseteq_size.
    intros x [n Hn]%elem_of_dom. apply Hspec in Hn as [Hn _].
    by eapply walk_len_dom. }
  assert (H1 : count_gt k (values lengths) ≤ size (adj V)).
  { unfold count_gt. etrans; [apply length_filter_le|].
    by rewrite length_values. }
  assert (H2 : count_ge d (values (degree (adj V))) ≤ size (adj V)).
  { unfold count_ge. etrans; [apply length_filter_le|].
    rewrite length_values. unfold degree.
    rewrite <-!(size_dom (D := gset node)). apply subseteq_size.
    intros x [n Hn]%elem_of_dom. rewrite map_lookup_imap in Hn.
    apply elem_of_dom. destruct (adj V !! x); [eauto|done]. }
  destruct (neg_beta_times_range beta _ _ Hb H1).
  destruct (neg_beta_times_range beta _ _ Hb H2). done.
Qed.

End energies.

(** ** Path graphs *)

Section path_graphs.
Context `{Countable node}.
Local Abbreviation Adj := (gmap node (gmap node attr)).
Implicit Types g : Adj.
Implicit Types p l : list node.

Lemma pairs_cons x y l : pairs (x :: y :: l) = (x, y) :: pairs (y :: l).
Proof. unfold pairs. simpl. by rewrite Nat.sub_0_r. Qed.

Lemma pairs_short l : length l < 2 → pairs l = [].
Proof. destruct l as [|x [|y l]]; simpl; [done..|lia]. Qed.

Lemma elem_of_pairs l x y : (x, y) ∈ pairs l ↔ next_in l x y.
Proof.
  unfold next_in. induction l as [|a [|b l] IH].
  - split; [by intros ?%elem_of_nil|]. by intros (i & ? & _).
  - split; [by intros ?%elem_of_nil|]. intros ([|i] & _ & ?); done.
  - rewrite pairs_cons, elem_of_cons, IH. split.
    + intros [[= -> ->]|(i & ? & ?)]; [by exists 0|by exists (S i)].
    + intros ([|i] & Hx & Hy); simpl in *; [left; congruence|right; eauto].
Qed.

Lemma pairs_snoc l x y :
  pairs (l ++ [x; y]) = pairs (l ++ [x]) ++ [(x, y)].
Proof.
  induction l as [|a [|b l] IH]; [done..|].
  change ((a :: b :: l) ++ [x; y]) with (a :: b :: (l ++ [x; y])).
  change ((a :: b :: l) ++ [x]) with (a :: b :: (l ++ [x])).
  rewrite !pairs_cons. simpl. f_equal. exact IH.
Qed.

Lemma adjacent_foldl_add_edge_pairs (es : list (node * node)) : ∀ g x y,
  adjacent (foldl (λ g e, add_edge g e.1 e.2) g es) x y ↔
  adjacent g x y ∨ (x, y) ∈ es ∨ (y, x) ∈ es.
Proof.
  induction es as [|[u v] es IH]; intros g x y; simpl.
  - split; [by left|]. intros [?|[?%elem_of_nil|?%elem_of_nil]]; done.
  - rewrite IH. unfold add_edge. rewrite adjacent_add_edge, !elem_of_cons.
    naive_solver.
Qed.

Lemma dom_foldl_add_edge_pairs (es : list (node * node)) : ∀ g x,
  x ∈ dom (foldl (λ g e, add_edge g e.1 e.2) g es) ↔
  x ∈ dom g ∨ ∃ y, (x, y) ∈ es ∨ (y, x) ∈ es.
Proof.
  induction es as [|[u v] es IH]; intros g x; simpl.
  - split; [by left|]. intros [?|[y [?%elem_of_nil|?%elem_of_nil]]]; done.
  - rewrite IH. unfold add_edge. rewrite dom_add_edge.
    rewrite !elem_of_union, !elem_of_singleton.
    setoid_rewrite elem_of_cons. split.
    + intros [[[->| ->]|?]|[y [?|?]]]; eauto 7.
    + intros [?|[y [[[= -> ->]|?]|[[= -> ->]|?]]]]; eauto 7.
Qed.

Lemma adjacent_my_path_graph p x y :
  adjacent (my_path_graph p) x y ↔ next_in p x y ∨ next_in p y x.
Proof.
  unfold my_path_graph, add_path.
  rewrite adjacent_foldl_add_edge_pairs, !elem_of_pairs.
  pose proof (adjacent_empty x y). tauto.
Qed.

Lemma dom_my_path_graph p x :
  x ∈ dom (my_path_graph p) ↔ 2 ≤ length p ∧ x ∈ p.
Proof.
  unfold my_path_graph, add_path.
  rewrite dom_foldl_add_edge_pairs, dom_empty.
  setoid_rewrite elem_of_pairs. unfold next_in. split.
  - intros [?%elem_of_empty|[y [(i & Hx & Hy)|(i & Hy & Hx)]]]; [done|..];
      (split; [apply lookup_lt_Some in Hy, Hx; lia|by eapply list_elem_of_lookup_2]).
  - intros [Hlen (i & Hi)%list_elem_of_lookup]. right.
    destruct (decide (S i < length p)) as [Hlt|Hge].
    + destruct (lookup_lt_is_Some_2 p (S i) Hlt) as [y Hy]. exists y. left. eauto.
    + destruct i as [|i]; [apply lookup_lt_Some in Hi; lia|].
      destruct (lookup_lt_is_Some_2 p i) as [y Hy];
        [apply lookup_lt_Some in Hi; lia|].
      exists y. right. eauto.
Qed.

Lemma my_path_graph_short p : length p < 2 → my_path_graph p = ∅.
Proof. intros Hlen. unfold my_path_graph, add_path. by rewrite pairs_short. Qed.

(** X14. The graph of a path: two nodes are adjacent exactly when they
    are next to each other in the list, and the nodes are those of the
    list; a list of fewer than two nodes gives no pair, and the graph
    has no node at all. *)
Theorem my_path_graph_spec p :
  (∀ x y, adjacent (my_path_graph p) x y ↔ next_in p x y ∨ next_in p y x) ∧
  (∀ x, x ∈ dom (my_path_graph p) ↔ 2 ≤ length p ∧ x ∈ p) ∧
  (length p < 2 → my_path_graph p = ∅).
Proof.
  split; [apply adjacent_my_path_graph|].
  split; [apply dom_my_path_graph|apply my_path_graph_short].
Qed.

End path_graphs.

Section path_trees.
Context `{Countable node}.
Local Abbreviation Adj := (gmap node (gmap node attr)).
Implicit Types g : Adj.
Implicit Types p l : list node.

Lemma add_edge_empty (x y : node) :
  add_edge (∅ : Adj) x y = add_edge {[x := ∅]} x y.
Proof.
  apply map_eq. intros z. unfold add_edge. rewrite !add_edge_attr_lookup.
  cbn zeta. rewrite !lookup_empty, lookup_singleton_eq. cbn.
  rewrite lookup_empty. cbn.
  destruct (decide (x = y)) as [->|Hxy].
  - rewrite lookup_singleton_eq. cbn. repeat case_decide; try done.
    by rewrite lookup_singleton_ne.
  - rewrite (lookup_singleton_ne x y) by done. cbn.
    repeat case_decide; try done. by rewrite lookup_singleton_ne.
Qed.

Lemma my_path_graph_snoc l x y :
  my_path_graph (l ++ [x; y]) = add_edge (my_path_graph (l ++ [x])) x y.
Proof.
  unfold my_path_graph, add_path. by rewrite pairs_snoc, foldl_app.
Qed.

Lemma undirected_no_edge : undirected (∅ : Adj).
Proof. intros x y Hxy. by apply adjacent_empty in Hxy. Qed.

Lemma path_tree_step g x y :
  undirected g → connected g → acyclic g → x ∈ dom g → y ∉ dom g →
  undirected (add_edge g x y) ∧ connected (add_edge g x y) ∧
  acyclic (add_edge g x y) ∧ degsum (add_edge g x y) = degsum g + 2.
Proof.
  intros Hg Hc Hac Hx Hy.
  destruct (leaf_tree g x y Hg Hc Hac Hx Hy) as (? & ? & ?).
  repeat split; try done. unfold add_edge.
  apply degsum_add_edge_attr; [done|by intros ->|].
  intros Hxy. by apply Hy, (adjacent_dom g y x), Hg.
Qed.

Lemma my_path_graph_simple p :
  NoDup p → 2 ≤ length p →
  undirected (my_path_graph p) ∧ connected (my_path_graph p) ∧
  acyclic (my_path_graph p) ∧
  degsum (my_path_graph p) + 2 = 2 * length p.
Proof.
  induction p as [|y q IH] using rev_ind; [simpl; lia|].
  intros Hnd Hlen. destruct q as [|x l _] using rev_ind.
  { simpl in Hlen. lia. }
  rewrite <-(assoc_L (++)) in Hnd |- *. simpl in Hnd |- *.
  rewrite my_path_graph_snoc.
  assert (Hnd' : NoDup (l ++ [x])).
  { change (l ++ [x; y]) with (l ++ [x] ++ [y]) in Hnd.
    rewrite (assoc_L (++) l [x] [y]) in Hnd. by apply NoDup_app in Hnd as [? _]. }
  assert (Hxy : x ≠ y ∧ y ∉ l).
  { apply NoDup_app in Hnd as (_ & Hd & Hxy). apply NoDup_cons in Hxy as [Hxy _].
    split; [intros ->; apply Hxy; left|]. intros Hy. apply (Hd y Hy).
    right. left. }
  destruct Hxy as [Hxy Hyl]. rewrite !length_app. simpl.
  destruct l as [|a l].
  - change (my_path_graph ([] ++ [x])) with (∅ : Adj).
    rewrite add_edge_empty.
    destruct (singleton_tree x) as (H1 & H2 & H3).
    destruct (path_tree_step {[x := ∅]} x y H1 H2 H3) as (? & ? & ? & Hd);
      [rewrite dom_singleton_L; set_solver..|].
    repeat split; try done. rewrite Hd.
    assert (degsum ({[x := ∅]} : Adj) = 0) as ->; [|simpl; lia].
    assert (({[x := ∅]} : Adj) = add_node ∅ x) as ->.
    { unfold add_node. rewrite lookup_empty. symmetry. apply insert_empty. }
    rewrite degsum_add_node. apply degsum_empty.
  - destruct IH as (H1 & H2 & H3 & H4); [done|rewrite length_app; simpl; lia|].
    pose proof (dom_my_path_graph ((a :: l) ++ [x])) as Hdom.
    destruct (path_tree_step (my_path_graph ((a :: l) ++ [x])) x y H1 H2 H3)
      as (? & ? & ? & Hd).
    + apply Hdom. split; [rewrite length_app; simpl; lia|]. set_solver.
    + intros [_ Hy]%Hdom. apply elem_of_app in Hy as [Hy|Hy%list_elem_of_singleton];
        [by apply Hyl|by apply Hxy].
    + repeat split; try done. rewrite Hd. rewrite length_app in H4.
      simpl in *. lia.
Qed.


Lemma my_path_graph_is_tree p :
  NoDup p → 2 ≤ length p →
  undirected (my_path_graph p) ∧ is_tree (my_path_graph p) ∧
  dom (my_path_graph p) = list_to_set p.
Proof.
  intros Hnd Hlen.
  destruct (my_path_graph_simple p Hnd Hlen) as (Hu & Hc & Hac & Hdeg).
  assert (Hd : dom (my_path_graph p) = list_to_set p).
  { apply set_eq. intros x. rewrite dom_my_path_graph, elem_of_list_to_set.
    tauto. }
  split; [done|]. split; [|done]. split; [|done].
  unfold number_of_edges. fold (degsum (my_path_graph p)).
  rewrite <-(size_dom (D := gset node)), Hd, size_list_to_set by done.
  replace (degsum (my_path_graph p)) with ((length p - 1) * 2) by lia.
  rewrite Nat.div_mul by done. lia.
Qed.

Lemma walk_next_in (R : relation node) p x y :
  walk R p → next_in p x y → R x y.
Proof.
  intros Hw. revert x y.
  induction Hw as [z|z y l Hzy Hw IH]; intros x y' (i & Hx & Hy).
  - by destruct i.
  - destruct i as [|i]; simpl in *; [by simplify_eq|].
    apply IH. by exists i.
Qed.

(** X15. The graph of a path that visits no node twice, over two nodes
    or more, is a tree on the nodes of the path. *)
Theorem my_path_graph_tree p :
  NoDup p → 2 ≤ length p →
  undirected (my_path_graph p) ∧ is_tree (my_path_graph p) ∧
  dom (my_path_graph p) = list_to_set p.
Proof. apply my_path_graph_is_tree. Qed.

(** X16. The solution of a maze: the graph of the path that
    [shortest_path] finds in a graph between two different nodes is a
    tree, made of edges of the graph, and holds both nodes; for a node
    and itself the path is one node long and its graph is empty. *)
Theorem solution_path_graph g a b p :
  undirected g → shortest_path g a b = Ok p →
  (a ≠ b →
     undirected (my_path_graph p) ∧ is_tree (my_path_graph p) ∧
     (∀ x y, adjacent (my_path_graph p) x y → adjacent g x y) ∧
     a ∈ dom (my_path_graph p) ∧ b ∈ dom (my_path_graph p)) ∧
  (a = b → my_path_graph p = ∅).
Proof.
  intros Hg Hp.
  pose proof (shortest_path_walk _ _ _ _ Hp) as (Hh & Hl & Hw & Hnd). split.
  - intros Hab.
    assert (Hlen : 2 ≤ length p).
    { destruct p as [|x [|y p]]; simpl in *; [done| |lia]. congruence. }
    destruct (my_path_graph_is_tree p Hnd Hlen) as (Hu & Ht & _).
    split; [done|]. split; [done|]. split; [|split].
    + intros x y [?|?]%adjacent_my_path_graph;
        [|apply Hg]; by eapply walk_next_in.
    + apply dom_my_path_graph. split; [done|]. destruct p; simplify_eq/=. left.
    + apply dom_my_path_graph. split; [done|]. by apply last_Some_elem_of.
  - intros ->. apply my_path_graph_short. unfold shortest_path in Hp.
    rewrite decide_True in Hp by done. injection Hp as <-. simpl. lia.
Qed.

End path_trees.

(** ** The dual lattice and the maze *)

(** *** Floats that are exact *)

Lemma Q2Qc_eq (a b : Q) : (a == b)%Q → Q2Qc a = Q2Qc b.
Proof.
  intros E. apply Qc_is_canon. simpl. by rewrite !Qred_correct.
Qed.

Lemma Q2Qc_plus (a b : Q) : (Q2Qc a + Q2Qc b)%Qc = Q2Qc (a + b).
Proof.
  apply Qc_is_canon. unfold Qcplus, Q2Qc. cbn [this].
  by rewrite !Qred_correct.
Qed.

Lemma Q2Qc_minus (a b : Q) : (Q2Qc a - Q2Qc b)%Qc = Q2Qc (a - b).
Proof.
  apply Qc_is_canon. unfold Qcminus, Qcplus, Qcopp, Q2Qc. cbn [this].
  by rewrite !Qred_correct.
Qed.

Lemma Q2Qc_mult (a b : Q) : (Q2Qc a * Q2Qc b)%Qc = Q2Qc (a * b).
Proof.
  apply Qc_is_canon. unfold Qcmult, Q2Qc. cbn [this].
  by rewrite !Qred_correct.
Qed.

Lemma pow2_succ (k : nat) :
  (2 ^ (- Z.of_nat k) == 2 * 2 ^ (- Z.of_nat (S k)))%Q.
Proof.
  replace (- Z.of_nat k)%Z with (1 + - Z.of_nat (S k))%Z by lia.
  rewrite Qpower_plus by done. reflexivity.
Qed.

Lemma dyadic_int B z :
  (Z.abs z ≤ B)%Z → dyadic 0 B (Q2Qc (inject_Z z)).
Proof.
  intros Hz. exists z. split; [done|]. apply Q2Qc_eq.
  change (2 ^ (- Z.of_nat 0))%Q with 1%Q. ring.
Qed.

Lemma dyadic_add k B1 B2 a b :
  dyadic k B1 a → dyadic k B2 b → dyadic k (B1 + B2) (a + b)%Qc.
Proof.
  intros (x & Hx & ->) (y & Hy & ->). exists (x + y)%Z. split; [lia|].
  rewrite Q2Qc_plus. apply Q2Qc_eq. rewrite inject_Z_plus. ring.
Qed.

Lemma dyadic_sub k B1 B2 a b :
  dyadic k B1 a → dyadic k B2 b → dyadic k (B1 + B2) (a - b)%Qc.
Proof.
  intros (x & Hx & ->) (y & Hy & ->). exists (x - y)%Z. split; [lia|].
  rewrite Q2Qc_minus. apply Q2Qc_eq.
  unfold Z.sub. rewrite inject_Z_plus, inject_Z_opp. ring.
Qed.

Lemma dyadic_half k B a :
  dyadic k B a → dyadic (S k) B (half * a)%Qc.
Proof.
  intros (x & Hx & ->). exists x. split; [done|].
  unfold half. rewrite Q2Qc_mult. apply Q2Qc_eq.
  rewrite (pow2_succ k).
  generalize (2 ^ (- Z.of_nat (S k)))%Q. intros p. ring.
Qed.

Lemma dyadic_double k B q :
  dyadic k B q → (B < 2 ^ 53)%Z → (Z.of_nat k ≤ 1074)%Z → double q.
Proof.
  intros (z & Hz & ->) HB Hk. exists z, (- Z.of_nat k)%Z.
  split; [lia|]. split; [lia|done].
Qed.

Lemma half_half : (half * half * (1 + 1 + 1 + 1) = 1)%Qc.
Proof. apply Qc_is_canon. reflexivity. Qed.

Lemma half_twice : (half * (1 + 1) = 1)%Qc.
Proof. apply Qc_is_canon. reflexivity. Qed.

(** *** The formula in exact arithmetic *)

Lemma rational_involution (u v : point) :
  dual_grid_edge (dual_grid_edge u v).1 (dual_grid_edge u v).2 = (u, v).
Proof.
  destruct u as [a b], v as [c d]. unfold dual_grid_edge. cbn [fst snd].
  pose proof half_half as Hh.
  f_equal; f_equal.
  - transitivity (half * half * (1 + 1 + 1 + 1) * a)%Qc; [ring|].
    rewrite Hh. ring.
  - transitivity (half * half * (1 + 1 + 1 + 1) * b)%Qc; [ring|].
    rewrite Hh. ring.
  - transitivity (half * half * (1 + 1 + 1 + 1) * c)%Qc; [ring|].
    rewrite Hh. ring.
  - transitivity (half * half * (1 + 1 + 1 + 1) * d)%Qc; [ring|].
    rewrite Hh. ring.
Qed.

Lemma rational_geometry (u v : point) :
  let e := dual_grid_edge u v in
  (e.1.1 + e.2.1 = u.1 + v.1)%Qc ∧ (e.1.2 + e.2.2 = u.2 + v.2)%Qc ∧
  (e.1.1 - e.2.1 = u.2 - v.2)%Qc ∧ (e.1.2 - e.2.2 = u.1 - v.1)%Qc ∧
  ((e.1.1 - e.2.1) * (u.1 - v.1) + (e.1.2 - e.2.2) * (u.2 - v.2) = 0
     ↔ u.1 = v.1 ∨ u.2 = v.2)%Qc.
Proof.
  destruct u as [a b], v as [c d]. cbn zeta. unfold dual_grid_edge.
  cbn [fst snd]. pose proof half_twice as Hh.
  assert (E1 : (half * (a + c) + half * (b - d)
                + (half * (a + c) - half * (b - d)) = a + c)%Qc).
  { transitivity (half * (1 + 1) * (a + c))%Qc; [ring|]. rewrite Hh. ring. }
  assert (E2 : (half * (b + d) + half * (a - c)
                + (half * (b + d) - half * (a - c)) = b + d)%Qc).
  { transitivity (half * (1 + 1) * (b + d))%Qc; [ring|]. rewrite Hh. ring. }
  assert (E3 : (half * (a + c) + half * (b - d)
                - (half * (a + c) - half * (b - d)) = b - d)%Qc).
  { transitivity (half * (1 + 1) * (b - d))%Qc; [ring|]. rewrite Hh. ring. }
  assert (E4 : (half * (b + d) + half * (a - c)
                - (half * (b + d) - half * (a - c)) = a - c)%Qc).
  { transitivity (half * (1 + 1) * (a - c))%Qc; [ring|]. rewrite Hh. ring. }
  split; [done|]. split; [done|]. split; [done|]. split; [done|].
  rewrite E3, E4. split.
  - intros Hz.
    assert (Hz' : ((1 + 1) * ((a - c) * (b - d)) = 0)%Qc).
    { rewrite <-Hz. ring. }
    apply Qcmult_integral in Hz' as [Hz'|Hz']; [done|].
    apply Qcmult_integral in Hz' as [Hz'|Hz']; [left|right].
    + transitivity (a - c + c)%Qc; [ring|]. rewrite Hz'. ring.
    + transitivity (b - d + d)%Qc; [ring|]. rewrite Hz'. ring.
  - intros [->| ->]; ring.
Qed.

(** *** The floats of the code on the labels of a grid *)

Ltac dyadic_step :=
  lazymatch goal with
  | |- dyadic _ _ (_ + _)%Qc => eapply dyadic_add
  | |- dyadic _ _ (_ - _)%Qc => eapply dyadic_sub
  | |- dyadic _ _ (half * _)%Qc => eapply dyadic_half
  | |- dyadic _ _ (Q2Qc (inject_Z _)) => eapply dyadic_int; eassumption
  end.

Ltac exact_float :=
  eapply dyadic_double; [repeat dyadic_step|vm_compute; reflexivity|lia].

(** On labels of a grid no operation of [dual_grid_edge] rounds,
    neither on the edge nor on its dual edge. *)
Lemma lattice_exact (u v : Z * Z) :
  lattice u → lattice v →
  exact_dual (coords u) (coords v) ∧
  exact_dual (dual_grid_edge (coords u) (coords v)).1
             (dual_grid_edge (coords u) (coords v)).2.
Proof.
  destruct u as [x y], v as [x' y']. intros [Hx Hy] [Hx' Hy'].
  cbn [fst snd] in Hx, Hy, Hx', Hy'.
  unfold exact_dual, dual_grid_edge, coords. cbn [fst snd].
  split; repeat (apply Forall_cons; split; [exact_float|]); done.
Qed.

(** X17. On the labels of a grid, where the floats of the code are
    exact, [dual_grid_edge] undoes itself: the dual edge of the dual
    edge is the edge, with its ends in the same order, and no operation
    of the two calls rounds. *)
Theorem dual_grid_edge_involution (u v : Z * Z) :
  lattice u → lattice v →
  exact_dual (coords u) (coords v) ∧
  exact_dual (dual_grid_edge (coords u) (coords v)).1
             (dual_grid_edge (coords u) (coords v)).2 ∧
  dual_grid_edge (dual_grid_edge (coords u) (coords v)).1
                 (dual_grid_edge (coords u) (coords v)).2
  = (coords u, coords v).
Proof.
  intros Hu Hv. destruct (lattice_exact u v Hu Hv) as [H1 H2].
  split; [done|]. split; [done|]. apply rational_involution.
Qed.

(** X18. Taking the ends of an edge in the other order gives the same
    dual edge with its ends in the other order. *)
Theorem dual_grid_edge_swap u v :
  dual_grid_edge v u = ((dual_grid_edge u v).2, (dual_grid_edge u v).1).
Proof.
  destruct u as [a b], v as [c d]. unfold dual_grid_edge. cbn [fst snd].
  f_equal; f_equal; ring.
Qed.

(** X19. On the labels of a grid, where the floats of the code are
    exact, the dual edge has the midpoint of the edge, and its
    direction is the direction of the edge with the two coordinates
    exchanged: it is at a right angle to the edge exactly when the edge
    is parallel to an axis, as the edges of a grid are. *)
Theorem dual_grid_edge_geometry (u v : Z * Z) :
  lattice u → lattice v →
  let a := coords u in
  let b := coords v in
  let e := dual_grid_edge a b in
  exact_dual a b ∧
  (e.1.1 + e.2.1 = a.1 + b.1)%Qc ∧ (e.1.2 + e.2.2 = a.2 + b.2)%Qc ∧
  (e.1.1 - e.2.1 = a.2 - b.2)%Qc ∧ (e.1.2 - e.2.2 = a.1 - b.1)%Qc ∧
  ((e.1.1 - e.2.1) * (a.1 - b.1) + (e.1.2 - e.2.2) * (a.2 - b.2) = 0
     ↔ a.1 = b.1 ∨ a.2 = b.2)%Qc.
Proof.
  intros Hu Hv. destruct (lattice_exact u v Hu Hv) as [H1 _].
  cbn zeta. split; [done|]. apply rational_geometry.
Qed.

Section dual_grids.
Implicit Types G T : gmap (Z * Z) (gmap (Z * Z) attr).
Implicit Types D : gmap point (gmap point attr).
Implicit Types u v : Z * Z.
Implicit Types p q : point.

Lemma dual_of_sym u v p q : dual_of u v p q → dual_of u v q p.
Proof. unfold dual_of. tauto. Qed.

Lemma adjacent_dual_visit T v D u p q :
  adjacent (dual_visit T v D u) p q ↔
  adjacent D p q ∨ (has_edge T u v = false ∧ dual_of u v p q).
Proof.
  unfold dual_visit, dual_of. destruct (has_edge T u v) eqn:E.
  - split; [by left|]. by intros [?|[? _]].
  - cbn zeta. unfold add_edge. rewrite adjacent_add_edge.
    destruct (dual_grid_edge (coords u) (coords v)) as [p' q']. cbn [fst snd].
    split.
    + intros [?|[[-> ->]|[-> ->]]]; [by left|right; split; [done|]..];
        [by left|by right].
    + intros [?|[_ [[= -> ->]|[= -> ->]]]]; tauto.
Qed.

Lemma adjacent_foldl_dual_visit T v us : ∀ D p q,
  adjacent (foldl (dual_visit T v) D us) p q ↔
  adjacent D p q ∨ ∃ u, u ∈ us ∧ has_edge T u v = false ∧ dual_of u v p q.
Proof.
  induction us as [|u us IH]; intros D p q; simpl.
  - split; [by left|]. by intros [?|(u & ?%elem_of_nil & _)].
  - rewrite IH, adjacent_dual_visit. setoid_rewrite elem_of_cons. split.
    + intros [[?|[? ?]]|(u' & ? & ? & ?)]; [by left|right..]; eauto 7.
    + intros [?|(u' & [->|?] & ? & ?)]; [tauto|tauto|right; eauto].
Qed.

Lemma dual_grid_loop_spec G T vs : ∀ D D' p q,
  dual_grid_loop G T vs D = Ok D' →
  adjacent D' p q ↔
  adjacent D p q ∨
  ∃ u v, v ∈ vs ∧ adjacent G v u ∧ has_edge T u v = false ∧ dual_of u v p q.
Proof.
  induction vs as [|v vs IH]; intros D D' p q; simpl.
  - intros [= <-]. split; [by left|]. by intros [?|(u & v & ?%elem_of_nil & _)].
  - unfold nbrs_of. destruct (G !! v) as [nbrs|] eqn:HG; [|done].
    rewrite bind_ret. intros Hl. rewrite (IH _ _ _ _ Hl).
    rewrite adjacent_foldl_dual_visit. setoid_rewrite elem_of_cons. split.
    + intros [[?|(u & Hu%elem_of_keys & ? & ?)]|(u & v' & ? & ? & ? & ?)].
      * by left.
      * right. exists u, v. split; [by left|]. split; [|done].
        apply adjacent_lookup. eauto.
      * right. exists u, v'. eauto.
    + intros [?|(u & v' & [->|?] & Hadj & ? & ?)]; [tauto| |right; eauto 7].
      left. right. exists u. split; [|done].
      apply adjacent_lookup in Hadj as (nb & Hnb & Hu). rewrite HG in Hnb.
      injection Hnb as <-. by apply elem_of_keys.
Qed.

Lemma dual_grid_loop_returns G T vs : ∀ D,
  (∀ v, v ∈ vs → is_Some (G !! v)) → ∃ D', dual_grid_loop G T vs D = Ok D'.
Proof.
  induction vs as [|v vs IH]; intros D Hvs; simpl; [eauto|].
  destruct (Hvs v) as [nbrs Hn]; [left|]. unfold nbrs_of. rewrite Hn, bind_ret.
  apply IH. intros v' ?. apply Hvs. by right.
Qed.

Lemma dual_grid_loop_raises G T vs : ∀ D v,
  v ∈ vs → G !! v = None → dual_grid_loop G T vs D = Raise "KeyError".
Proof.
  induction vs as [|v' vs IH]; intros D v Hv HG; [by apply elem_of_nil in Hv|].
  simpl. unfold nbrs_of. destruct (G !! v') as [nbrs|] eqn:E; [|done].
  rewrite bind_ret. apply elem_of_cons in Hv as [->|Hv]; [congruence|].
  by eapply IH.
Qed.

Lemma adjacent_dual_grid G T D p q :
  dual_grid G T = Ok D →
  adjacent D p q ↔
  ∃ u v, is_Some (T !! v) ∧ adjacent G v u ∧ has_edge T u v = false ∧
         dual_of u v p q.
Proof.
  intros HD. unfold dual_grid in HD.
  rewrite (dual_grid_loop_spec _ _ _ _ _ p q HD).
  setoid_rewrite elem_of_keys. split.
  - intros [Hn|?]; [|done]. by apply adjacent_empty in Hn.
  - by right.
Qed.

(** X20. The walls of the maze: when [dual_grid] returns, two points
    are adjacent in the result exactly when they are the ends of the
    dual edge of an edge of [G] at a node of [T] that [T] does not
    have; the result is symmetric. *)
Theorem dual_grid_spec G T D :
  dual_grid G T = Ok D →
  (∀ p q, adjacent D p q ↔
     ∃ u v, is_Some (T !! v) ∧ adjacent G v u ∧ has_edge T u v = false ∧
            dual_of u v p q) ∧
  undirected D.
Proof.
  intros HD. split; [intros p q; by apply adjacent_dual_grid|].
  intros p q (u & v & ? & ? & ? & ?)%(adjacent_dual_grid _ _ _ _ _ HD).
  apply (adjacent_dual_grid _ _ _ _ _ HD).
  exists u, v. eauto using dual_of_sym.
Qed.

Lemma dual_grid_returns_iff G T :
  (dom T ⊆ dom G → ∃ D, dual_grid G T = Ok D) ∧
  (¬ dom T ⊆ dom G → dual_grid G T = Raise "KeyError").
Proof.
  split.
  - intros Hsub. apply dual_grid_loop_returns.
    intros v Hv%elem_of_keys%elem_of_dom. by apply elem_of_dom, Hsub.
  - intros Hn.
    assert (∃ v, v ∈ dom T ∧ v ∉ dom G) as (v & Hv & HG).
    { destruct (decide (Exists (λ v, v ∉ dom G) (elements (dom T))))
        as [Hex|Hnex].
      - apply Exists_exists in Hex as (v & Hv%elem_of_elements & HG). eauto.
      - exfalso. apply Hn. intros v Hv.
        destruct (decide (v ∈ dom G)) as [|HG]; [done|]. exfalso.
        apply Hnex, Exists_exists. exists v.
        split; [by apply elem_of_elements|done]. }
    apply (dual_grid_loop_raises _ _ _ _ v).
    + by apply elem_of_keys, elem_of_dom.
    + by apply not_elem_of_dom.
Qed.

(** X21. [dual_grid] looks up every node of [T] in [G]: it returns
    when all of them are nodes of [G] and raises KeyError when one is
    not. *)
Theorem dual_grid_returns G T :
  (dom T ⊆ dom G → ∃ D, dual_grid G T = Ok D) ∧
  (¬ dom T ⊆ dom G → dual_grid G T = Raise "KeyError").
Proof. apply dual_grid_returns_iff. Qed.

End dual_grids.

Section mazes.
Implicit Types G T : gmap (Z * Z) (gmap (Z * Z) attr).

(** X22. [random_maze] on a connected grid: the calls return, the tree
    spans the grid, the solution is made of edges of the tree, and the
    walls are the dual edges of the edges of the grid that the tree
    leaves out. *)
Theorem random_maze_returns G n :
  undirected G → connected G → (∀ x, ¬ adjacent G x x) →
  (0, 0)%Z ∈ dom G → (n - 1, n - 1)%Z ∈ dom G →
  ∃ T P D, random_maze G n = Ok (T, P, D) ∧
    undirected T ∧ is_tree T ∧ spans T G ∧
    (∀ x y, adjacent P x y → adjacent T x y) ∧
    (∀ p q, adjacent D p q ↔
       ∃ u v, adjacent G u v ∧ ¬ adjacent T u v ∧ dual_of u v p q).
Proof.
  intros Hg Hc Hirr Ha Hb.
  assert (Hne : G ≠ ∅).
  { intros ->. by rewrite dom_empty in Ha. }
  destruct (minimum_spanning_tree_spec G Hg Hc Hne Hirr)
    as (HTu & HTt & HTd & HTs).
  set (T := minimum_spanning_tree G) in *.
  destruct HTt as (Hn & HTc & Hac). rewrite <-HTd in Ha, Hb.
  destruct (shortest_path_total T HTu _ _ Ha (HTc _ _ Ha Hb)) as [p Hp].
  destruct (proj1 (dual_grid_returns_iff G T)) as [D HD].
  { by rewrite HTd. }
  exists T, (my_path_graph p), D. unfold random_maze. fold T.
  rewrite Hp, bind_ret, HD, bind_ret.
  split; [done|]. split; [done|]. split; [done|]. split; [done|]. split.
  - pose proof (shortest_path_walk _ _ _ _ Hp) as (_ & _ & Hw & _).
    intros x y [?|?]%adjacent_my_path_graph;
      [|apply HTu]; by eapply walk_next_in.
  - intros p0 q. rewrite (adjacent_dual_grid _ _ _ _ _ HD). split.
    + intros (u & v & _ & Hvu & Hn' & Hd). exists u, v.
      split; [by apply Hg|]. split; [|done]. unfold adjacent. congruence.
    + intros (u & v & Huv & Hn' & Hd). exists u, v.
      split; [|split; [by apply Hg|split; [|done]]].
      * apply elem_of_dom. rewrite HTd. eapply adjacent_dom. by apply Hg.
      * by apply not_true_is_false.
Qed.

End mazes.

(** ** Random weights *)

Section weights_proofs.
Context `{Countable node}.
Local Abbreviation Adj := (gmap node (gmap node attr)).
Implicit Types g : Adj.

Lemma adjacent_weight_at g x y : adjacent g x y ↔ is_Some (weight_at g x y).
Proof.
  rewrite adjacent_lookup. unfold weight_at. split.
  - intros (nb & -> & Hy). done.
  - intros Hs. destruct (g !! x) as [nb|]; [eauto|by destruct Hs].
Qed.

(** One assignment: the weight of the edge, from both ends, and nothing
    else. *)
Lemma set_weight_spec g u v q :
  undirected g → adjacent g u v →
  ∃ g', set_weight g u v q = Ok g' ∧
    ∀ x y, weight_at g' x y =
      if decide ((x = u ∧ y = v) ∨ (x = v ∧ y = u)) then Some (Some q)
      else weight_at g x y.
Proof.
  intros Hg Huv. pose proof (Hg _ _ Huv) as Hvu.
  apply adjacent_lookup in Huv as (nu & Hu & [du Hdu]).
  apply adjacent_lookup in Hvu as (nv & Hv & [dv Hdv]).
  unfold set_weight, nbrs_of. rewrite Hu, bind_ret, Hdu, bind_ret. cbn zeta.
  destruct (decide (u = v)) as [->|Hne].
  - rewrite lookup_insert_eq. rewrite decide_True
      by (rewrite lookup_insert_eq; eauto).
    eexists. split; [done|]. intros x y. unfold weight_at.
    rewrite insert_insert_eq, insert_insert_eq.
    destruct (decide (x = v)) as [->|Hx].
    + rewrite lookup_insert_eq. cbn. destruct (decide (y = v)) as [->|Hy].
      * rewrite lookup_insert_eq. by rewrite decide_True by tauto.
      * rewrite lookup_insert_ne by done. rewrite decide_False by tauto.
        by rewrite Hu.
    + rewrite lookup_insert_ne by done. by rewrite decide_False by tauto.
  - rewrite lookup_insert_ne by done. rewrite Hv.
    rewrite decide_True by eauto.
    eexists. split; [done|]. intros x y. unfold weight_at.
    destruct (decide (x = v)) as [->|Hxv].
    + rewrite lookup_insert_eq. cbn. destruct (decide (y = u)) as [->|Hy].
      * rewrite lookup_insert_eq. by rewrite decide_True by tauto.
      * rewrite lookup_insert_ne by done. rewrite decide_False by naive_solver.
        by rewrite Hv.
    + rewrite lookup_insert_ne by done.
      destruct (decide (x = u)) as [->|Hxu].
      * rewrite lookup_insert_eq. cbn. destruct (decide (y = v)) as [->|Hy].
        -- rewrite lookup_insert_eq. by rewrite decide_True by tauto.
        -- rewrite lookup_insert_ne by done.
           rewrite decide_False by naive_solver. by rewrite Hu.
      * rewrite lookup_insert_ne by done. by rewrite decide_False by tauto.
Qed.

Lemma set_weight_adjacent g u v q g' :
  (∀ x y, weight_at g' x y =
      if decide ((x = u ∧ y = v) ∨ (x = v ∧ y = u)) then Some (Some q)
      else weight_at g x y) →
  undirected g → adjacent g u v →
  (∀ x y, adjacent g' x y ↔ adjacent g x y).
Proof.
  intros Hw Hg Huv x y. rewrite !adjacent_weight_at, Hw.
  case_decide as Hc; [|done]. split; [|eauto]. intros _.
  apply adjacent_weight_at.
  destruct Hc as [[-> ->]|[-> ->]]; [done|by apply Hg].
Qed.

Lemma weight_loop_spec es : ∀ g r,
  undirected g → (∀ u v, (u, v) ∈ es → adjacent g u v) →
  length es ≤ length r →
  ∃ g', weight_loop es g r = Ok (g', drop (length es) r) ∧
    (∀ x y, adjacent g' x y ↔ adjacent g x y) ∧
    (∀ x y, ((x, y) ∈ es ∨ (y, x) ∈ es) →
            unit_weight (weight_at g' x y) ∧
            weight_at g' x y = weight_at g' y x) ∧
    (∀ x y, ¬ ((x, y) ∈ es ∨ (y, x) ∈ es) →
            weight_at g' x y = weight_at g x y).
Proof.
  induction es as [|[u v] es IH]; intros g r Hg Hes Hlen.
  - exists g. simpl. split; [done|]. split; [done|]. split; [|done].
    intros x y [?%elem_of_nil|?%elem_of_nil]; done.
  - destruct r as [|m r]; [simpl in Hlen; lia|]. simpl in Hlen.
    cbn [weight_loop random]. rewrite bind_ret. cbn beta iota.
    assert (Huv : adjacent g u v) by (apply Hes; left).
    destruct (set_weight_spec g u v (unit_float m) Hg Huv) as (g1 & -> & Hw).
    rewrite bind_ret.
    pose proof (set_weight_adjacent _ _ _ _ _ Hw Hg Huv) as Hadj.
    assert (Hg1 : undirected g1).
    { intros x y. rewrite !Hadj. apply Hg. }
    destruct (IH g1 r Hg1) as (g' & Hl & Hadj' & Hin & Hout); [|lia|].
    { intros a b ?. apply Hadj, Hes. by right. }
    exists g'. split; [exact Hl|]. split; [intros x y; by rewrite Hadj', Hadj|].
    split.
    + intros x y Hxy.
      destruct (decide ((x, y) ∈ es ∨ (y, x) ∈ es)) as [Hd|Hd]; [by apply Hin|].
      assert (Hd' : ¬ ((y, x) ∈ es ∨ (x, y) ∈ es)) by tauto.
      rewrite (Hout x y Hd), (Hout y x Hd'), !Hw.
      assert (Hc : (x = u ∧ y = v) ∨ (x = v ∧ y = u)).
      { destruct Hxy as [Hxy|Hxy]; apply elem_of_cons in Hxy as [Hxy|Hxy];
          simplify_eq; tauto. }
      rewrite decide_True by done. rewrite decide_True by tauto.
      split; [|done]. exists (unit_float m).
      destruct (unit_float_range m). done.
    + intros x y Hn. rewrite Hout.
      2:{ intros [?|?]; apply Hn; [left|right]; by right. }
      rewrite Hw. rewrite decide_False; [done|].
      intros [[-> ->]|[-> ->]]; apply Hn; [left|right]; left.
Qed.

(** X23. The loop of [my_grid_graph] leaves the graph as it is and
    gives every edge a weight in [0, 1), the same from both of its
    ends, for one draw of the random module per edge. *)
Theorem random_weights_spec g r :
  undirected g → length (edges g) ≤ length r →
  ∃ g', random_weights g r = Ok (g', drop (length (edges g)) r) ∧
    (∀ x y, adjacent g' x y ↔ adjacent g x y) ∧
    ∀ x y, adjacent g x y →
      ∃ q, weight_at g' x y = Some (Some q) ∧
           weight_at g' y x = Some (Some q) ∧ (0 <= q)%Q ∧ (q < 1)%Q.
Proof.
  intros Hg Hlen.
  destruct (weight_loop_spec (edges g) g r Hg) as (g' & Hl & Hadj & Hin & _);
    [intros u v; apply edges_adjacent|done|].
  exists g'. split; [done|]. split; [done|].
  intros x y Hxy.
  destruct (Hin x y (edges_complete g x y Hg Hxy)) as [(q & Hq & ? & ?) Hsym].
  exists q. rewrite <-Hsym. done.
Qed.

End weights_proofs.

(** ** Small inputs *)

Section growing.
Context `{Countable node}.
Local Abbreviation Adj := (gmap node (gmap node attr)).
Implicit Types g : Adj.

(** Graphs that are built by adding one edge after the other at a node
    that is there stay connected and without self-loops. *)
Lemma grow_edge g u v :
  undirected g ∧ connected g ∧ (∀ x, ¬ adjacent g x x) →
  u ∈ dom g → u ≠ v →
  undirected (add_edge g u v) ∧ connected (add_edge g u v) ∧
  (∀ x, ¬ adjacent (add_edge g u v) x x).
Proof.
  intros (Hg & Hc & Hirr) Hu Huv. unfold add_edge.
  assert (Hg' : undirected (add_edge_attr g u v None))
    by (by apply undirected_add_edge).
  split; [done|]. split.
  - assert (Hto : ∀ z, z ∈ dom (add_edge_attr g u v None) →
                       rtc (adjacent (add_edge_attr g u v None)) z u).
    { intros z. rewrite dom_add_edge, !elem_of_union, !elem_of_singleton.
      intros [[->| ->]|Hz]; [done| |].
      - apply rtc_once, adjacent_add_edge. tauto.
      - eapply rtc_subrel; [|by apply Hc].
        intros a b ?. apply adjacent_add_edge. tauto. }
    intros x y Hx Hy. eapply rtc_trans; [by apply Hto|].
    apply rtc_sym; [exact Hg'|by apply Hto].
  - intros x [?|[[-> ->]|[-> ->]]]%adjacent_add_edge; [by eapply Hirr|done..].
Qed.

Lemma grow_first (u v : node) :
  u ≠ v →
  undirected (add_edge (∅ : Adj) u v) ∧ connected (add_edge (∅ : Adj) u v) ∧
  (∀ x, ¬ adjacent (add_edge (∅ : Adj) u v) x x).
Proof.
  intros Huv. rewrite add_edge_empty.
  destruct (singleton_tree u) as (H1 & H2 & H3).
  apply grow_edge; [|rewrite dom_singleton_L; set_solver|done].
  split; [done|]. split; [done|].
  intros x (nb & Hx & Hy)%adjacent_lookup.
  apply lookup_singleton_Some in Hx as [_ <-]. rewrite lookup_empty in Hy.
  by destruct Hy.
Qed.

End growing.

Lemma triangle_simple :
  undirected triangle ∧ connected triangle ∧ (∀ x, ¬ adjacent triangle x x).
Proof.
  unfold triangle.
  apply grow_edge; [apply grow_edge; [by apply grow_first|..]|..];
    try done; unfold add_edge; rewrite ?dom_add_edge; set_solver.
Qed.

Lemma grid2_simple :
  undirected grid2 ∧ connected grid2 ∧ (∀ x, ¬ adjacent grid2 x x).
Proof.
  unfold grid2.
  apply grow_edge;
    [apply grow_edge; [apply grow_edge; [by apply grow_first|..]|..]|..];
    try done; unfold add_edge; rewrite ?dom_add_edge; set_solver.
Qed.

Lemma triangle_nonempty : triangle ≠ ∅.
Proof.
  intros E. assert (Hd : 0 ∈ dom triangle).
  { unfold triangle, add_edge. rewrite !dom_add_edge. set_solver. }
  rewrite E, dom_empty in Hd. by apply elem_of_empty in Hd.
Qed.

Lemma grid2_nonempty : grid2 ≠ ∅.
Proof.
  intros E. assert (Hd : (0, 0)%Z ∈ dom grid2).
  { unfold grid2, add_edge. rewrite !dom_add_edge. set_solver. }
  rewrite E, dom_empty in Hd. by apply elem_of_empty in Hd.
Qed.

Lemma grid2_corners : (0, 0)%Z ∈ dom grid2 ∧ (2 - 1, 2 - 1)%Z ∈ dom grid2.
Proof.
  unfold grid2, add_edge. rewrite !dom_add_edge.
  change (2 - 1)%Z with 1%Z. split; set_solver.
Qed.

(** * The further properties on small inputs *)

Lemma propose_on_triangle :
  ∃ r, propose (ldst_sampler 2) (mkWorld (ldst_heap 2) draws []) = Ok r.
Proof. eexists. vm_compute. reflexivity. Qed.

Lemma mst_triangle_spans :
  undirected (minimum_spanning_tree triangle) ∧
  spans (minimum_spanning_tree triangle) triangle.
Proof.
  destruct triangle_simple as (Hu & Hc & Hi).
  destruct (minimum_spanning_tree_spec triangle Hu Hc triangle_nonempty Hi)
    as (? & _ & ?). done.
Qed.

Lemma undirected_one_edge : undirected one_edge.
Proof. by destruct (grow_first 0 1) as (? & _). Qed.

Lemma LDST_starts_at_spanning_tree_witness :
  ∃ s w' t,
    LDST 0 2 1 (mkWorld {[0 := new_graph triangle]} [] []) = Ok (s, w') ∧
    heap (mkWorld {[0 := new_graph triangle]} [] []) !! value s = None ∧
    heap w' = <[value s := t]>
                (heap (mkWorld {[0 := new_graph triangle]} [] [])) ∧
    base_graph t = Some 0 ∧
    spans (adj t) (adj (new_graph triangle)) ∧
    tree_state (mkSTMetropolis s) w'.
Proof.
  destruct triangle_simple as (Hu & Hc & Hi).
  apply (LDST_starts_at_spanning_tree 0 2 1
           (mkWorld {[0 := new_graph triangle]} [] []) (new_graph triangle)
           (lookup_singleton_eq _ _) Hu Hc triangle_nonempty Hi).
Defined.

Lemma BDST_starts_at_spanning_tree_witness :
  ∃ s w' t,
    BDST 0 2 1 1 (mkWorld {[0 := new_graph triangle]} [] []) = Ok (s, w') ∧
    heap (mkWorld {[0 := new_graph triangle]} [] []) !! value s = None ∧
    heap w' = <[value s := t]>
                (heap (mkWorld {[0 := new_graph triangle]} [] [])) ∧
    base_graph t = Some 0 ∧
    spans (adj t) (adj (new_graph triangle)) ∧
    tree_state (mkSTMetropolis s) w'.
Proof.
  destruct triangle_simple as (Hu & Hc & Hi).
  apply (BDST_starts_at_spanning_tree 0 2 1 1
           (mkWorld {[0 := new_graph triangle]} [] []) (new_graph triangle)
           (lookup_singleton_eq _ _) Hu Hc triangle_nonempty Hi).
Defined.

Lemma propose_stays_in_base_graph_witness :
  ∃ self' w' t',
    propose (ldst_sampler 2) (mkWorld (ldst_heap 2) draws []) = Ok (self', w') ∧
    heap w' !! value (stochastic self') = Some t' ∧
    base_graph t' = Some 0 ∧ spans (adj t') triangle.
Proof.
  destruct propose_on_triangle as [[self' w'] E].
  destruct mst_triangle_spans as [Hu Hs].
  destruct triangle_simple as (Hg & _).
  destruct (propose_stays_in_base_graph (ldst_sampler 2)
              (mkWorld (ldst_heap 2) draws []) self' w' _ 0 (new_graph triangle)
              eq_refl Hu eq_refl eq_refl Hg Hs E) as (t' & H1 & H2 & H3).
  exists self', w', t'. exact (conj E (conj H1 (conj H2 H3))).
Defined.

Lemma propose_frame_witness :
  ∃ self' w',
    propose (ldst_sampler 2) (mkWorld (ldst_heap 2) draws [5%Z]) = Ok (self', w') ∧
    (∀ r, r ≠ 1 → heap w' !! r = ldst_heap 2 !! r) ∧
    np_gen w' = [5%Z] ∧
    ∃ ds, draws = ds ++ gen w' ∧ 2 ≤ length ds.
Proof.
  assert (E : ∃ r, propose (ldst_sampler 2)
                     (mkWorld (ldst_heap 2) draws [5%Z]) = Ok r)
    by (eexists; vm_compute; reflexivity).
  destruct E as [[self' w'] E]. exists self', w'. split; [exact E|].
  apply (propose_frame (ldst_sampler 2)
           (mkWorld (ldst_heap 2) draws [5%Z]) self' w' E).
Defined.

Lemma reject_before_propose_raises_witness :
  reject (ldst_sampler 2) (mkWorld (ldst_heap 2) [] [])
  = Raise "AttributeError".
Proof.
  apply (reject_before_propose_raises 0 0 0 2 1
           (mkWorld {[0 := new_graph triangle]} [] [])
           (stochastic (ldst_sampler 2)) (mkWorld (ldst_heap 2) [] [])).
  left. apply LDST_triangle.
Defined.

Lemma propose_without_edges_raises_witness :
  propose (ldst_sampler 2) (mkWorld (heap_of one_node one_node) draws [])
  = Raise "IndexError".
Proof.
  apply (propose_without_edges_raises (ldst_sampler 2)
           (mkWorld (heap_of one_node one_node) draws [])
           (set_d 2 (set_base_graph 0 (new_graph one_node))) eq_refl).
  intros x y (nb & Hx & Hy)%adjacent_lookup. cbn in Hx. unfold one_node in Hx.
  apply lookup_singleton_Some in Hx as [_ <-]. rewrite lookup_empty in Hy.
  by destruct Hy.
Defined.

Lemma propose_never_returns_inside_tree_witness :
  propose (ldst_sampler 2) (mkWorld (heap_of one_edge one_edge) draws [])
  = Diverge.
Proof.
  apply (propose_never_returns_inside_tree (ldst_sampler 2)
           (mkWorld (heap_of one_edge one_edge) draws [])
           (set_d 2 (set_base_graph 0 (new_graph one_edge))) 0
           (new_graph one_edge) eq_refl undirected_one_edge eq_refl eq_refl).
  - vm_compute. discriminate.
  - intros x y Hxy. exact Hxy.
Defined.

Lemma propose_self_loop_raises_witness :
  propose (ldst_sampler 2) (mkWorld (heap_of looped one_edge) [0%Z; 7%Z] [])
  = Raise "ValueError".
Proof.
  apply (propose_self_loop_raises (ldst_sampler 2)
           (mkWorld (heap_of looped one_edge) [0%Z; 7%Z] [])
           (set_d 2 (set_base_graph 0 (new_graph one_edge))) 0 looped
           [] [] 0%Z 1 [7%Z] eq_refl).
  - vm_compute. discriminate.
  - reflexivity.
  - reflexivity.
  - reflexivity.
  - constructor.
  - constructor.
  - vm_compute. reflexivity.
  - vm_compute. reflexivity.
Defined.

Lemma bdst_needs_root_witness :
  (∃ q, bdst {[0 := new_graph star2]} 0 0 1 1 = Ok q) ∧
  bdst {[0 := new_graph star2]} 0 7 1 1 = Raise "KeyError".
Proof.
  destruct star2_tree as [Hu _].
  assert (Hd : dom star2 = {[0; 1; 2]}).
  { unfold star2, add_edge. rewrite !dom_add_edge, dom_singleton_L.
    set_solver. }
  split.
  - apply (bdst_needs_root {[0 := new_graph star2]} 0 (new_graph star2) 0 1 1
             (lookup_singleton_eq _ _) Hu).
    cbn. rewrite Hd. set_solver.
  - apply (bdst_needs_root {[0 := new_graph star2]} 0 (new_graph star2) 7 1 1
             (lookup_singleton_eq _ _) Hu).
    cbn. rewrite Hd. set_solver.
Defined.

Lemma reject_twice_raises_witness :
  ∃ self1 w1 self2 w2,
    propose (ldst_sampler 2) (mkWorld (ldst_heap 2) draws []) = Ok (self1, w1) ∧
    reject self1 w1 = Ok (self2, w2) ∧
    reject self2 w2 = Raise "NetworkXError".
Proof.
  destruct propose_on_triangle as [[self1 w1] E1].
  destruct mst_triangle_spans as [Hu _].
  destruct (propose_reject (ldst_sampler 2) (mkWorld (ldst_heap 2) draws [])
              self1 w1 _ (np_gen w1) eq_refl Hu E1) as (t' & E2 & _).
  assert (Hw : mkWorld (heap w1) (gen w1) (np_gen w1) = w1) by (by destruct w1).
  rewrite Hw in E2.
  eexists self1, w1, _, _. split; [exact E1|]. split; [exact E2|].
  apply (reject_twice_raises (ldst_sampler 2)
           (mkWorld (ldst_heap 2) draws []) self1 w1 _ _ _ eq_refl Hu E1 E2).
Defined.

Lemma star2_root : 2 ∈ dom star2.
Proof. unfold star2, add_edge. rewrite !dom_add_edge. set_solver. Qed.

Lemma max_depth_greatest_distance_witness :
  ∃ m, max_depth {[0 := new_graph star2]} 0 2 = Ok m ∧
       (∃ x, is_dist star2 2 x m) ∧
       ∀ x n, is_dist star2 2 x n → n ≤ m.
Proof.
  destruct star2_tree as [Hu _].
  apply (max_depth_greatest_distance {[0 := new_graph star2]} 0
           (new_graph star2) 2 (lookup_singleton_eq _ _) Hu star2_root).
Defined.

Lemma bdst_zero_iff_depth_bounded_witness :
  ∃ q m, bdst {[0 := new_graph star2]} 0 2 1 5 = Ok q ∧
         max_depth {[0 := new_graph star2]} 0 2 = Ok m ∧
         ((q == 0)%Q ↔ (Z.of_nat m ≤ 1)%Z).
Proof.
  destruct star2_tree as [Hu _].
  apply (bdst_zero_iff_depth_bounded {[0 := new_graph star2]} 0
           (new_graph star2) 2 1 5 (lookup_singleton_eq _ _) Hu star2_root).
  vm_compute. discriminate.
Defined.

Lemma energy_range_witness :
  ∃ q q', bdst {[0 := new_graph star2]} 0 2 0 5 = Ok q ∧
          ldst 0 2 {[0 := new_graph star2]} 0 5 = Ok q' ∧
          (neg_beta_times 5 (size star2) <= q)%Q ∧ (q <= 0)%Q ∧
          (neg_beta_times 5 (size star2) <= q')%Q ∧ (q' <= 0)%Q.
Proof.
  destruct star2_tree as [Hu _].
  apply (energy_range {[0 := new_graph star2]} 0 (new_graph star2) 2 0 2 5 0
           (lookup_singleton_eq _ _) Hu star2_root).
  vm_compute. discriminate.
Defined.

Lemma my_path_graph_tree_witness :
  undirected (my_path_graph [0; 1; 2]) ∧ is_tree (my_path_graph [0; 1; 2]) ∧
  dom (my_path_graph [0; 1; 2]) = list_to_set [0; 1; 2].
Proof.
  apply (my_path_graph_tree [0; 1; 2]).
  - repeat constructor; set_solver.
  - simpl. lia.
Defined.

Lemma solution_path_graph_witness :
  ∃ p, shortest_path star2 0 1 = Ok p ∧
       undirected (my_path_graph p) ∧ is_tree (my_path_graph p) ∧
       (∀ x y, adjacent (my_path_graph p) x y → adjacent star2 x y) ∧
       0 ∈ dom (my_path_graph p) ∧ 1 ∈ dom (my_path_graph p).
Proof.
  assert (E : ∃ p, shortest_path star2 0 1 = Ok p)
    by (eexists; vm_compute; reflexivity).
  destruct E as [p E]. destruct star2_tree as [Hu _].
  exists p. split; [exact E|].
  apply (solution_path_graph star2 0 1 p Hu E). lia.
Defined.

Lemma dual_grid_edge_involution_witness :
  exact_dual (coords (0, 0)%Z) (coords (1, 0)%Z) ∧
  exact_dual (dual_grid_edge (coords (0, 0)%Z) (coords (1, 0)%Z)).1
             (dual_grid_edge (coords (0, 0)%Z) (coords (1, 0)%Z)).2 ∧
  dual_grid_edge (dual_grid_edge (coords (0, 0)%Z) (coords (1, 0)%Z)).1
                 (dual_grid_edge (coords (0, 0)%Z) (coords (1, 0)%Z)).2
  = (coords (0, 0)%Z, coords (1, 0)%Z).
Proof.
  apply (dual_grid_edge_involution (0, 0)%Z (1, 0)%Z); split; cbn; lia.
Defined.

Lemma dual_grid_edge_geometry_witness :
  let a := coords (0, 0)%Z in
  let b := coords (1, 0)%Z in
  let e := dual_grid_edge a b in
  exact_dual a b ∧
  (e.1.1 + e.2.1 = a.1 + b.1)%Qc ∧ (e.1.2 + e.2.2 = a.2 + b.2)%Qc ∧
  (e.1.1 - e.2.1 = a.2 - b.2)%Qc ∧ (e.1.2 - e.2.2 = a.1 - b.1)%Qc ∧
  ((e.1.1 - e.2.1) * (a.1 - b.1) + (e.1.2 - e.2.2) * (a.2 - b.2) = 0
     ↔ a.1 = b.1 ∨ a.2 = b.2)%Qc.
Proof.
  apply (dual_grid_edge_geometry (0, 0)%Z (1, 0)%Z); split; cbn; lia.
Defined.

Lemma dual_grid_spec_witness :
  ∃ D, dual_grid grid2 (minimum_spanning_tree grid2) = Ok D ∧
       (∀ p q, adjacent D p q ↔
          ∃ u v, is_Some (minimum_spanning_tree grid2 !! v) ∧
                 adjacent grid2 v u ∧
                 has_edge (minimum_spanning_tree grid2) u v = false ∧
                 dual_of u v p q) ∧
       undirected D.
Proof.
  destruct grid2_simple as (Hu & Hc & Hi).
  destruct (minimum_spanning_tree_spec grid2 Hu Hc grid2_nonempty Hi)
    as (_ & _ & Hd & _).
  destruct (proj1 (dual_grid_returns_iff grid2 (minimum_spanning_tree grid2)))
    as [D E]; [by rewrite Hd|].
  exists D. split; [exact E|].
  apply (dual_grid_spec grid2 (minimum_spanning_tree grid2) D E).
Defined.

Lemma random_maze_returns_witness :
  ∃ T P D, random_maze grid2 2 = Ok (T, P, D) ∧
    undirected T ∧ is_tree T ∧ spans T grid2 ∧
    (∀ x y, adjacent P x y → adjacent T x y) ∧
    (∀ p q, adjacent D p q ↔
       ∃ u v, adjacent grid2 u v ∧ ¬ adjacent T u v ∧ dual_of u v p q).
Proof.
  destruct grid2_simple as (Hu & Hc & Hi). destruct grid2_corners as [Ha Hb].
  apply (random_maze_returns grid2 2 Hu Hc Hi Ha Hb).
Defined.

Lemma random_weights_spec_witness :
  ∃ g', random_weights triangle [1; 2; 3; 4]%Z
          = Ok (g', drop (length (edges triangle)) [1; 2; 3; 4]%Z) ∧
    (∀ x y, adjacent g' x y ↔ adjacent triangle x y) ∧
    ∀ x y, adjacent triangle x y →
      ∃ q, weight_at g' x y = Some (Some q) ∧
           weight_at g' y x = Some (Some q) ∧ (0 <= q)%Q ∧ (q < 1)%Q.
Proof.
  destruct triangle_simple as (Hu & _).
  apply (random_weights_spec triangle [1; 2; 3; 4]%Z Hu).
  vm_compute. lia.
Defined.
